(** * FilteredSelectMultiple: a shallow embedding of the dual-list widget

    The widget turns a native <select multiple> into two panes
    ("available" / "chosen") with filter inputs and four move buttons.
    The repository carries two listings of the widget class in
    src/unnamed/part_000:

    - lines 10-448, the earlier listing (no counters, no guards on
      disabled options), embedded in [Module Basic];
    - lines 562-1024, the later listing (counters, debounced filter,
      guards on disabled options), embedded in [Module Full].

    The functions the two listings share word for word ([_buildState],
    [_sortByIndex], [_passesFilter], [_getSelectedKeys],
    [_syncToOriginal], [_dispatchChange]) are embedded once, before the
    two modules.

    Conventions of the embedding:
    - a JavaScript string is a [string] of code units in the range
      U+0000..U+00FF; [toLowerCase], [trim] and the regular expression
      class \s are ECMAScript's, restricted to that range;
    - a JavaScript integer Number is a [Z];
    - [this.options] (a Map) is a [gmap string Meta]; arrays are lists and
      an in-place update of [this.available] / [this.chosen] is a field
      update of the widget record, addressed by pane type so that aliasing
      of the two ends of a transfer is kept;
    - the DOM is reduced to what the state engine reads and writes: the
      <option>s of the source select, the <option>s of the two pane
      selects, the value of the two filter inputs, the text of the two
      counters, the [disabled] property of the four buttons;
    - the order of the externally visible effects of a transfer is kept in
      a ghost [trace];
    - what lies around the state engine is embedded on its own: the class
      names of the buttons ([buttonClassName]), the size of the panes
      ([initialSize]), the widget's place in the document ([Module Dom]),
      the flag of the default style sheet ([injectDefaultCSS]) and the
      timers of the filters ([Module Debounce]). *)

From stdpp Require Import gmap strings list fin_maps pretty sorting.
From Stdlib Require Import Ascii.

Open Scope string_scope.
Open Scope list_scope.
Open Scope Z_scope.

#[local] Arguments String.append !s1 s2 : simpl nomatch.

(** ** Strings *)

Module Js.

(** WhiteSpace and LineTerminator code points below U+0100: TAB, LF, VT,
    FF, CR, SPACE and NO-BREAK SPACE.  The same set is matched by \s and
    stripped by [String.prototype.trim]. *)
Definition isWhiteSpace (c : ascii) : bool :=
  match N_of_ascii c with
  | 9 | 10 | 11 | 12 | 13 | 32 | 160 => true
  | _ => false
  end%N.

(** Lower-case mapping of one code unit: A-Z, and the Latin-1 capitals
    U+00C0..U+00DE except the multiplication sign U+00D7. *)
Definition toLowerChar (c : ascii) : ascii :=
  let n := N_of_ascii c in
  if ((65 <=? n) && (n <=? 90)
      || (192 <=? n) && (n <=? 222) && negb (n =? 215))%N
  then ascii_of_N (n + 32) else c.

Fixpoint toLowerCase (s : string) : string :=
  match s with
  | EmptyString => EmptyString
  | String c s' => String (toLowerChar c) (toLowerCase s')
  end.

Fixpoint trimStart (s : string) : string :=
  match s with
  | EmptyString => EmptyString
  | String c s' => if isWhiteSpace c then trimStart s' else s
  end.

Fixpoint trimEnd (s : string) : string :=
  match s with
  | EmptyString => EmptyString
  | String c s' =>
      match trimEnd s' with
      | EmptyString => if isWhiteSpace c then EmptyString else String c EmptyString
      | t => String c t
      end
  end.

Definition trim (s : string) : string := trimEnd (trimStart s).

(** [s.startsWith(t)] *)
Fixpoint startsWith (s t : string) {struct t} : bool :=
  match t, s with
  | EmptyString, _ => true
  | String _ _, EmptyString => false
  | String b t', String a s' => Ascii.eqb a b && startsWith s' t'
  end.

(** [s.includes(t)] *)
Fixpoint includes (s t : string) : bool :=
  startsWith s t ||
  match s with
  | EmptyString => false
  | String _ s' => includes s' t
  end.

(** [s.split(/\s+/)]: the pieces between maximal runs of white space.  A
    run at either end of [s] leaves an empty piece there, and the empty
    string splits into one empty piece.  [sep] tells that the previous code
    unit belonged to a separator; [acc] is the piece read so far. *)
Fixpoint split_go (sep : bool) (acc : string) (s : string) : list string :=
  match s with
  | EmptyString => [acc]
  | String c s' =>
      if isWhiteSpace c
      then (if sep then split_go true EmptyString s'
            else acc :: split_go true EmptyString s')
      else split_go false (acc +:+ String c EmptyString) s'
  end.

Definition split_ws (s : string) : list string := split_go false EmptyString s.

(** Truthiness of a string: [Boolean(s)], [if (s)], [s && ...]. *)
Definition truthy (s : string) : bool :=
  match s with EmptyString => false | _ => true end.

(** Template-literal conversion of an integer Number: its decimal digits. *)
Definition numberToString (n : Z) : string := pretty n.

Definition MAX_SAFE_INTEGER : Z := 2 ^ 53 - 1.

End Js.

(** ** Data *)

(** An <option> element, reduced to the properties the widget reads and
    writes.  The same record serves the <option>s of the source select and
    the ones [_renderPane] creates in the pane selects. *)
Record OptionElement := {
  el_value : string;
  el_text : string;
  el_disabled : bool;
  el_selected : bool;
  el_title : string;
  el_dataset : gmap string string;
}.

(** A value of [this.options]:
    {key, index, value, label, disabled, dataset, title, original}.
    [original] is a reference to an <option> of the source select; it is
    kept as the position of that <option>. *)
Record Meta := {
  key : string;
  index : Z;
  value : string;
  label : string;
  disabled : bool;
  dataset : gmap string string;
  title : string;
  original : nat;
}.

(** "available" | "chosen" *)
Inductive PaneType := Available | Chosen.

(** The keys of [this.buttons]. *)
Inductive Action := AddAll | AddSelected | RemoveSelected | RemoveAll.

(** [this.buttons]: the [disabled] property of each of the four buttons
    (class names belong to theming and are left out). *)
Record Buttons := {
  addAll : bool;
  addSelected : bool;
  removeSelected : bool;
  removeAll : bool;
}.

(** Effects of the widget that the outside can observe or order. *)
Inductive Effect :=
  | SyncedToOriginal
  | RenderedPane (type : PaneType)
  | DispatchedChange.

(** The fields of [this] that the state engine uses. *)
Record Widget := {
  selectElement : list OptionElement;
  showFilter : bool;
  filterMatchMode : string;
  preserveSelectionOrder : bool;
  options : gmap string Meta;
  available : list string;
  chosen : list string;
  availableSelect : list OptionElement;
  chosenSelect : list OptionElement;
  availableFilter : option string;
  chosenFilter : option string;
  availableCounter : string;
  chosenCounter : string;
  buttons : Buttons;
  trace : list Effect;
}.

#[global] Instance PaneType_eq_dec : EqDecision PaneType.
Proof. solve_decision. Defined.

#[global] Instance Action_eq_dec : EqDecision Action.
Proof. solve_decision. Defined.

#[global] Instance Effect_eq_dec : EqDecision Effect.
Proof. solve_decision. Defined.

(** *** Field updates *)

Definition set_selectElement (v : list OptionElement) (w : Widget) : Widget :=
  {| selectElement := v; showFilter := showFilter w;
     filterMatchMode := filterMatchMode w;
     preserveSelectionOrder := preserveSelectionOrder w;
     options := options w; available := available w; chosen := chosen w;
     availableSelect := availableSelect w; chosenSelect := chosenSelect w;
     availableFilter := availableFilter w; chosenFilter := chosenFilter w;
     availableCounter := availableCounter w; chosenCounter := chosenCounter w;
     buttons := buttons w; trace := trace w |}.

Definition set_options (v : gmap string Meta) (w : Widget) : Widget :=
  {| selectElement := selectElement w; showFilter := showFilter w;
     filterMatchMode := filterMatchMode w;
     preserveSelectionOrder := preserveSelectionOrder w;
     options := v; available := available w; chosen := chosen w;
     availableSelect := availableSelect w; chosenSelect := chosenSelect w;
     availableFilter := availableFilter w; chosenFilter := chosenFilter w;
     availableCounter := availableCounter w; chosenCounter := chosenCounter w;
     buttons := buttons w; trace := trace w |}.

Definition set_available (v : list string) (w : Widget) : Widget :=
  {| selectElement := selectElement w; showFilter := showFilter w;
     filterMatchMode := filterMatchMode w;
     preserveSelectionOrder := preserveSelectionOrder w;
     options := options w; available := v; chosen := chosen w;
     availableSelect := availableSelect w; chosenSelect := chosenSelect w;
     availableFilter := availableFilter w; chosenFilter := chosenFilter w;
     availableCounter := availableCounter w; chosenCounter := chosenCounter w;
     buttons := buttons w; trace := trace w |}.

Definition set_chosen (v : list string) (w : Widget) : Widget :=
  {| selectElement := selectElement w; showFilter := showFilter w;
     filterMatchMode := filterMatchMode w;
     preserveSelectionOrder := preserveSelectionOrder w;
     options := options w; available := available w; chosen := v;
     availableSelect := availableSelect w; chosenSelect := chosenSelect w;
     availableFilter := availableFilter w; chosenFilter := chosenFilter w;
     availableCounter := availableCounter w; chosenCounter := chosenCounter w;
     buttons := buttons w; trace := trace w |}.

Definition set_availableSelect (v : list OptionElement) (w : Widget) : Widget :=
  {| selectElement := selectElement w; showFilter := showFilter w;
     filterMatchMode := filterMatchMode w;
     preserveSelectionOrder := preserveSelectionOrder w;
     options := options w; available := available w; chosen := chosen w;
     availableSelect := v; chosenSelect := chosenSelect w;
     availableFilter := availableFilter w; chosenFilter := chosenFilter w;
     availableCounter := availableCounter w; chosenCounter := chosenCounter w;
     buttons := buttons w; trace := trace w |}.

Definition set_chosenSelect (v : list OptionElement) (w : Widget) : Widget :=
  {| selectElement := selectElement w; showFilter := showFilter w;
     filterMatchMode := filterMatchMode w;
     preserveSelectionOrder := preserveSelectionOrder w;
     options := options w; available := available w; chosen := chosen w;
     availableSelect := availableSelect w; chosenSelect := v;
     availableFilter := availableFilter w; chosenFilter := chosenFilter w;
     availableCounter := availableCounter w; chosenCounter := chosenCounter w;
     buttons := buttons w; trace := trace w |}.

Definition set_availableFilter (v : option string) (w : Widget) : Widget :=
  {| selectElement := selectElement w; showFilter := showFilter w;
     filterMatchMode := filterMatchMode w;
     preserveSelectionOrder := preserveSelectionOrder w;
     options := options w; available := available w; chosen := chosen w;
     availableSelect := availableSelect w; chosenSelect := chosenSelect w;
     availableFilter := v; chosenFilter := chosenFilter w;
     availableCounter := availableCounter w; chosenCounter := chosenCounter w;
     buttons := buttons w; trace := trace w |}.

Definition set_chosenFilter (v : option string) (w : Widget) : Widget :=
  {| selectElement := selectElement w; showFilter := showFilter w;
     filterMatchMode := filterMatchMode w;
     preserveSelectionOrder := preserveSelectionOrder w;
     options := options w; available := available w; chosen := chosen w;
     availableSelect := availableSelect w; chosenSelect := chosenSelect w;
     availableFilter := availableFilter w; chosenFilter := v;
     availableCounter := availableCounter w; chosenCounter := chosenCounter w;
     buttons := buttons w; trace := trace w |}.

Definition set_availableCounter (v : string) (w : Widget) : Widget :=
  {| selectElement := selectElement w; showFilter := showFilter w;
     filterMatchMode := filterMatchMode w;
     preserveSelectionOrder := preserveSelectionOrder w;
     options := options w; available := available w; chosen := chosen w;
     availableSelect := availableSelect w; chosenSelect := chosenSelect w;
     availableFilter := availableFilter w; chosenFilter := chosenFilter w;
     availableCounter := v; chosenCounter := chosenCounter w;
     buttons := buttons w; trace := trace w |}.

Definition set_chosenCounter (v : string) (w : Widget) : Widget :=
  {| selectElement := selectElement w; showFilter := showFilter w;
     filterMatchMode := filterMatchMode w;
     preserveSelectionOrder := preserveSelectionOrder w;
     options := options w; available := available w; chosen := chosen w;
     availableSelect := availableSelect w; chosenSelect := chosenSelect w;
     availableFilter := availableFilter w; chosenFilter := chosenFilter w;
     availableCounter := availableCounter w; chosenCounter := v;
     buttons := buttons w; trace := trace w |}.

Definition set_buttons (v : Buttons) (w : Widget) : Widget :=
  {| selectElement := selectElement w; showFilter := showFilter w;
     filterMatchMode := filterMatchMode w;
     preserveSelectionOrder := preserveSelectionOrder w;
     options := options w; available := available w; chosen := chosen w;
     availableSelect := availableSelect w; chosenSelect := chosenSelect w;
     availableFilter := availableFilter w; chosenFilter := chosenFilter w;
     availableCounter := availableCounter w; chosenCounter := chosenCounter w;
     buttons := v; trace := trace w |}.

(** Appends one effect to the ghost trace. *)
Definition emit (e : Effect) (w : Widget) : Widget :=
  {| selectElement := selectElement w; showFilter := showFilter w;
     filterMatchMode := filterMatchMode w;
     preserveSelectionOrder := preserveSelectionOrder w;
     options := options w; available := available w; chosen := chosen w;
     availableSelect := availableSelect w; chosenSelect := chosenSelect w;
     availableFilter := availableFilter w; chosenFilter := chosenFilter w;
     availableCounter := availableCounter w; chosenCounter := chosenCounter w;
     buttons := buttons w; trace := trace w ++ [e] |}.

Definition set_el_selected (b : bool) (o : OptionElement) : OptionElement :=
  {| el_value := el_value o; el_text := el_text o; el_disabled := el_disabled o;
     el_selected := b; el_title := el_title o; el_dataset := el_dataset o |}.

(** *** Addressing by pane type

    [type === "available" ? this.available : this.chosen], and the same
    for the pane select, the filter input and the counter. *)

Definition partition (type : PaneType) (this : Widget) : list string :=
  match type with Available => available this | Chosen => chosen this end.

Definition set_partition (type : PaneType) (v : list string) (this : Widget) : Widget :=
  match type with Available => set_available v this | Chosen => set_chosen v this end.

Definition paneSelect (type : PaneType) (this : Widget) : list OptionElement :=
  match type with Available => availableSelect this | Chosen => chosenSelect this end.

Definition set_paneSelect (type : PaneType) (v : list OptionElement) (this : Widget) : Widget :=
  match type with
  | Available => set_availableSelect v this
  | Chosen => set_chosenSelect v this
  end.

Definition paneFilter (type : PaneType) (this : Widget) : option string :=
  match type with Available => availableFilter this | Chosen => chosenFilter this end.

Definition set_paneFilter (type : PaneType) (v : option string) (this : Widget) : Widget :=
  match type with
  | Available => set_availableFilter v this
  | Chosen => set_chosenFilter v this
  end.

Definition set_paneCounter (type : PaneType) (v : string) (this : Widget) : Widget :=
  match type with
  | Available => set_availableCounter v this
  | Chosen => set_chosenCounter v this
  end.

(** ** Functions common to the two listings *)

(** [keys.sort(cmp)].  ECMAScript's sort is stable and, for a comparator
    that orders its arguments consistently, returns the sorted arrangement
    in which elements that compare equal keep their order: a stable
    insertion sort.  [x] goes after [y] exactly when [cmp x y > 0]. *)
Fixpoint sort_insert {A} (cmp : A → A → Z) (x : A) (l : list A) : list A :=
  match l with
  | [] => [x]
  | y :: l' => if 0 <? cmp x y then y :: sort_insert cmp x l' else x :: l
  end.

Definition Array_sort {A} (cmp : A → A → Z) (l : list A) : list A :=
  foldr (sort_insert cmp) [] l.

(** [this.options.get(a)?.index ?? Number.MAX_SAFE_INTEGER]
    (lines 125-126 and 684-685). *)
Definition indexOrMax (this : Widget) (a : string) : Z :=
  match options this !! a with
  | Some meta => index meta
  | None => Js.MAX_SAFE_INTEGER
  end.

(** [_sortByIndex(keys)], lines 123-129 and 682-688.  The array is sorted
    in place; the caller stores the result where [keys] came from. *)
Definition _sortByIndex (this : Widget) (keys : list string) : list string :=
  Array_sort (λ a b, indexOrMax this a - indexOrMax this b) keys.

(** The callback of [options.forEach] in [_buildState]
    (lines 95-114 and 656-674), at <option> [option] in position [i]. *)
Definition buildOption (this : Widget) (option : OptionElement) (i : nat) : Widget :=
  let index := Z.of_nat i in
  let key := "fsm-" +:+ Js.numberToString index in
  let this :=
    set_options
      (<[key := {| key := key; index := index; value := el_value option;
                   label := el_text option; disabled := el_disabled option;
                   dataset := el_dataset option; title := el_title option;
                   original := i |}]> (options this)) this in
  if el_selected option
  then set_chosen (chosen this ++ [key]) this
  else set_available (available this ++ [key]) this.

(** [array.forEach((x, i) => ...)] from position [i] on, threading the
    widget through the calls. *)
Fixpoint forEach_from (f : Widget → OptionElement → nat → Widget)
    (l : list OptionElement) (i : nat) (this : Widget) : Widget :=
  match l with
  | [] => this
  | x :: l' => forEach_from f l' (S i) (f this x i)
  end.

(** [_buildState()], lines 91-121 and 653-680. *)
Definition _buildState (this : Widget) : Widget :=
  let options := selectElement this in
  let this := forEach_from buildOption options 0%nat this in
  let this := set_available (_sortByIndex this (available this)) this in
  if negb (preserveSelectionOrder this)
  then set_chosen (_sortByIndex this (chosen this)) this
  else this.

(** [_passesFilter(label, term)], lines 339-351 and 908-915. *)
Definition _passesFilter (this : Widget) (label term : string) : bool :=
  if negb (Js.truthy term) then true
  else
    let haystack := Js.toLowerCase label in
    if String.eqb (filterMatchMode this) "startsWith"
    then Js.startsWith haystack term
    else
      let tokens := List.filter Js.truthy (Js.split_ws term) in
      forallb (λ token, Js.includes haystack token) tokens.

(** [filter ? filter.value.trim().toLowerCase() : ""], lines 298 and 866. *)
Definition filterTerm (filter : option string) : string :=
  match filter with
  | Some v => Js.toLowerCase (Js.trim v)
  | None => ""
  end.

(** [opt.dataset.key] *)
Definition dataset_key (opt : OptionElement) : option string :=
  el_dataset opt !! "key".

(** [_getSelectedKeys(select)], lines 353-355 and 921-923.  Every <option>
    of a pane select is created by [_renderPane], which sets
    [dataset.key]; the lookup does not miss on them. *)
Definition _getSelectedKeys (select : list OptionElement) : list string :=
  omap dataset_key (filter (λ opt, el_selected opt) select).

(** The callback of [keys.forEach] in [_renderPane] (lines 308-336 and
    876-893): the <option> appended for [key], if any.  [dataset.key] is
    assigned first and the entries of [meta.dataset] are assigned after
    it, so an entry named [key] among them is the one that stays. *)
Definition renderOption (this : Widget) (term : string)
    (previousSelection : list string) (key : string) : option OptionElement :=
  match options this !! key with
  | None => None
  | Some meta =>
      if Js.truthy term && negb (_passesFilter this (label meta) term)
      then None
      else Some {| el_value := value meta; el_text := label meta;
                   el_disabled := disabled meta;
                   el_selected := bool_decide (key ∈ previousSelection);
                   el_title := title meta;
                   el_dataset := dataset meta ∪ {[ "key" := key ]} |}
  end.

(** [_syncToOriginal()], lines 397-402 and 967-972.  Each [meta.original]
    is a different <option>, so the order of the traversal does not show
    in the result. *)
Definition _syncToOriginal (this : Widget) : Widget :=
  let chosenSet := chosen this in
  let synced :=
    map_fold (λ _ meta els,
                alter (set_el_selected (bool_decide (key meta ∈ chosenSet)))
                      (original meta) els)
             (selectElement this) (options this) in
  emit SyncedToOriginal (set_selectElement synced this).

(** [_dispatchChange()], lines 404-407 and 974-977. *)
Definition _dispatchChange (this : Widget) : Widget :=
  emit DispatchedChange this.

(** [_setButtonState(action, disabled)], lines 421-438 and 995-1009:
    [button.disabled = disabled]. *)
Definition _setButtonState (action : Action) (disabled : bool) (this : Widget) : Widget :=
  let b := buttons this in
  set_buttons
    match action with
    | AddAll => {| addAll := disabled; addSelected := addSelected b;
                   removeSelected := removeSelected b; removeAll := removeAll b |}
    | AddSelected => {| addAll := addAll b; addSelected := disabled;
                        removeSelected := removeSelected b; removeAll := removeAll b |}
    | RemoveSelected => {| addAll := addAll b; addSelected := addSelected b;
                           removeSelected := disabled; removeAll := removeAll b |}
    | RemoveAll => {| addAll := addAll b; addSelected := addSelected b;
                      removeSelected := removeSelected b; removeAll := disabled |}
    end this.

(** The constructor's assignments before [this._init()] (lines 17-67 and
    571-632), with the option defaults already applied by the caller.  The
    argument is the list of <option>s of a <select multiple>, so the
    constructor's check of its argument has passed. *)
Definition construct (select : list OptionElement)
    (showFilter : bool) (filterMatchMode : string) (preserveSelectionOrder : bool)
    : Widget :=
  {| selectElement := select; showFilter := showFilter;
     filterMatchMode := filterMatchMode;
     preserveSelectionOrder := preserveSelectionOrder;
     options := ∅; available := []; chosen := [];
     availableSelect := []; chosenSelect := [];
     availableFilter := None; chosenFilter := None;
     availableCounter := ""; chosenCounter := "";
     buttons := {| addAll := false; addSelected := false;
                   removeSelected := false; removeAll := false |};
     trace := [] |}.

(** [_buildUI()], lines 131-160 and 694-720: both panes get a filter input
    (with an empty value) when [showFilter] is set, and none otherwise. *)
Definition _buildUI (this : Widget) : Widget :=
  let filter := if showFilter this then Some "" else None in
  set_chosenFilter filter (set_availableFilter filter this).

(** What the user does to the widget. *)
Inductive Event :=
  | FilterInput (type : PaneType) (text : string)
  | FilterTimeout (type : PaneType)
  | SelectionChange (type : PaneType) (selected : list nat)
  | DblClick (type : PaneType)
  | KeyEnter (type : PaneType)
  | Click (action : Action).

(** The user leaves the <option>s at the positions [selected] of a pane
    select selected, and no other. *)
Definition userSelects (type : PaneType) (selected : list nat) (this : Widget) : Widget :=
  set_paneSelect type
    (imap (λ i opt, set_el_selected (bool_decide (i ∈ selected)) opt)
          (paneSelect type this)) this.

(** The user types into a filter input, if the pane has one. *)
Definition userTypes (type : PaneType) (text : string) (this : Widget) : Widget :=
  match paneFilter type this with
  | Some _ => set_paneFilter type (Some text) this
  | None => this
  end.

(** ** The earlier listing, lines 10-448 *)

Module Basic.

(** [_updateButtons()], lines 409-419. *)
Definition _updateButtons (this : Widget) : Widget :=
  let hasAvailableSelection :=
    (0 <? length (filter (λ opt, el_selected opt) (availableSelect this)))%nat in
  let hasChosenSelection :=
    (0 <? length (filter (λ opt, el_selected opt) (chosenSelect this)))%nat in
  let hasAvailableItems := (0 <? length (available this))%nat in
  let hasChosenItems := (0 <? length (chosen this))%nat in
  let this := _setButtonState AddSelected (negb hasAvailableSelection) this in
  let this := _setButtonState RemoveSelected (negb hasChosenSelection) this in
  let this := _setButtonState AddAll (negb hasAvailableItems) this in
  _setButtonState RemoveAll (negb hasChosenItems) this.

(** [_renderPane(type)], lines 292-337. *)
Definition _renderPane (type : PaneType) (this : Widget) : Widget :=
  let select := paneSelect type this in
  let filter := paneFilter type this in
  let keys := partition type this in
  let term := filterTerm filter in
  let previousSelection := omap dataset_key (base.filter (λ opt, el_selected opt) select) in
  let rendered := omap (renderOption this term previousSelection) keys in
  emit (RenderedPane type) (set_paneSelect type rendered this).

(** [_render()], lines 286-290. *)
Definition _render (this : Widget) : Widget :=
  let this := _renderPane Available this in
  let this := _renderPane Chosen this in
  _updateButtons this.

(** [_transfer(keys, fromType, toType)], lines 372-395. *)
Definition _transfer (keys : list string) (fromType toType : PaneType)
    (this : Widget) : Widget :=
  let keySet := keys in
  let remaining := filter (λ key, key ∉ keySet) (partition fromType this) in
  let this := set_partition fromType remaining this in
  let this := set_partition toType (partition toType this ++ keys) this in
  let this := set_partition fromType (_sortByIndex this (partition fromType this)) this in
  let this :=
    if negb (preserveSelectionOrder this) || bool_decide (toType = Available)
    then set_partition toType (_sortByIndex this (partition toType this)) this
    else this in
  let this := _render this in
  let this := _syncToOriginal this in
  _dispatchChange this.

(** [_moveSelected(fromType, toType)], lines 357-363. *)
Definition _moveSelected (fromType toType : PaneType) (this : Widget) : Widget :=
  let fromSelect := paneSelect fromType this in
  let keys := _getSelectedKeys fromSelect in
  if (0 <? length keys)%nat then _transfer keys fromType toType this else this.

(** [_moveAll(fromType, toType)], lines 365-370. *)
Definition _moveAll (fromType toType : PaneType) (this : Widget) : Widget :=
  let keys := partition fromType this in
  if (0 <? length keys)%nat then _transfer keys fromType toType this else this.

(** [_init()], lines 72-89. *)
Definition _init (this : Widget) : Widget :=
  let this := _buildState this in
  let this := _buildUI this in
  _render this.

(** [new FilteredSelectMultiple(selectElement, options)] *)
Definition new (select : list OptionElement)
    (showFilter : bool) (filterMatchMode : string) (preserveSelectionOrder : bool)
    : Widget :=
  _init (construct select showFilter filterMatchMode preserveSelectionOrder).

(** The listeners of [_attachEvents()], lines 240-284.  The filter inputs
    render at once; there is no timer and no keydown listener.  The pane
    selects are never disabled, so the guard of the dblclick listeners
    passes. *)
Definition handle (e : Event) (this : Widget) : Widget :=
  match e with
  | FilterInput type text =>
      match paneFilter type this with
      | Some _ => _renderPane type (userTypes type text this)
      | None => this
      end
  | FilterTimeout _ => this
  | SelectionChange type selected => _updateButtons (userSelects type selected this)
  | DblClick Available => _moveSelected Available Chosen this
  | DblClick Chosen => _moveSelected Chosen Available this
  | KeyEnter _ => this
  | Click AddAll => _moveAll Available Chosen this
  | Click AddSelected => _moveSelected Available Chosen this
  | Click RemoveSelected => _moveSelected Chosen Available this
  | Click RemoveAll => _moveAll Chosen Available this
  end.

End Basic.

(** ** The later listing, lines 562-1024 *)

Module Full.

(** [!this.options.get(k)?.disabled], lines 986-987: true also for a key
    that has no entry in [this.options]. *)
Definition notDisabled (this : Widget) (k : string) : bool :=
  match options this !! k with
  | Some meta => negb (disabled meta)
  | None => true
  end.

(** [_updateButtons()], lines 983-993. *)
Definition _updateButtons (this : Widget) : Widget :=
  let hasAvailableSelection :=
    (0 <? length (filter (λ opt, el_selected opt) (availableSelect this)))%nat in
  let hasChosenSelection :=
    (0 <? length (filter (λ opt, el_selected opt) (chosenSelect this)))%nat in
  let hasAvailableItems := existsb (notDisabled this) (available this) in
  let hasChosenItems := existsb (notDisabled this) (chosen this) in
  let this := _setButtonState AddSelected (negb hasAvailableSelection) this in
  let this := _setButtonState RemoveSelected (negb hasChosenSelection) this in
  let this := _setButtonState AddAll (negb hasAvailableItems) this in
  _setButtonState RemoveAll (negb hasChosenItems) this.

(** The text of a counter, lines 898-903. *)
Definition counterText (term : string) (visibleCount total : nat) : string :=
  if Js.truthy term
  then "(" +:+ Js.numberToString (Z.of_nat visibleCount) +:+ " / "
           +:+ Js.numberToString (Z.of_nat total) +:+ ")"
  else "(" +:+ Js.numberToString (Z.of_nat total) +:+ ")".

(** [_renderPane(type)], lines 861-906. *)
Definition _renderPane (type : PaneType) (this : Widget) : Widget :=
  let select := paneSelect type this in
  let filter := paneFilter type this in
  let keys := partition type this in
  let term := filterTerm filter in
  let previousSelection := omap dataset_key (base.filter (λ opt, el_selected opt) select) in
  let fragment := omap (renderOption this term previousSelection) keys in
  let visibleCount := length fragment in
  let this := emit (RenderedPane type) (set_paneSelect type fragment this) in
  let this := set_paneCounter type (counterText term visibleCount (length keys)) this in
  _updateButtons this.

(** [_render()], lines 855-859. *)
Definition _render (this : Widget) : Widget :=
  let this := _renderPane Available this in
  let this := _renderPane Chosen this in
  _updateButtons this.

(** [_transfer(keys, fromType, toType)], lines 943-965. *)
Definition _transfer (keys : list string) (fromType toType : PaneType)
    (this : Widget) : Widget :=
  let keySet := keys in
  let remaining := filter (λ key, key ∉ keySet) (partition fromType this) in
  let this := set_partition fromType remaining this in
  let this := set_partition toType (partition toType this ++ keys) this in
  let this := set_partition fromType (_sortByIndex this (partition fromType this)) this in
  let this :=
    if negb (preserveSelectionOrder this) || bool_decide (toType = Available)
    then set_partition toType (_sortByIndex this (partition toType this)) this
    else this in
  let this := _syncToOriginal this in
  let this := _render this in
  _dispatchChange this.

(** [meta && !meta.disabled], lines 928-929 and 937-938. *)
Definition movable (this : Widget) (key : string) : bool :=
  match options this !! key with
  | Some meta => negb (disabled meta)
  | None => false
  end.

(** [_moveSelected(fromType, toType)], lines 925-932. *)
Definition _moveSelected (fromType toType : PaneType) (this : Widget) : Widget :=
  let fromSelect := paneSelect fromType this in
  let keys := filter (λ key, movable this key) (_getSelectedKeys fromSelect) in
  if (0 <? length keys)%nat then _transfer keys fromType toType this else this.

(** [_moveAll(fromType, toType)], lines 934-941. *)
Definition _moveAll (fromType toType : PaneType) (this : Widget) : Widget :=
  let source := partition fromType this in
  let keys := filter (λ key, movable this key) source in
  if (0 <? length keys)%nat then _transfer keys fromType toType this else this.

(** [_init()], lines 641-651. *)
Definition _init (this : Widget) : Widget :=
  let this := _buildState this in
  let this := _buildUI this in
  _render this.

(** [new FilteredSelectMultiple(selectElement, options)] *)
Definition new (select : list OptionElement)
    (showFilter : bool) (filterMatchMode : string) (preserveSelectionOrder : bool)
    : Widget :=
  _init (construct select showFilter filterMatchMode preserveSelectionOrder).

(** The listeners of [_attachEvents()], lines 806-844.  An input event on
    a filter only (re)starts that pane's timer ([_debouncedRender], lines
    846-849); the render happens when the timer fires.  The pane selects
    are never disabled, so the guard of the dblclick listeners passes. *)
Definition handle (e : Event) (this : Widget) : Widget :=
  match e with
  | FilterInput type text => userTypes type text this
  | FilterTimeout type => _renderPane type this
  | SelectionChange type selected => _updateButtons (userSelects type selected this)
  | DblClick Available | KeyEnter Available => _moveSelected Available Chosen this
  | DblClick Chosen | KeyEnter Chosen => _moveSelected Chosen Available this
  | Click AddAll => _moveAll Available Chosen this
  | Click AddSelected => _moveSelected Available Chosen this
  | Click RemoveSelected => _moveSelected Chosen Available this
  | Click RemoveAll => _moveAll Chosen Available this
  end.

End Full.

(** The states a widget goes through: the one the constructor leaves, and
    the ones its listeners produce from there.  A timer may fire at any
    moment in this relation, which covers every schedule of the debounce. *)
Inductive reachable (handle : Event → Widget → Widget) (init : Widget) : Widget → Prop :=
  | reachable_init : reachable handle init init
  | reachable_step e this :
      reachable handle init this → reachable handle init (handle e this).

(** ** Vocabulary of the statements *)

(** [keys] is in ascending order of the index [_sortByIndex] compares by. *)
Definition indexSorted (this : Widget) (keys : list string) : Prop :=
  StronglySorted (λ a b, indexOrMax this a ≤ indexOrMax this b) keys.

(** The part of a widget that rendering, synchronising and notifying do not
    touch: registry, partitions, configuration and the filters' values. *)
Definition model (this : Widget) :=
  (options this, available this, chosen this, preserveSelectionOrder this,
   filterMatchMode this, availableFilter this, chosenFilter this).

(** The key [_buildState] gives to the <option> in position [i]. *)
Definition keyOf (i : nat) : string := "fsm-" +:+ Js.numberToString (Z.of_nat i).

(** The entry [_buildState] makes for <option> [option] in position [i]. *)
Definition metaOf (option : OptionElement) (i : nat) : Meta :=
  {| key := keyOf i; index := Z.of_nat i; value := el_value option;
     label := el_text option; disabled := el_disabled option;
     dataset := el_dataset option; title := el_title option; original := i |}.

(** The keys of the <option>s of [l] (counted from [i]) whose [selected]
    is [b], in document order. *)
Fixpoint builtKeys (b : bool) (l : list OptionElement) (i : nat) : list string :=
  match l with
  | [] => []
  | option :: l' =>
      (if Bool.eqb (el_selected option) b then [keyOf i] else [])
      ++ builtKeys b l' (S i)
  end.

Fixpoint builtOptions (l : list OptionElement) (i : nat) (m : gmap string Meta)
    : gmap string Meta :=
  match l with
  | [] => m
  | option :: l' => builtOptions l' (S i) (<[keyOf i := metaOf option i]> m)
  end.

(** [key] is the [dataset.key] of an <option> that is selected in the pane
    select of [type]. *)
Definition visiblySelected (type : PaneType) (this : Widget) (key : string) : Prop :=
  ∃ opt, opt ∈ paneSelect type this ∧ el_selected opt = true
         ∧ dataset_key opt = Some key.

(** [key] is registered and its item is not disabled. *)
Definition enabledItem (this : Widget) (key : string) : Prop :=
  ∃ meta, options this !! key = Some meta ∧ disabled meta = false.

(** The effects of one transfer in the later listing. *)
Definition transferEffects : list Effect :=
  [SyncedToOriginal; RenderedPane Available; RenderedPane Chosen; DispatchedChange].

(** The keys of the registry, each once. *)
Definition registryKeys (this : Widget) : list string :=
  elements (dom (options this)).

(** The two partitions together hold every key of the registry exactly
    once. *)
Definition partitionComplete (this : Widget) : Prop :=
  available this ++ chosen this ≡ₚ registryKeys this.

(** No registered item carries a data attribute named [key]. *)
Definition noDataKey (this : Widget) : Prop :=
  ∀ k meta, options this !! k = Some meta → dataset meta !! "key" = None.

(** The <option>s of each pane select carry keys of the pane's partition,
    in the partition's order. *)
Definition panesFromPartitions (this : Widget) : Prop :=
  ∀ type, omap dataset_key (paneSelect type this) `sublist_of` partition type this.

(** [solid s]: no code unit of [s] is white space; [blank s]: all are. *)
Fixpoint solid (s : string) : bool :=
  match s with
  | EmptyString => true
  | String c s' => negb (Js.isWhiteSpace c) && solid s'
  end.

Fixpoint blank (s : string) : bool :=
  match s with
  | EmptyString => true
  | String c s' => Js.isWhiteSpace c && blank s'
  end.

(** A string laid out as pieces followed by separators, and a last piece. *)
Fixpoint glue (segs : list (string * string)) (last : string) : string :=
  match segs with
  | [] => last
  | (piece, sep) :: segs' => piece +:+ sep +:+ glue segs' last
  end.

Definition laid_out (segs : list (string * string)) (last : string) : Prop :=
  Forall (λ ps, solid ps.1 = true ∧ blank ps.2 = true ∧ ps.2 ≠ "") segs
  ∧ solid last = true.

(** [tight s]: [s] neither begins nor ends with white space; what is
    left of a string once it is trimmed. *)
Definition beginsBlank (s : string) : bool :=
  match s with
  | EmptyString => false
  | String c _ => Js.isWhiteSpace c
  end.

Fixpoint endsBlank (s : string) : bool :=
  match s with
  | EmptyString => false
  | String c s' =>
      match s' with
      | EmptyString => Js.isWhiteSpace c
      | String _ _ => endsBlank s'
      end
  end.

Definition tight (s : string) : bool :=
  negb (beginsBlank s) && negb (endsBlank s).

(** The invariant of the widget's states. *)
Definition widgetInv (this : Widget) : Prop :=
  partitionComplete this ∧ panesFromPartitions this ∧ noDataKey this.

(** ** Sample inputs *)

(** <option value=text [disabled] [selected]>text</option> *)
Definition sourceOption (text : string) (disabled selected : bool) : OptionElement :=
  {| el_value := text; el_text := text; el_disabled := disabled;
     el_selected := selected; el_title := ""; el_dataset := ∅ |}.

(** Five options, the one at index 2 selected, the one at index 1 disabled. *)
Definition fruits : list OptionElement :=
  [ sourceOption "Apple" false false; sourceOption "Banana" true false;
    sourceOption "Cherry" false true; sourceOption "Date" false false;
    sourceOption "Elderberry" false false ].

(** Five options, the one at index 2 selected, none disabled. *)
Definition letters : list OptionElement :=
  [ sourceOption "a" false false; sourceOption "b" false false;
    sourceOption "c" false true; sourceOption "d" false false;
    sourceOption "e" false false ].

(** One option, disabled and not selected. *)
Definition lonely : list OptionElement := [ sourceOption "Banana" true false ].

(** Two options; the first carries data-key="fsm-1", the second is
    selected. *)
Definition tagged : list OptionElement :=
  [ {| el_value := "a"; el_text := "Alpha"; el_disabled := false;
       el_selected := false; el_title := "";
       el_dataset := {[ "key" := "fsm-1" ]} |};
    sourceOption "Beta" false true ].

(** Two options; the first carries data-key="row-7". *)
Definition labelled : list OptionElement :=
  [ {| el_value := "a"; el_text := "Alpha"; el_disabled := false;
       el_selected := false; el_title := "";
       el_dataset := {[ "key" := "row-7" ]} |};
    sourceOption "Beta" false false ].

(** ** Vocabulary for the further properties *)

(** The statements of [_transfer] that update the two partitions (lines
    373-389 and 944-959), before synchronising, rendering and notifying. *)
Definition moved (keys : list string) (fromType toType : PaneType)
    (this : Widget) : Widget :=
  let keySet := keys in
  let remaining := filter (λ key, key ∉ keySet) (partition fromType this) in
  let this := set_partition fromType remaining this in
  let this := set_partition toType (partition toType this ++ keys) this in
  let this := set_partition fromType (_sortByIndex this (partition fromType this)) this in
  if negb (preserveSelectionOrder this) || bool_decide (toType = Available)
  then set_partition toType (_sortByIndex this (partition toType this)) this
  else this.

(** Every key of the two partitions is registered. *)
Definition partitionsRegistered (this : Widget) : Prop :=
  ∀ key, key ∈ available this ++ chosen this → is_Some (options this !! key).

(** The source select mirrors "chosen": its <option>s are the ones the
    widget was built from, each selected exactly when its key is in
    "chosen". *)
Definition sourceMirrorsChosen (select : list OptionElement) (this : Widget) : Prop :=
  ∀ i, selectElement this !! i
       = set_el_selected (bool_decide (keyOf i ∈ chosen this)) <$> select !! i.

(** What every state of a widget built from [select] satisfies. *)
Definition engineInv (select : list OptionElement) (pso : bool) (this : Widget) : Prop :=
  options this = builtOptions select 0 ∅
  ∧ preserveSelectionOrder this = pso
  ∧ indexSorted this (available this)
  ∧ (pso = false → indexSorted this (chosen this))
  ∧ sourceMirrorsChosen select this.

(** What [engineInv] reads of a widget. *)
Definition engineView (this : Widget) :=
  (options this, available this, chosen this, preserveSelectionOrder this,
   selectElement this).

(** The [disabled] flags [_updateButtons] of the later listing computes
    (lines 984-992). *)
Definition freshButtons (this : Widget) : Buttons :=
  {| addAll := negb (existsb (Full.notDisabled this) (available this));
     addSelected :=
       negb (0 <? length (filter (λ opt, el_selected opt) (availableSelect this)))%nat;
     removeSelected :=
       negb (0 <? length (filter (λ opt, el_selected opt) (chosenSelect this)))%nat;
     removeAll := negb (existsb (Full.notDisabled this) (chosen this)) |}.

(** [key] is registered and its label passes [term]: [_renderPane] makes
    an <option> for it. *)
Definition shows (this : Widget) (term : string) (key : string) : bool :=
  match options this !! key with
  | Some meta => _passesFilter this (label meta) term
  | None => false
  end.

(** [type === "available" ? this.availableCounter : this.chosenCounter] *)
Definition paneCounter (type : PaneType) (this : Widget) : string :=
  match type with
  | Available => availableCounter this
  | Chosen => chosenCounter this
  end.

(** [options.size ?? (selectElement.size || Math.min(Math.max(optionCount, 4), 12))],
    lines 24 and 584: [optionsSize] is [options.size] when given,
    [selectSize] the select's [size] (0 when the attribute is absent). *)
Definition initialSize (optionsSize : option Z) (selectSize : Z) (optionCount : Z) : Z :=
  match optionsSize with
  | Some size => size
  | None => if selectSize =? 0 then Z.min (Z.max optionCount 4) 12 else selectSize
  end.

(** *** Class names of the buttons *)

(** [array.join(sep)] on an array of strings. *)
Fixpoint Array_join (sep : string) (array : list string) : string :=
  match array with
  | [] => ""
  | x :: rest =>
      match rest with
      | [] => x
      | _ :: _ => x +:+ sep +:+ Array_join sep rest
      end
  end.

(** [[...new Set(array)]]: every value once, at the place of its first
    occurrence. *)
Definition Set_add (set : list string) (x : string) : list string :=
  if decide (x ∈ set) then set else set ++ [x].

Definition Set_of (array : list string) : list string :=
  fold_left Set_add array [].

(** [s.split(/\s+/).filter(Boolean)]. *)
Definition classes (s : string) : list string :=
  List.filter Js.truthy (Js.split_ws s).

(** The theme key of an action's classes: [`button_${action}`] in the
    earlier listing (line 429), [`button${action.charAt(0).toUpperCase()}${action.slice(1)}`]
    in the later one (line 1002), on the four keys of [this.buttons]. *)
Definition actionName (action : Action) : string :=
  match action with
  | AddAll => "addAll"
  | AddSelected => "addSelected"
  | RemoveSelected => "removeSelected"
  | RemoveAll => "removeAll"
  end.

Definition actionKey_underscore (action : Action) : string :=
  "button_" +:+ actionName action.

Definition actionKey (action : Action) : string :=
  match action with
  | AddAll => "buttonAddAll"
  | AddSelected => "buttonAddSelected"
  | RemoveSelected => "buttonRemoveSelected"
  | RemoveAll => "buttonRemoveAll"
  end.

(** The [className] that [_setButtonState] gives the button, lines 427-437
    and 1001-1008; the theme is an object with string values.  [None]: the
    theme has no [button] entry and [this.theme.button.split] throws. *)
Definition buttonClassName (theme : gmap string string) (key : string)
    (disabled : bool) : option string :=
  match theme !! "button" with
  | None => None
  | Some button =>
      let baseClasses := classes button in
      let actionClasses := classes (default "" (theme !! key)) in
      let disabledClasses := classes (default "" (theme !! "buttonDisabled")) in
      let finalClasses := baseClasses ++ actionClasses in
      let finalClasses :=
        if disabled then finalClasses ++ disabledClasses else finalClasses in
      Some (Array_join " " (Set_of finalClasses))
  end.

(** The buttons' part of [bootstrap5Theme], [src/themes.js] lines 36-48,
    with a disabled class that repeats a base class. *)
Definition sampleTheme : gmap string string :=
  list_to_map [("button", "btn btn-sm  d-inline-flex");
               ("buttonAddAll", "btn-outline-primary btn");
               ("buttonDisabled", "btn-secondary btn-sm")].

(** ** The widget in the document *)

(** What [_init], [_buildUI] and [destroy] do to the document around the
    source select: the children of the node that holds the select, the
    select's [style.display] and its [data-filtered-select-multiple]
    attribute.  Event listeners are left out. *)
Module Dom.

(** The nodes that matter: the source select, the comments and containers
    that widgets create, and whatever else the page holds. *)
Inductive Node :=
  | Select
  | Comment (id : nat)
  | Container (id : nat)
  | Other (id : nat).

#[global] Instance Node_eq_dec : EqDecision Node.
Proof. solve_decision. Defined.

(** [children]: the child nodes of the one parent of the model, in order; a
    node that is not among them has a null [parentNode].  [created]: the
    number of nodes the document has created for widgets. *)
Record Page := {
  children : list Node;
  display : string;
  marked : bool;
  created : nat;
}.

(** What a widget remembers of its place in the document. *)
Record Mounted := {
  previousDisplay : string;
  placeholder : Node;
  container : Node;
}.

(** [node.remove()]. *)
Definition remove (node : Node) (nodes : list Node) : list Node :=
  base.filter (λ n, n ≠ node) nodes.

Fixpoint insert_at (node reference : Node) (nodes : list Node) : list Node :=
  match nodes with
  | [] => []
  | n :: rest =>
      if decide (n = reference) then node :: n :: rest
      else n :: insert_at node reference rest
  end.

(** [parent.insertBefore(node, reference)] for a [reference] other than
    [node]: the node leaves the place it had, if any. *)
Definition insertBefore (node reference : Node) (nodes : list Node) : list Node :=
  insert_at node reference (remove node nodes).

(** The document's part of [_init()], lines 76-88 and 643-650, with the
    last statement of [_buildUI()], lines 159 and 719.  The second
    component is [None] when [this.selectElement.parentNode] is null and
    the insertion of the placeholder throws. *)
Definition _init (page : Page) : Page * option Mounted :=
  let previous := display page in
  let placeholder := Comment (created page) in
  let page := {| children := children page; display := "none"; marked := true;
                 created := S (created page) |} in
  if decide (Select ∈ children page) then
    let page := {| children := insertBefore placeholder Select (children page);
                   display := display page; marked := marked page;
                   created := created page |} in
    let container := Container (created page) in
    let page := {| children := insertBefore container placeholder (children page);
                   display := display page; marked := marked page;
                   created := S (created page) |} in
    (page, Some {| previousDisplay := previous; placeholder := placeholder;
                   container := container |})
  else (page, None).

(** [destroy()], lines 441-447 and 1016-1023.  The second component is
    [false] when [this.placeholder.parentNode] is null and the call
    throws. *)
Definition destroy (this : Mounted) (page : Page) : Page * bool :=
  let page := {| children := remove (container this) (children page);
                 display := previousDisplay this; marked := false;
                 created := created page |} in
  if decide (placeholder this ∈ children page) then
    let page := {| children := insertBefore Select (placeholder this) (children page);
                   display := display page; marked := marked page;
                   created := created page |} in
    ({| children := remove (placeholder this) (children page);
        display := display page; marked := marked page;
        created := created page |}, true)
  else (page, false).

(** A page as a document has it: no node twice among the children, and no
    node of a widget that is yet to be created. *)
Definition wellFormed (page : Page) : Prop :=
  NoDup (children page)
  ∧ ∀ id, (created page ≤ id)%nat →
          (Comment id ∉ children page) ∧ (Container id ∉ children page).

Definition samplePage : Page :=
  {| children := [Other 0; Select; Other 1]; display := "inline-block";
     marked := false; created := 0 |}.

End Dom.

(** ** The default style sheet *)

(** [defaultCssInjected], line 544, and the documents whose head has
    received a default <style> element, one entry for each element. *)
Record Styles := {
  defaultCssInjected : bool;
  styled : list nat;
}.

(** The state when the module has been loaded. *)
Definition noStyles : Styles := {| defaultCssInjected := false; styled := [] |}.

(** [injectDefaultCSS(doc)], lines 546-553, for a document that has a head. *)
Definition injectDefaultCSS (doc : nat) (s : Styles) : Styles :=
  if defaultCssInjected s then s
  else {| defaultCssInjected := true; styled := styled s ++ [doc] |}.

(** ** The timers of the filters *)

(** [_filterTimers], lines 628 and 846-849, with the timeouts of the page
    that the widget has set and that are neither cleared nor run. *)
Module Debounce.

Record State := {
  _filterTimers : PaneType → nat;
  active : list (nat * PaneType);
  next : nat;
}.

(** [this._filterTimers = { available: 0, chosen: 0 }]; the ids that
    [setTimeout] hands out are positive. *)
Definition initial : State :=
  {| _filterTimers := λ _, 0%nat; active := []; next := 1%nat |}.

(** [clearTimeout(id)]. *)
Definition clearTimeout (id : nat) (st : State) : State :=
  {| _filterTimers := _filterTimers st;
     active := base.filter (λ p, p.1 ≠ id) (active st);
     next := next st |}.

(** [setTimeout(() => this._renderPane(type), 120)]: the id and the state. *)
Definition setTimeout (type : PaneType) (st : State) : nat * State :=
  (next st, {| _filterTimers := _filterTimers st;
               active := active st ++ [(next st, type)];
               next := S (next st) |}).

(** [_debouncedRender(type)], lines 846-849. *)
Definition _debouncedRender (type : PaneType) (st : State) : State :=
  let st := clearTimeout (_filterTimers st type) st in
  let '(id, st) := setTimeout type st in
  {| _filterTimers := λ t, if decide (t = type) then id else _filterTimers st t;
     active := active st; next := next st |}.

(** The pane that the callback of timeout [id] renders, if [id] is active. *)
Fixpoint callback (id : nat) (timeouts : list (nat * PaneType)) : option PaneType :=
  match timeouts with
  | [] => None
  | (i, type) :: rest => if decide (i = id) then Some type else callback id rest
  end.

(** What happens around the timers: an input event on a pane's filter, a
    timeout that comes due, and a timeout set elsewhere on the page. *)
Inductive Step :=
  | Input (type : PaneType)
  | Due (id : nat)
  | Elsewhere.

#[global] Instance Step_eq_dec : EqDecision Step.
Proof. solve_decision. Defined.

(** One step, with the panes it renders. *)
Definition step (s : Step) (st : State) : State * list PaneType :=
  match s with
  | Input type => (_debouncedRender type st, [])
  | Due id =>
      match callback id (active st) with
      | Some type => (clearTimeout id st, [type])
      | None => (st, [])
      end
  | Elsewhere =>
      ({| _filterTimers := _filterTimers st; active := active st;
          next := S (next st) |}, [])
  end.

Fixpoint run (steps : list Step) (st : State) : State * list PaneType :=
  match steps with
  | [] => (st, [])
  | s :: rest =>
      let '(st, rendered) := step s st in
      let '(st, more) := run rest st in
      (st, rendered ++ more)
  end.

(** The ids of the active timeouts that render pane [type]. *)
Definition waiting (type : PaneType) (st : State) : list nat :=
  (base.filter (λ p, p.2 = type) (active st)).*1.

(** How often [x] occurs in [l]. *)
Definition occurrences {A} `{EqDecision A} (x : A) (l : list A) : nat :=
  length (base.filter (λ y, y = x) l).

(** What the widget keeps true of its timers: an active timeout is the
    one its pane's slot names, no id is active twice, the slots hold ids
    that have been handed out, and the two slots differ unless both are
    still 0. *)
Definition tidy (st : State) : Prop :=
  (∀ id type, (id, type) ∈ active st →
              id = _filterTimers st type ∧ (0 < id)%nat)
  ∧ NoDup (active st).*1
  ∧ (∀ type, (_filterTimers st type < next st)%nat)
  ∧ (∀ t1 t2, _filterTimers st t1 = _filterTimers st t2 →
              t1 = t2 ∨ _filterTimers st t1 = 0%nat).

End Debounce.

(** * Properties *)

(** ** Strings *)

Lemma startsWith_spec (s t : string) :
  Js.startsWith s t = true ↔ ∃ rest, s = t +:+ rest.
Proof.
  revert s. induction t as [|b t IH]; intros s; simpl.
  - split; [intros _; by exists s | done].
  - destruct s as [|a s].
    + split; [done | intros [r Hr]; discriminate].
    + rewrite andb_true_iff, IH. split.
      * intros [Hab [r ->]]. apply Ascii.eqb_eq in Hab as ->. eauto.
      * intros [r Hr]. injection Hr as -> ->. split; [apply Ascii.eqb_refl | eauto].
Qed.

Lemma includes_spec (s t : string) :
  Js.includes s t = true ↔ ∃ pre post, s = pre +:+ t +:+ post.
Proof.
  induction s as [|a s IH]; simpl; rewrite orb_true_iff.
  - rewrite startsWith_spec. split.
    + intros [[r Hr] | ?]; [|done]. exists "", r. done.
    + intros [pre [post H]]. left.
      destruct pre; [eauto | discriminate].
  - rewrite startsWith_spec, IH. split.
    + intros [[r Hr] | [pre [post ->]]].
      * exists "", r. done.
      * exists (String a pre), post. done.
    + intros [pre [post H]]. destruct pre as [|c pre]; simpl in H.
      * left. eauto.
      * right. injection H as -> ->. eauto.
Qed.

Lemma app_assoc_str (a b c : string) : (a +:+ b) +:+ c = a +:+ (b +:+ c).
Proof. induction a; simpl; congruence. Qed.

Lemma app_empty_r (a : string) : a +:+ "" = a.
Proof. induction a; simpl; congruence. Qed.

Lemma split_go_solid (p : string) : ∀ sep acc s,
  solid p = true →
  Js.split_go sep acc (p +:+ s)
  = Js.split_go (sep && negb (Js.truthy p)) (acc +:+ p) s.
Proof.
  induction p as [|c p IH]; intros sep acc s Hp; simpl in *.
  - by rewrite andb_true_r, app_empty_r.
  - apply andb_true_iff in Hp as [Hc Hp]. apply negb_true_iff in Hc.
    rewrite Hc, IH by done. rewrite andb_false_r. simpl.
    rewrite app_assoc_str. simpl. by destruct (Js.truthy p).
Qed.

Lemma split_go_blank (b : string) : ∀ s,
  blank b = true → Js.split_go true "" (b +:+ s) = Js.split_go true "" s.
Proof.
  induction b as [|c b IH]; intros s Hb; simpl in *; [done|].
  apply andb_true_iff in Hb as [Hc Hb]. by rewrite Hc, IH.
Qed.

Lemma split_go_sep (sep : bool) (acc b s : string) :
  blank b = true → b ≠ "" →
  Js.split_go sep acc (b +:+ s)
  = ((if sep then [] else [acc]) ++ Js.split_go true "" s)%list.
Proof.
  intros Hb Hne. destruct b as [|c b]; [done|]. simpl in *.
  apply andb_true_iff in Hb as [Hc Hb]. rewrite Hc, split_go_blank by done.
  by destruct sep.
Qed.

Lemma tokens_glue_go (segs : list (string * string)) (last : string) :
  laid_out segs last → ∀ sep acc,
  (sep = true → acc = "") →
  List.filter Js.truthy (Js.split_go sep acc (glue segs last))
  = List.filter Js.truthy ((acc +:+ default last (fst <$> head segs))
                           :: tail (map fst segs ++ [last])%list).
Proof.
  intros [Hsegs Hlast]. induction Hsegs as [|[p b] segs (Hp & Hb & Hne) _ IH];
    intros sep acc Hacc; simpl in *.
  - rewrite <- (app_empty_r last) at 1. rewrite split_go_solid by done.
    by destruct (sep && negb (Js.truthy last))%bool.
  - rewrite split_go_solid, split_go_sep by done.
    rewrite List.filter_app, IH by done. simpl.
    destruct (sep && negb (Js.truthy p))%bool eqn:E; simpl.
    + apply andb_true_iff in E as [-> E]. rewrite Hacc by done.
      destruct p; [|done]. simpl.
      destruct segs as [|[p' b'] segs]; reflexivity.
    + destruct segs as [|[p' b'] segs]; simpl;
        by destruct (Js.truthy (acc +:+ p)).
Qed.

(** The non-empty pieces of [split_ws] are the non-empty pieces of the
    layout: the maximal runs of code units other than white space. *)
Lemma tokens_glue (segs : list (string * string)) (last : string) :
  laid_out segs last →
  List.filter Js.truthy (Js.split_ws (glue segs last))
  = List.filter Js.truthy (map fst segs ++ [last])%list.
Proof.
  intros H. unfold Js.split_ws. rewrite tokens_glue_go by done.
  destruct segs as [|[p b] segs]; simpl; done.
Qed.

(** Every string has such a layout. *)
Lemma glue_exists (s : string) : ∃ segs last, laid_out segs last ∧ s = glue segs last.
Proof.
  induction s as [|c s (segs & last & [Hsegs Hlast] & ->)].
  - exists [], "". repeat split; constructor.
  - destruct (Js.isWhiteSpace c) eqn:Hc.
    + exists (("", String c "") :: segs), last. split; [|done].
      split; [|done]. constructor; [|done]. simpl. by rewrite Hc.
    + destruct segs as [|[p b] segs].
      * exists [], (String c last). split; [|done].
        split; [constructor|]. simpl. by rewrite Hc.
      * exists ((String c p, b) :: segs), last. split; [|done].
        apply Forall_cons in Hsegs as [(Hp & Hb & Hne) Hsegs].
        split; [|done]. constructor; [|done]. simpl in *. by rewrite Hc, Hp.
Qed.

Lemma isWhiteSpace_toLowerChar (c : ascii) :
  Js.isWhiteSpace (Js.toLowerChar c) = Js.isWhiteSpace c.
Proof. destruct c as [[] [] [] [] [] [] [] []]; reflexivity. Qed.

Lemma toLowerCase_trimStart (s : string) :
  Js.toLowerCase (Js.trimStart s) = Js.trimStart (Js.toLowerCase s).
Proof.
  induction s as [|c s IH]; simpl; [done|].
  rewrite isWhiteSpace_toLowerChar. by destruct (Js.isWhiteSpace c).
Qed.

Lemma toLowerCase_trimEnd (s : string) :
  Js.toLowerCase (Js.trimEnd s) = Js.trimEnd (Js.toLowerCase s).
Proof.
  induction s as [|c s IH]; simpl; [done|].
  rewrite <- IH, isWhiteSpace_toLowerChar.
  destruct (Js.trimEnd s); simpl; [|done]. by destruct (Js.isWhiteSpace c).
Qed.

Lemma toLowerCase_trim (s : string) :
  Js.toLowerCase (Js.trim s) = Js.trim (Js.toLowerCase s).
Proof. unfold Js.trim. by rewrite toLowerCase_trimEnd, toLowerCase_trimStart. Qed.

Lemma forallb_includes (haystack : string) (tokens : list string) :
  forallb (λ token, Js.includes haystack token) (List.filter Js.truthy tokens) = true
  ↔ ∀ token, token ∈ tokens → token ≠ "" →
      ∃ pre post, haystack = pre +:+ token +:+ post.
Proof.
  rewrite forallb_forall. split.
  - intros H token Hin Hne. apply includes_spec, H, filter_In.
    split; [by apply list_elem_of_In|]. by destruct token.
  - intros H token [Hin Hne]%filter_In. apply includes_spec, H.
    + by apply list_elem_of_In.
    + by destruct token.
Qed.

(** ** Trimming *)

Lemma trimStart_blank (pre s : string) :
  blank pre = true → Js.trimStart (pre +:+ s) = Js.trimStart s.
Proof.
  induction pre as [|c pre IH]; simpl; [done|].
  intros [-> Hpre]%andb_true_iff. by apply IH.
Qed.

Lemma trimStart_tight (s : string) :
  beginsBlank s = false → Js.trimStart s = s.
Proof. destruct s as [|c s]; simpl; [done|]. by intros ->. Qed.

Lemma trimEnd_blank_nil (post : string) :
  blank post = true → Js.trimEnd post = "".
Proof.
  induction post as [|c post IH]; simpl; [done|].
  intros [-> Hpost]%andb_true_iff. by rewrite IH.
Qed.

Lemma trimEnd_blank (s post : string) :
  blank post = true → Js.trimEnd (s +:+ post) = Js.trimEnd s.
Proof.
  intros Hpost. induction s as [|c s IH]; simpl.
  - by apply trimEnd_blank_nil.
  - by rewrite IH.
Qed.

Lemma trimEnd_tight (s : string) :
  endsBlank s = false → Js.trimEnd s = s.
Proof.
  induction s as [|c s IH]; [done|].
  destruct s as [|d s].
  - simpl. by intros ->.
  - intros H. change (endsBlank (String d s) = false) in H.
    change (Js.trimEnd (String c (String d s)))
      with (match Js.trimEnd (String d s) with
            | EmptyString =>
                if Js.isWhiteSpace c then EmptyString else String c EmptyString
            | t => String c t
            end).
    by rewrite IH.
Qed.

(** A string with white space around a tight core is trimmed to the core. *)
Lemma trim_layout (pre core post : string) :
  blank pre = true → blank post = true → tight core = true →
  Js.trim (pre +:+ core +:+ post) = core.
Proof.
  intros Hpre Hpost [Hb He]%andb_true_iff.
  apply negb_true_iff in Hb. apply negb_true_iff in He.
  unfold Js.trim. rewrite trimStart_blank by done.
  destruct core as [|c core].
  - simpl. rewrite <- (app_empty_r post), trimStart_blank by done. done.
  - simpl in Hb. change (String c core +:+ post) with (String c (core +:+ post)).
    simpl Js.trimStart. rewrite Hb.
    change (String c (core +:+ post)) with (String c core +:+ post).
    rewrite trimEnd_blank by done. by apply trimEnd_tight.
Qed.

Lemma trimStart_layout (s : string) :
  ∃ pre, blank pre = true ∧ s = pre +:+ Js.trimStart s
         ∧ beginsBlank (Js.trimStart s) = false.
Proof.
  induction s as [|c s (pre & Hpre & Hs & Hb)]; simpl.
  - by exists "".
  - destruct (Js.isWhiteSpace c) eqn:Hc.
    + exists (String c pre). simpl. rewrite Hc, Hpre. by rewrite <- Hs.
    + exists "". simpl. by rewrite Hc.
Qed.

Lemma trimEnd_layout (s : string) :
  ∃ post, blank post = true ∧ s = Js.trimEnd s +:+ post
          ∧ endsBlank (Js.trimEnd s) = false
          ∧ beginsBlank (Js.trimEnd s) = beginsBlank s && Js.truthy (Js.trimEnd s).
Proof.
  induction s as [|c s (post & Hpost & Hs & He & _)]; [by exists ""|].
  simpl Js.trimEnd. destruct (Js.trimEnd s) as [|d t] eqn:E.
  - destruct (Js.isWhiteSpace c) eqn:Hc.
    + exists (String c s). simpl in Hs. subst post.
      simpl. by rewrite Hc, Hpost.
    + exists post. simpl in *. rewrite Hc. by subst.
  - exists post. split; [done|]. split; [simpl in *; by rewrite <- Hs|].
    split; [done|]. simpl. by rewrite andb_true_r.
Qed.

(** Every string is white space around a tight core. *)
Lemma layout_exists (s : string) :
  ∃ pre core post, blank pre = true ∧ blank post = true ∧ tight core = true
                   ∧ s = pre +:+ core +:+ post.
Proof.
  destruct (trimStart_layout s) as (pre & Hpre & Hs & Hb).
  destruct (trimEnd_layout (Js.trimStart s)) as (post & Hpost & Ht & He & Hb').
  exists pre, (Js.trimEnd (Js.trimStart s)), post.
  split; [done|]. split; [done|]. split.
  - unfold tight. by rewrite Hb', Hb, He.
  - by rewrite <- Ht.
Qed.

(** ** The filter evaluator *)

(** C5.  The term a pane filters by is the filter's value, trimmed and in
    lower case: the query is white space around a core that neither begins
    nor ends with white space, and the term is that core in lower case,
    whatever the white space around it.  An empty term, so a query of
    white space only, passes every label.  In "startsWith" mode a label
    passes exactly when its lower-case form begins with the whole term.
    In any other mode (so in "contains") a label passes exactly when every
    non-empty white-space-separated piece of the term occurs somewhere in
    its lower-case form, whatever the order of the pieces.  The outcome
    depends on label and query through their lower-case forms only.
    "Green Apple" passes "app gr" in "contains" mode and does not pass
    "apple " in "startsWith" mode, where it passes "gre " and " GREEN a". *)
Theorem passesFilter_semantics (this : Widget) (label query : string) :
  let term := filterTerm (Some query) in
  term = Js.toLowerCase (Js.trim query)
  ∧ (∃ pre core post,
       blank pre = true ∧ blank post = true ∧ tight core = true
       ∧ query = pre +:+ core +:+ post)
  ∧ (∀ pre core post,
       blank pre = true → blank post = true → tight core = true →
       query = pre +:+ core +:+ post →
       term = Js.toLowerCase core
       ∧ (filterMatchMode this = "startsWith" →
          (_passesFilter this label term = true
           ↔ ∃ rest, Js.toLowerCase label = Js.toLowerCase core +:+ rest)))
  ∧ (blank query = true → _passesFilter this label term = true)
  ∧ (term = "" → _passesFilter this label term = true)
  ∧ (filterMatchMode this = "startsWith" →
     (_passesFilter this label term = true
      ↔ ∃ rest, Js.toLowerCase label = term +:+ rest))
  ∧ (filterMatchMode this ≠ "startsWith" →
     ∀ segs last, laid_out segs last → term = glue segs last →
     (_passesFilter this label term = true
      ↔ ∀ token, token ∈ (map fst segs ++ [last])%list → token ≠ "" →
          ∃ pre post, Js.toLowerCase label = pre +:+ token +:+ post))
  ∧ (∀ label' query',
       Js.toLowerCase label' = Js.toLowerCase label →
       Js.toLowerCase query' = Js.toLowerCase query →
       _passesFilter this label' (filterTerm (Some query'))
       = _passesFilter this label term)
  ∧ (filterMatchMode this = "contains" →
       _passesFilter this "Green Apple" (filterTerm (Some "app gr")) = true
       ∧ _passesFilter this "Green Apple" (filterTerm (Some "gr app")) = true
       ∧ _passesFilter this "Green Apple" (filterTerm (Some "  app   gr  ")) = true
       ∧ _passesFilter this "Green Apple" (filterTerm (Some "app red")) = false)
  ∧ (filterMatchMode this = "startsWith" →
       _passesFilter this "Green Apple" (filterTerm (Some "apple ")) = false
       ∧ _passesFilter this "Green Apple" (filterTerm (Some " GREEN a")) = true
       ∧ _passesFilter this "Green Apple" (filterTerm (Some "gre ")) = true
       ∧ _passesFilter this "Green Apple" (filterTerm (Some "gre e")) = false).
Proof.
  intros term. subst term. simpl.
  assert (Hstarts : filterMatchMode this = "startsWith" →
            (_passesFilter this label (Js.toLowerCase (Js.trim query)) = true
             ↔ ∃ rest, Js.toLowerCase label = Js.toLowerCase (Js.trim query) +:+ rest)).
  { intros Hmode. unfold _passesFilter. rewrite Hmode. simpl.
    destruct (Js.truthy _) eqn:Ht; simpl.
    - apply startsWith_spec.
    - destruct (Js.toLowerCase (Js.trim query)); [|done].
      split; [intros _; by eexists | done]. }
  split; [done|]. split; [apply layout_exists|].
  split; [|split; [|split; [by intros ->|]]].
  - intros pre core post Hpre Hpost Hcore ->.
    rewrite trim_layout in * by done. by split.
  - intros Hq. rewrite <- (app_empty_r query).
    change (query +:+ "") with (query +:+ "" +:+ "").
    by rewrite trim_layout.
  - split; [done|]. split; [|split; [|split]].
    + intros Hmode segs last Hlay Hterm. unfold _passesFilter.
      apply String.eqb_neq in Hmode. rewrite Hmode.
      destruct (Js.truthy _) eqn:Ht; simpl.
      * rewrite Hterm, tokens_glue by done. apply forallb_includes.
      * split; [|done]. intros _ token Hin Hne.
        destruct (Js.toLowerCase (Js.trim query)) eqn:E; [|done].
        assert (Htok : token ∈ List.filter Js.truthy (map fst segs ++ [last])).
        { apply list_elem_of_In, filter_In. split; [by apply list_elem_of_In|].
          by destruct token. }
        pose proof (tokens_glue segs last Hlay) as HT.
        rewrite <- Hterm in HT. rewrite <- HT in Htok. by apply elem_of_nil in Htok.
    + intros label' query' Hl Hq. unfold _passesFilter.
      by rewrite !toLowerCase_trim, Hl, Hq.
    + intros Hmode. unfold _passesFilter. rewrite Hmode. by vm_compute.
    + intros Hmode. unfold _passesFilter. rewrite Hmode. by vm_compute.
Qed.

(** A pane shows the registered keys of its partition whose label passes
    the pane's term. *)
Lemma renderOption_is_Some (this : Widget) (term : string)
    (previousSelection : list string) (key : string) :
  is_Some (renderOption this term previousSelection key)
  ↔ ∃ meta, options this !! key = Some meta
            ∧ _passesFilter this (label meta) term = true.
Proof.
  unfold renderOption. destruct (options this !! key) as [meta|].
  - assert (Hterm : Js.truthy term = false → _passesFilter this (label meta) term = true).
    { intros H. unfold _passesFilter. by rewrite H. }
    destruct (Js.truthy term) eqn:Et; simpl.
    + destruct (_passesFilter this (label meta) term) eqn:Ep; simpl.
      * split; [by exists meta | by eexists].
      * split; [by intros [] | intros (? & [= <-] & ?); congruence].
    + split; [exists meta; auto | by eexists].
  - split; [by intros [] | by intros (? & ? & _)].
Qed.

(** ** Sorting by index *)

Section sort.
Context {A : Type} (f : A → Z).

Let cmp (a b : A) : Z := f a - f b.
Let le (a b : A) : Prop := f a ≤ f b.

Lemma sort_insert_perm (x : A) (l : list A) : sort_insert cmp x l ≡ₚ x :: l.
Proof.
  induction l as [|y l IH]; simpl; [done|].
  destruct (0 <? cmp x y); [|done]. rewrite IH. apply perm_swap.
Qed.

Lemma Array_sort_perm (l : list A) : Array_sort cmp l ≡ₚ l.
Proof.
  induction l as [|x l IH]; simpl; [done|].
  by rewrite sort_insert_perm, IH.
Qed.

Lemma sort_insert_sorted (x : A) (l : list A) :
  StronglySorted le l → StronglySorted le (sort_insert cmp x l).
Proof.
  induction 1 as [|y l Hl IH Hy]; simpl.
  - repeat constructor.
  - destruct (0 <? cmp x y) eqn:E.
    + apply Z.ltb_lt in E. constructor; [done|].
      rewrite sort_insert_perm. constructor; [|done].
      unfold le, cmp in *. lia.
    + apply Z.ltb_ge in E. constructor; [by constructor|].
      constructor; [unfold le, cmp in *; lia|].
      eapply Forall_impl; [exact Hy|]. unfold le, cmp in *. intros; simpl in *. lia.
Qed.

Lemma Array_sort_sorted (l : list A) : StronglySorted le (Array_sort cmp l).
Proof.
  induction l as [|x l IH]; simpl; [constructor|]. by apply sort_insert_sorted.
Qed.

Lemma Array_sort_id (l : list A) : StronglySorted le l → Array_sort cmp l = l.
Proof.
  induction 1 as [|x l Hl IH Hx]; simpl; [done|]. rewrite IH.
  destruct Hx as [|y l Hy _]; simpl; [done|].
  assert ((0 <? cmp x y) = false) as ->; [|done].
  apply Z.ltb_ge. unfold le, cmp in *. lia.
Qed.


End sort.

Lemma sortByIndex_perm (this : Widget) (keys : list string) :
  _sortByIndex this keys ≡ₚ keys.
Proof. apply (Array_sort_perm (indexOrMax this)). Qed.

Lemma sortByIndex_sorted (this : Widget) (keys : list string) :
  indexSorted this (_sortByIndex this keys).
Proof. apply (Array_sort_sorted (indexOrMax this)). Qed.

Lemma sortByIndex_id (this : Widget) (keys : list string) :
  indexSorted this keys → _sortByIndex this keys = keys.
Proof. apply (Array_sort_id (indexOrMax this)). Qed.



Lemma sortByIndex_elem_of (this : Widget) (keys : list string) (k : string) :
  k ∈ _sortByIndex this keys ↔ k ∈ keys.
Proof. by rewrite sortByIndex_perm. Qed.

Lemma sortByIndex_NoDup (this : Widget) (keys : list string) :
  NoDup (_sortByIndex this keys) ↔ NoDup keys.
Proof. by rewrite sortByIndex_perm. Qed.


(** ** What a transfer does to the two partitions *)

(** Rendering, synchronising and notifying leave the registry, the
    partitions and the configuration as they are. *)
Lemma Full_render_model (this : Widget) :
  model (Full._render this) = model this.
Proof. reflexivity. Qed.

Lemma Full_renderPane_model (type : PaneType) (this : Widget) :
  model (Full._renderPane type this) = model this.
Proof. by destruct type. Qed.

Lemma Full_updateButtons_model (this : Widget) :
  model (Full._updateButtons this) = model this.
Proof. reflexivity. Qed.

Lemma Basic_render_model (this : Widget) :
  model (Basic._render this) = model this.
Proof. reflexivity. Qed.

Lemma Basic_renderPane_model (type : PaneType) (this : Widget) :
  model (Basic._renderPane type this) = model this.
Proof. by destruct type. Qed.

Lemma syncToOriginal_model (this : Widget) :
  model (_syncToOriginal this) = model this.
Proof. reflexivity. Qed.

Lemma sortByIndex_options (this this' : Widget) (keys : list string) :
  options this' = options this → _sortByIndex this' keys = _sortByIndex this keys.
Proof.
  intros H. unfold _sortByIndex, indexOrMax. by rewrite H.
Qed.

Lemma Full_transfer_from (keys : list string) (fromType toType : PaneType) (this : Widget) :
  fromType ≠ toType →
  partition fromType (Full._transfer keys fromType toType this)
  = _sortByIndex this (filter (λ key, key ∉ keys) (partition fromType this)).
Proof.
  intros Hne. unfold Full._transfer.
  destruct fromType, toType; try done;
    destruct (preserveSelectionOrder this) eqn:E; simpl; rewrite ?E; reflexivity.
Qed.

Lemma Full_transfer_to (keys : list string) (fromType toType : PaneType) (this : Widget) :
  fromType ≠ toType →
  partition toType (Full._transfer keys fromType toType this)
  = if preserveSelectionOrder this && bool_decide (toType = Chosen)
    then partition toType this ++ keys
    else _sortByIndex this (partition toType this ++ keys).
Proof.
  intros Hne. unfold Full._transfer.
  destruct fromType, toType; try done;
    destruct (preserveSelectionOrder this) eqn:E; simpl; rewrite ?E; reflexivity.
Qed.

Lemma Full_transfer_config (keys : list string) (fromType toType : PaneType) (this : Widget) :
  options (Full._transfer keys fromType toType this) = options this
  ∧ preserveSelectionOrder (Full._transfer keys fromType toType this)
    = preserveSelectionOrder this
  ∧ filterMatchMode (Full._transfer keys fromType toType this) = filterMatchMode this.
Proof.
  unfold Full._transfer.
  destruct fromType, toType;
    destruct (preserveSelectionOrder this) eqn:E; simpl; rewrite ?E; done.
Qed.

Lemma Basic_transfer_partitions (keys : list string) (fromType toType : PaneType)
    (this : Widget) (type : PaneType) :
  partition type (Basic._transfer keys fromType toType this)
  = partition type (Full._transfer keys fromType toType this).
Proof.
  unfold Basic._transfer, Full._transfer.
  destruct type, fromType, toType;
    destruct (preserveSelectionOrder this) eqn:E; simpl; rewrite ?E; reflexivity.
Qed.

Lemma Basic_transfer_config (keys : list string) (fromType toType : PaneType) (this : Widget) :
  options (Basic._transfer keys fromType toType this) = options this
  ∧ preserveSelectionOrder (Basic._transfer keys fromType toType this)
    = preserveSelectionOrder this
  ∧ filterMatchMode (Basic._transfer keys fromType toType this) = filterMatchMode this.
Proof.
  unfold Basic._transfer.
  destruct fromType, toType;
    destruct (preserveSelectionOrder this) eqn:E; simpl; rewrite ?E; done.
Qed.

Lemma indexSorted_options (this this' : Widget) (keys : list string) :
  options this' = options this → indexSorted this' keys ↔ indexSorted this keys.
Proof. intros H. unfold indexSorted, indexOrMax. by rewrite H. Qed.

Lemma StronglySorted_lookup {A} (R : relation A) (l : list A) (i j : nat) (a b : A) :
  StronglySorted R l → l !! i = Some a → l !! j = Some b → (i < j)%nat → R a b.
Proof.
  intros Hs. revert i j. induction Hs as [|x l Hs IH Hx]; intros i j Ha Hb Hij.
  - done.
  - destruct j as [|j]; [lia|]. destruct i as [|i]; simpl in *.
    + injection Ha as ->. rewrite Forall_forall in Hx.
      apply Hx. by eapply list_elem_of_lookup_2.
    + apply (IH i j); [done | done | lia].
Qed.


(** For registered keys the order of [indexSorted] is the order of their
    [index], the position of their <option> in the source select. *)
Lemma indexSorted_originalIndex (this : Widget) (keys : list string)
    (i j : nat) (a b : string) (ma mb : Meta) :
  indexSorted this keys →
  keys !! i = Some a → keys !! j = Some b → (i < j)%nat →
  options this !! a = Some ma → options this !! b = Some mb →
  index ma ≤ index mb.
Proof.
  intros Hs Ha Hb Hij Hma Hmb.
  pose proof (StronglySorted_lookup _ keys i j a b Hs Ha Hb Hij) as H.
  unfold indexOrMax in H. by rewrite Hma, Hmb in H.
Qed.







(** ** Building the state *)

#[global] Instance keyOf_inj : Inj (=) (=) keyOf.
Proof.
  intros i j H. unfold keyOf, Js.numberToString in H.
  apply (inj (String.append "fsm-")) in H. apply (inj pretty) in H. lia.
Qed.

Lemma forEach_from_buildOption (l : list OptionElement) : ∀ (i : nat) (this : Widget),
  let this' := forEach_from buildOption l i this in
  available this' = available this ++ builtKeys false l i
  ∧ chosen this' = chosen this ++ builtKeys true l i
  ∧ options this' = builtOptions l i (options this)
  ∧ preserveSelectionOrder this' = preserveSelectionOrder this
  ∧ filterMatchMode this' = filterMatchMode this
  ∧ showFilter this' = showFilter this
  ∧ selectElement this' = selectElement this.
Proof.
  induction l as [|o l IH]; intros i this; simpl.
  - by rewrite !app_nil_r.
  - destruct (IH (S i) (buildOption this o i)) as (-> & -> & -> & -> & -> & -> & ->).
    unfold buildOption. fold (keyOf i). fold (metaOf o i).
    destruct (el_selected o); simpl; rewrite <- ?app_assoc; done.
Qed.

Lemma builtOptions_other (l : list OptionElement) : ∀ i m k,
  (∀ j, (j < length l)%nat → k ≠ keyOf (i + j)) →
  builtOptions l i m !! k = m !! k.
Proof.
  induction l as [|o l IH]; intros i m k Hk; simpl; [done|].
  rewrite IH.
  - apply lookup_insert_ne. specialize (Hk 0%nat). rewrite Nat.add_0_r in Hk.
    intros <-. apply Hk; simpl; [lia | done].
  - intros j Hj. replace (S i + j)%nat with (i + S j)%nat by lia.
    apply Hk. simpl. lia.
Qed.

Lemma builtOptions_lookup (l : list OptionElement) : ∀ i m j o,
  l !! j = Some o →
  builtOptions l i m !! keyOf (i + j) = Some (metaOf o (i + j)).
Proof.
  induction l as [|o' l IH]; intros i m j o Hj; [done|].
  destruct j as [|j]; simpl in *.
  - injection Hj as ->. rewrite Nat.add_0_r, builtOptions_other.
    + apply lookup_insert_eq.
    + intros j _ H. apply (inj keyOf) in H. lia.
  - replace (i + S j)%nat with (S i + j)%nat by lia. by apply IH.
Qed.

Lemma builtOptions_Some (l : list OptionElement) : ∀ i m k meta,
  builtOptions l i m !! k = Some meta →
  m !! k = Some meta
  ∨ ∃ j o, l !! j = Some o ∧ k = keyOf (i + j) ∧ meta = metaOf o (i + j).
Proof.
  induction l as [|o l IH]; intros i m k meta H; simpl in *; [by left|].
  apply IH in H as [H | (j & o' & Hj & -> & ->)].
  - rewrite lookup_insert in H. case_decide as Hk.
    + injection H as <-. subst k. right. exists 0%nat, o.
      by rewrite Nat.add_0_r.
    + by left.
  - right. exists (S j), o'. by replace (i + S j)%nat with (S i + j)%nat by lia.
Qed.

Lemma elem_of_builtKeys (b : bool) (l : list OptionElement) : ∀ i k,
  k ∈ builtKeys b l i
  ↔ ∃ j o, l !! j = Some o ∧ el_selected o = b ∧ k = keyOf (i + j).
Proof.
  induction l as [|o l IH]; intros i k; simpl.
  - split; [by intros ?%elem_of_nil | by intros (j & o & ? & _)].
  - rewrite elem_of_app, IH. split.
    + intros [H | (j & o' & Hj & Hb & ->)].
      * destruct (Bool.eqb _ _) eqn:E; [|by apply elem_of_nil in H].
        apply list_elem_of_singleton in H as ->. apply Bool.eqb_prop in E.
        exists 0%nat, o. by rewrite Nat.add_0_r.
      * exists (S j), o'. by replace (i + S j)%nat with (S i + j)%nat by lia.
    + intros ([|j] & o' & Hj & Hb & ->); simpl in Hj.
      * injection Hj as ->. left. rewrite Hb, Bool.eqb_reflx, Nat.add_0_r.
        by apply list_elem_of_singleton.
      * right. exists j, o'. by replace (i + S j)%nat with (S i + j)%nat by lia.
Qed.

Lemma NoDup_builtKeys (b : bool) (l : list OptionElement) : ∀ i,
  NoDup (builtKeys b l i).
Proof.
  induction l as [|o l IH]; intros i; simpl; [constructor|].
  destruct (Bool.eqb _ _); simpl; [|done]. constructor; [|done].
  intros (j & o' & _ & _ & H)%elem_of_builtKeys. apply (inj keyOf) in H. lia.
Qed.

(** The state [_buildState] leaves, on the widget the constructor made. *)
Lemma buildState_spec (select : list OptionElement)
    (sf : bool) (mode : string) (pso : bool) :
  let this := _buildState (construct select sf mode pso) in
  options this = builtOptions select 0 ∅
  ∧ available this = _sortByIndex this (builtKeys false select 0)
  ∧ chosen this = (if pso then builtKeys true select 0
                   else _sortByIndex this (builtKeys true select 0))
  ∧ preserveSelectionOrder this = pso ∧ filterMatchMode this = mode
  ∧ showFilter this = sf ∧ selectElement this = select.
Proof.
  unfold _buildState.
  destruct (forEach_from_buildOption select 0 (construct select sf mode pso))
    as (Ha & Hc & Ho & Hp & Hm & Hs & He). simpl in *.
  rewrite Hp. destruct pso; simpl; rewrite ?Ha, ?Hc, ?Ho, ?Hm, ?Hs, ?He;
    repeat split; try done; apply sortByIndex_options; simpl; done.
Qed.

Lemma new_model (select : list OptionElement) (sf : bool) (mode : string) (pso : bool)
    (this : Widget) :
  this = _buildState (construct select sf mode pso)
  ∨ this = Full.new select sf mode pso ∨ this = Basic.new select sf mode pso →
  let built := _buildState (construct select sf mode pso) in
  options this = options built ∧ available this = available built
  ∧ chosen this = chosen built
  ∧ preserveSelectionOrder this = preserveSelectionOrder built.
Proof. by intros [-> | [-> | ->]]. Qed.

(** C9, as the code has it.  For every ordered sequence of source items,
    [_buildState] (and so the constructor of either listing) registers the
    item in position [i] under the key "fsm-" followed by the decimal
    digits of [i], with [index] [i] and the item's value, text, disabled
    flag, data attributes and title, and puts that key into "chosen" if
    the item is selected in the source, into "available" if not, and never
    into both. *)
Theorem buildState_keys (select : list OptionElement)
    (sf : bool) (mode : string) (pso : bool)
    (i : nat) (option : OptionElement) (this : Widget) :
  select !! i = Some option →
  this = _buildState (construct select sf mode pso)
  ∨ this = Full.new select sf mode pso ∨ this = Basic.new select sf mode pso →
  let k := "fsm-" +:+ Js.numberToString (Z.of_nat i) in
  (∃ meta, options this !! k = Some meta
           ∧ key meta = k ∧ index meta = Z.of_nat i
           ∧ value meta = el_value option ∧ label meta = el_text option
           ∧ disabled meta = el_disabled option
           ∧ dataset meta = el_dataset option ∧ title meta = el_title option
           ∧ original meta = i)
  ∧ (if el_selected option
     then k ∈ chosen this ∧ k ∉ available this
     else k ∈ available this ∧ k ∉ chosen this).
Proof.
  intros Hi Hthis k. fold (keyOf i) in k.
  destruct (new_model _ _ _ _ _ Hthis) as (-> & -> & -> & _).
  destruct (buildState_spec select sf mode pso) as (-> & -> & -> & _).
  set (built := _buildState _).
  assert (Hin : ∀ b, k ∈ builtKeys b select 0 ↔ el_selected option = b).
  { intros b. rewrite elem_of_builtKeys. split.
    - intros (j & o & Hj & Hb & Hk). apply (inj keyOf) in Hk. simpl in Hk.
      subst j. congruence.
    - intros Hb. by exists i, option. }
  split.
  - exists (metaOf option i). split; [|done].
    by apply (builtOptions_lookup select 0 ∅ i option).
  - assert (Hc : k ∈ (if pso then builtKeys true select 0
                      else _sortByIndex built (builtKeys true select 0))
                 ↔ el_selected option = true).
    { destruct pso; rewrite ?sortByIndex_elem_of; apply Hin. }
    destruct (el_selected option); rewrite Hc, sortByIndex_elem_of, Hin; done.
Qed.

Lemma buildState_keys_witness :
  let this := Full.new fruits true "contains" false in
  let k := "fsm-" +:+ Js.numberToString (Z.of_nat 2) in
  (∃ meta, options this !! k = Some meta
           ∧ key meta = k ∧ index meta = Z.of_nat 2
           ∧ value meta = "Cherry" ∧ label meta = "Cherry"
           ∧ disabled meta = false
           ∧ dataset meta = ∅ ∧ title meta = ""
           ∧ original meta = 2%nat)
  ∧ (k ∈ chosen this ∧ k ∉ available this).
Proof.
  intros this.
  apply (buildState_keys fruits true "contains" false 2
           (sourceOption "Cherry" false true) this).
  - reflexivity.
  - right. left. reflexivity.
Defined.

(** C9, as stated, fails: the first of the five sample items is not
    registered under "item-0"; no key of that form is registered or placed
    in a partition. *)
Lemma buildState_key_is_not_item :
  let this := Full.new fruits true "contains" false in
  (¬ ∃ meta, options this !! ("item-" +:+ Js.numberToString 0) = Some meta)
  ∧ (("item-" +:+ Js.numberToString 0) ∉ (available this ++ chosen this))
  ∧ available this ++ chosen this = ["fsm-0"; "fsm-1"; "fsm-3"; "fsm-4"; "fsm-2"].
Proof.
  split; [|split].
  - intros [meta H]. vm_compute in H. discriminate.
  - compute_done.
  - reflexivity.
Qed.

(** ** Sorting with keys that are not registered *)

(** C10.  [_sortByIndex] returns, for every list of keys, a rearrangement
    of that list.  A key without an entry in the registry is compared as
    [Number.MAX_SAFE_INTEGER]; as every registered index is below that
    number, each such key comes after every registered key. *)
Theorem sortByIndex_unknown_last (this : Widget) (keys : list string) :
  map_Forall (λ _ meta, index meta < Js.MAX_SAFE_INTEGER) (options this) →
  (∀ k, options this !! k = None → indexOrMax this k = Js.MAX_SAFE_INTEGER)
  ∧ _sortByIndex this keys ≡ₚ keys
  ∧ ∀ (i j : nat) (a b : string),
      _sortByIndex this keys !! i = Some a →
      _sortByIndex this keys !! j = Some b →
      options this !! a = None → is_Some (options this !! b) →
      (j < i)%nat.
Proof.
  intros Hbound. split; [|split].
  - intros k Hk. unfold indexOrMax. by rewrite Hk.
  - apply sortByIndex_perm.
  - intros i j a b Ha Hb Hna [mb Hmb].
    destruct (decide (j < i)%nat) as [|Hij]; [done|]. exfalso.
    assert (i = j ∨ i < j)%nat as [-> | Hlt] by lia.
    + congruence.
    + pose proof (StronglySorted_lookup _ _ i j a b
                    (sortByIndex_sorted this keys) Ha Hb Hlt) as H.
      unfold indexOrMax in H. rewrite Hna, Hmb in H.
      specialize (Hbound b mb Hmb). simpl in Hbound. lia.
Qed.

Lemma sortByIndex_unknown_last_witness :
  let this := Full.new fruits true "contains" false in
  let keys := ["ghost"; "fsm-3"; "phantom"; "fsm-0"] in
  (∀ k, options this !! k = None → indexOrMax this k = Js.MAX_SAFE_INTEGER)
  ∧ _sortByIndex this keys ≡ₚ keys
  ∧ ∀ (i j : nat) (a b : string),
      _sortByIndex this keys !! i = Some a →
      _sortByIndex this keys !! j = Some b →
      options this !! a = None → is_Some (options this !! b) →
      (j < i)%nat.
Proof.
  intros this keys. apply (sortByIndex_unknown_last this keys). compute_done.
Defined.

Example sortByIndex_unknown_last_run :
  _sortByIndex (Full.new fruits true "contains" false)
    ["ghost"; "fsm-3"; "phantom"; "fsm-0"]
  = ["fsm-0"; "fsm-3"; "ghost"; "phantom"].
Proof. reflexivity. Qed.

(** The registry [_buildState] makes meets the bound: an index is a
    position in the source select. *)
Lemma buildState_index_bound (select : list OptionElement)
    (sf : bool) (mode : string) (pso : bool) (this : Widget) :
  this = _buildState (construct select sf mode pso)
  ∨ this = Full.new select sf mode pso ∨ this = Basic.new select sf mode pso →
  map_Forall (λ _ meta, 0 ≤ index meta < Z.of_nat (length select)) (options this).
Proof.
  intros Hthis k meta Hk.
  destruct (new_model _ _ _ _ _ Hthis) as (Ho & _). rewrite Ho in Hk.
  destruct (buildState_spec select sf mode pso) as (Hb & _). rewrite Hb in Hk.
  apply builtOptions_Some in Hk as [Hk | (j & o & Hj & -> & ->)]; [done|].
  apply lookup_lt_Some in Hj. simpl. lia.
Qed.

(** ** The order of the effects of a transfer *)

Lemma Full_render_trace (this : Widget) :
  trace (Full._render this)
  = trace this ++ [RenderedPane Available; RenderedPane Chosen].
Proof. simpl. by rewrite <- app_assoc. Qed.

Lemma Basic_render_trace (this : Widget) :
  trace (Basic._render this)
  = trace this ++ [RenderedPane Available; RenderedPane Chosen].
Proof. simpl. by rewrite <- app_assoc. Qed.

(** In the later listing every transfer synchronises the source select,
    then renders the two panes, then dispatches the change event. *)
Theorem Full_transfer_trace (keys : list string) (fromType toType : PaneType)
    (this : Widget) :
  trace (Full._transfer keys fromType toType this)
  = trace this ++ [SyncedToOriginal; RenderedPane Available;
                   RenderedPane Chosen; DispatchedChange].
Proof.
  unfold Full._transfer.
  destruct fromType, toType;
    destruct (preserveSelectionOrder this) eqn:E; simpl; rewrite ?E; simpl;
    by rewrite <- !app_assoc.
Qed.

(** In the earlier listing every transfer renders the two panes, then
    synchronises the source select, then dispatches the change event. *)
Theorem Basic_transfer_trace (keys : list string) (fromType toType : PaneType)
    (this : Widget) :
  trace (Basic._transfer keys fromType toType this)
  = trace this ++ [RenderedPane Available; RenderedPane Chosen;
                   SyncedToOriginal; DispatchedChange].
Proof.
  unfold Basic._transfer.
  destruct fromType, toType;
    destruct (preserveSelectionOrder this) eqn:E; simpl; rewrite ?E; simpl;
    by rewrite <- !app_assoc.
Qed.

(** C3 at the five sample items: pressing "add all" in the earlier listing
    renders both panes before the source select is synchronised; in the
    later listing the same press synchronises first. *)
Theorem Basic_transfer_renders_before_sync :
  let before := Basic.new fruits true "contains" false in
  let after := Basic.handle (Click AddAll) before in
  drop (length (trace before)) (trace after)
  = [RenderedPane Available; RenderedPane Chosen; SyncedToOriginal; DispatchedChange]
  ∧ drop (length (trace (Full.new fruits true "contains" false)))
         (trace (Full.handle (Click AddAll) (Full.new fruits true "contains" false)))
    = [SyncedToOriginal; RenderedPane Available; RenderedPane Chosen; DispatchedChange].
Proof. split; reflexivity. Qed.

(** ** The derived operations of the later listing *)

Lemma movable_spec (this : Widget) (key : string) :
  Full.movable this key = true ↔ enabledItem this key.
Proof.
  unfold Full.movable, enabledItem. destruct (options this !! key) as [meta|].
  - rewrite negb_true_iff. split; [by exists meta | by intros (? & [= <-] & ?)].
  - split; [done | by intros (? & ? & _)].
Qed.

Lemma length_pos_false {A} (l : list A) : (0 <? length l)%nat = false ↔ l = [].
Proof. destruct l; simpl; split; done. Qed.

Lemma Full_transfer_elem_of (keys : list string) (fromType toType : PaneType)
    (this : Widget) (key : string) :
  fromType ≠ toType →
  (key ∈ partition fromType (Full._transfer keys fromType toType this)
   ↔ key ∈ partition fromType this ∧ key ∉ keys)
  ∧ (key ∈ partition toType (Full._transfer keys fromType toType this)
     ↔ key ∈ partition toType this ∨ key ∈ keys).
Proof.
  intros Hne. rewrite Full_transfer_from, Full_transfer_to by done. split.
  - rewrite sortByIndex_elem_of, list_elem_of_filter. tauto.
  - destruct (_ && _); rewrite ?sortByIndex_elem_of; apply elem_of_app.
Qed.

(** What [_moveAll] of the later listing does, in any state and whatever
    the filters show: the keys of enabled items leave the first partition
    for the second, all other keys stay, and there is one synchronisation,
    one pair of renders and one change event; when the first partition
    holds no key of an enabled item, nothing at all changes. *)
Theorem Full_moveAll_spec (fromType toType : PaneType) (this : Widget) :
  fromType ≠ toType →
  let this' := Full._moveAll fromType toType this in
  ((∀ key, key ∈ partition fromType this → ¬ enabledItem this key) → this' = this)
  ∧ (∀ key, key ∈ partition fromType this'
            ↔ key ∈ partition fromType this ∧ ¬ enabledItem this key)
  ∧ (∀ key, key ∈ partition toType this'
            ↔ key ∈ partition toType this
              ∨ (key ∈ partition fromType this ∧ enabledItem this key))
  ∧ ((∃ key, key ∈ partition fromType this ∧ enabledItem this key) →
     trace this' = trace this ++ transferEffects).
Proof.
  intros Hne this'. subst this'. unfold Full._moveAll.
  set (keys := filter _ _).
  assert (Hkeys : ∀ key, key ∈ keys ↔ key ∈ partition fromType this ∧ enabledItem this key).
  { intros key. unfold keys. rewrite list_elem_of_filter, <- movable_spec.
    rewrite Is_true_true. tauto. }
  destruct (0 <? length keys)%nat eqn:E.
  - assert (Hex : ∃ key, key ∈ keys).
    { destruct keys as [|key ?]; [done|]. exists key. by left. }
    split; [|split; [|split]].
    + intros Hnone. destruct Hex as [key Hkey]. apply Hkeys in Hkey as [? ?].
      by destruct (Hnone key).
    + intros key.
      destruct (Full_transfer_elem_of keys fromType toType this key Hne) as [-> _].
      rewrite Hkeys. tauto.
    + intros key.
      destruct (Full_transfer_elem_of keys fromType toType this key Hne) as [_ ->].
      by rewrite Hkeys.
    + intros _. apply Full_transfer_trace.
  - apply length_pos_false in E.
    assert (Hnone : ∀ key, ¬ (key ∈ partition fromType this ∧ enabledItem this key)).
    { intros key Hkey%Hkeys. rewrite E in Hkey. by apply elem_of_nil in Hkey. }
    split; [done|]. split; [|split].
    + intros key. specialize (Hnone key). tauto.
    + intros key. specialize (Hnone key). tauto.
    + intros [key Hkey]. by destruct (Hnone key).
Qed.

Lemma elem_of_getSelectedKeys (type : PaneType) (this : Widget) (key : string) :
  key ∈ _getSelectedKeys (paneSelect type this) ↔ visiblySelected type this key.
Proof.
  unfold _getSelectedKeys, visiblySelected. rewrite list_elem_of_omap.
  split; intros (opt & H1 & H2); exists opt.
  - apply list_elem_of_filter in H1 as [Hsel Hin]. by apply Is_true_true in Hsel.
  - destruct H2 as [Hsel Hkey]. split; [|done].
    apply list_elem_of_filter. by rewrite Is_true_true.
Qed.

(** What [_moveSelected] of the later listing does, in any state: the keys
    that are visibly selected in the pane of the first partition and belong
    to enabled items go to the second partition, and out of the first; all
    other keys stay; when there is no such key, nothing at all changes. *)
Theorem Full_moveSelected_spec (fromType toType : PaneType) (this : Widget) :
  fromType ≠ toType →
  let this' := Full._moveSelected fromType toType this in
  let moved key := visiblySelected fromType this key ∧ enabledItem this key in
  ((∀ key, ¬ moved key) → this' = this)
  ∧ (∀ key, key ∈ partition fromType this'
            ↔ key ∈ partition fromType this ∧ ¬ moved key)
  ∧ (∀ key, key ∈ partition toType this'
            ↔ key ∈ partition toType this ∨ moved key)
  ∧ ((∃ key, moved key) → trace this' = trace this ++ transferEffects).
Proof.
  intros Hne this' moved. subst this'. unfold Full._moveSelected.
  set (keys := filter _ _).
  assert (Hkeys : ∀ key, key ∈ keys ↔ moved key).
  { intros key. unfold keys, moved.
    rewrite list_elem_of_filter, <- movable_spec, <- elem_of_getSelectedKeys.
    rewrite Is_true_true. tauto. }
  destruct (0 <? length keys)%nat eqn:E.
  - assert (Hex : ∃ key, key ∈ keys).
    { destruct keys as [|key ?]; [done|]. exists key. by left. }
    split; [|split; [|split]].
    + intros Hnone. destruct Hex as [key Hkey]. apply Hkeys in Hkey.
      by destruct (Hnone key).
    + intros key.
      destruct (Full_transfer_elem_of keys fromType toType this key Hne) as [-> _].
      by rewrite Hkeys.
    + intros key.
      destruct (Full_transfer_elem_of keys fromType toType this key Hne) as [_ ->].
      by rewrite Hkeys.
    + intros _. apply Full_transfer_trace.
  - apply length_pos_false in E.
    assert (Hnone : ∀ key, ¬ moved key).
    { intros key Hkey%Hkeys. rewrite E in Hkey. by apply elem_of_nil in Hkey. }
    split; [done|]. split; [|split].
    + intros key. specialize (Hnone key). tauto.
    + intros key. specialize (Hnone key). tauto.
    + intros [key Hkey]. by destruct (Hnone key).
Qed.

(** What [_updateButtons] of the later listing does to the two bulk
    buttons, in a state whose partitions hold registered keys only: "add
    all" is enabled exactly when "available" holds the key of an enabled
    item, "remove all" exactly when "chosen" does. *)
Theorem Full_updateButtons_bulk (this : Widget) :
  (∀ key, key ∈ available this ++ chosen this → is_Some (options this !! key)) →
  let this' := Full._updateButtons this in
  (addAll (buttons this') = false
   ↔ ∃ key, key ∈ available this' ∧ enabledItem this' key)
  ∧ (removeAll (buttons this') = false
     ↔ ∃ key, key ∈ chosen this' ∧ enabledItem this' key).
Proof.
  intros Hreg this'.
  assert (Hex : ∀ keys, (∀ key, key ∈ keys → is_Some (options this !! key)) →
            negb (existsb (Full.notDisabled this) keys) = false
            ↔ ∃ key, key ∈ keys ∧ enabledItem this key).
  { intros keys Hk. rewrite negb_false_iff, existsb_exists.
    split; intros (key & Hin & H); exists key.
    - apply list_elem_of_In in Hin. split; [done|].
      destruct (Hk key Hin) as [meta Hmeta]. exists meta. split; [done|].
      unfold Full.notDisabled in H. rewrite Hmeta in H. by apply negb_true_iff.
    - split; [by apply list_elem_of_In|]. destruct H as (meta & Hmeta & Hd).
      unfold Full.notDisabled. by rewrite Hmeta, Hd. }
  split.
  - apply (Hex (available this)). intros key Hin. apply Hreg, elem_of_app. by left.
  - apply (Hex (chosen this)). intros key Hin. apply Hreg, elem_of_app. by right.
Qed.

Lemma Full_updateButtons_bulk_witness :
  let this := Full.new fruits true "contains" false in
  let this' := Full._updateButtons this in
  (addAll (buttons this') = false
   ↔ ∃ key, key ∈ available this' ∧ enabledItem this' key)
  ∧ (removeAll (buttons this') = false
     ↔ ∃ key, key ∈ chosen this' ∧ enabledItem this' key).
Proof.
  intros this. apply (Full_updateButtons_bulk this).
  intros key Hin. apply (bool_decide_unpack _).
  revert key Hin. apply Forall_forall. compute_done.
Defined.

Lemma Full_moveAll_spec_witness :
  let this := Full.new fruits true "contains" false in
  let this' := Full._moveAll Available Chosen this in
  ((∀ key, key ∈ partition Available this → ¬ enabledItem this key) → this' = this)
  ∧ (∀ key, key ∈ partition Available this'
            ↔ key ∈ partition Available this ∧ ¬ enabledItem this key)
  ∧ (∀ key, key ∈ partition Chosen this'
            ↔ key ∈ partition Chosen this
              ∨ (key ∈ partition Available this ∧ enabledItem this key))
  ∧ ((∃ key, key ∈ partition Available this ∧ enabledItem this key) →
     trace this' = trace this ++ transferEffects).
Proof.
  intros this. apply (Full_moveAll_spec Available Chosen this). discriminate.
Defined.

Lemma Full_moveSelected_spec_witness :
  let this := Full.handle (SelectionChange Available [0; 1]%nat)
                (Full.new fruits true "contains" false) in
  let this' := Full._moveSelected Available Chosen this in
  let moved key := visiblySelected Available this key ∧ enabledItem this key in
  ((∀ key, ¬ moved key) → this' = this)
  ∧ (∀ key, key ∈ partition Available this'
            ↔ key ∈ partition Available this ∧ ¬ moved key)
  ∧ (∀ key, key ∈ partition Chosen this'
            ↔ key ∈ partition Chosen this ∨ moved key)
  ∧ ((∃ key, moved key) → trace this' = trace this ++ transferEffects).
Proof.
  intros this. apply (Full_moveSelected_spec Available Chosen this). discriminate.
Defined.

(** ** The derived operations of the earlier listing *)

(** C4 at the five sample items, the one at index 1 disabled: "add all" in
    the earlier listing empties "available" and moves the disabled item's
    key "fsm-1" into "chosen" with the others, and on a select whose only
    item is disabled it still transfers and notifies; the later listing
    leaves "fsm-1" in "available", and does nothing on the lonely item. *)
Theorem Basic_moveAll_moves_disabled :
  let before := Basic.new fruits true "contains" false in
  let after := Basic.handle (Click AddAll) before in
  let alone := Basic.new lonely true "contains" false in
  (∃ meta, options before !! "fsm-1" = Some meta ∧ disabled meta = true)
  ∧ available before = ["fsm-0"; "fsm-1"; "fsm-3"; "fsm-4"]
  ∧ available after = []
  ∧ chosen after = ["fsm-0"; "fsm-1"; "fsm-2"; "fsm-3"; "fsm-4"]
  ∧ chosen (Basic.handle (Click AddAll) alone) = ["fsm-0"]
  ∧ drop (length (trace alone)) (trace (Basic.handle (Click AddAll) alone))
    = [RenderedPane Available; RenderedPane Chosen; SyncedToOriginal; DispatchedChange]
  ∧ available (Full.handle (Click AddAll) (Full.new fruits true "contains" false))
    = ["fsm-1"]
  ∧ Full.handle (Click AddAll) (Full.new lonely true "contains" false)
    = Full.new lonely true "contains" false.
Proof.
  split.
  { exists (metaOf (sourceOption "Banana" true false) 1). split; by vm_compute. }
  do 6 (split; [by vm_compute|]). by vm_compute.
Qed.

(** C7 at the five sample items, with the disabled second entry of the
    "available" pane selected: "add selected" in the earlier listing moves
    that item's key "fsm-1" into "chosen"; in the later listing the same
    press changes nothing. *)
Theorem Basic_moveSelected_moves_disabled :
  let before :=
    Basic.handle (SelectionChange Available [1%nat])
      (Basic.new fruits true "contains" false) in
  let after := Basic.handle (Click AddSelected) before in
  let before' :=
    Full.handle (SelectionChange Available [1%nat])
      (Full.new fruits true "contains" false) in
  (∃ meta, options before !! "fsm-1" = Some meta ∧ disabled meta = true)
  ∧ _getSelectedKeys (availableSelect before) = ["fsm-1"]
  ∧ available after = ["fsm-0"; "fsm-3"; "fsm-4"]
  ∧ chosen after = ["fsm-1"; "fsm-2"]
  ∧ drop (length (trace before)) (trace after)
    = [RenderedPane Available; RenderedPane Chosen; SyncedToOriginal; DispatchedChange]
  ∧ _getSelectedKeys (availableSelect before') = ["fsm-1"]
  ∧ Full.handle (Click AddSelected) before' = before'.
Proof.
  split.
  { exists (metaOf (sourceOption "Banana" true false) 1). split; by vm_compute. }
  do 5 (split; [by vm_compute|]). by vm_compute.
Qed.

(** C8 on a select whose only item is disabled: the earlier listing leaves
    "add all" enabled although "available" holds no key of an enabled
    item; the later listing disables the button. *)
Theorem Basic_updateButtons_counts_disabled :
  let this := Basic._updateButtons (Basic.new lonely true "contains" false) in
  addAll (buttons this) = false
  ∧ available this = ["fsm-0"]
  ∧ (¬ ∃ key, key ∈ available this ∧ enabledItem this key)
  ∧ addAll (buttons (Full._updateButtons (Full.new lonely true "contains" false)))
    = true.
Proof.
  split; [by vm_compute|]. split; [by vm_compute|]. split; [|by vm_compute].
  intros (key & Hin & meta & Hmeta & Hd).
  assert (available (Basic._updateButtons (Basic.new lonely true "contains" false))
          = ["fsm-0"]) as Ha by reflexivity.
  rewrite Ha in Hin. apply list_elem_of_singleton in Hin as ->.
  vm_compute in Hmeta. injection Hmeta as <-. discriminate.
Qed.

(** ** Partition completeness *)

Lemma omap_sublist {A B} (f : A → option B) (l1 l2 : list A) :
  l1 `sublist_of` l2 → omap f l1 `sublist_of` omap f l2.
Proof.
  induction 1 as [|x l1 l2 _ IH|x l1 l2 _ IH]; simpl.
  - constructor.
  - destruct (f x); [by constructor | done].
  - destruct (f x); [by constructor | done].
Qed.

Lemma omap_dataset_key_imap (f : nat → OptionElement → OptionElement)
    (l : list OptionElement) :
  (∀ i opt, dataset_key (f i opt) = dataset_key opt) →
  omap dataset_key (imap f l) = omap dataset_key l.
Proof.
  revert f. induction l as [|opt l IH]; intros f Hf; simpl; [done|].
  rewrite Hf, IH; [done|]. intros i opt'. apply Hf.
Qed.

(** What [_renderPane] puts into a pane select are <option>s for keys of
    the partition, in its order, each carrying its own key, as long as no
    item has a data attribute of that name. *)
Lemma rendered_sublist (this : Widget) (term : string)
    (previousSelection keys : list string) :
  noDataKey this →
  omap dataset_key (omap (renderOption this term previousSelection) keys)
  `sublist_of` keys.
Proof.
  intros Hnk. induction keys as [|k keys IH]; simpl; [constructor|].
  unfold renderOption at 1. destruct (options this !! k) as [meta|] eqn:Hk.
  - destruct (_ && _); simpl; [by constructor|].
    unfold dataset_key at 1. simpl.
    rewrite lookup_union_r by eauto. rewrite lookup_singleton_eq.
    by constructor.
  - by constructor.
Qed.

Lemma Full_render_unfold (this : Widget) :
  Full._render this
  = Full._updateButtons (Full._renderPane Chosen (Full._renderPane Available this)).
Proof. reflexivity. Qed.

Lemma Basic_render_unfold (this : Widget) :
  Basic._render this
  = Basic._updateButtons (Basic._renderPane Chosen (Basic._renderPane Available this)).
Proof. reflexivity. Qed.

Lemma Full_updateButtons_pane (type : PaneType) (this : Widget) :
  paneSelect type (Full._updateButtons this) = paneSelect type this.
Proof. by destruct type. Qed.

Lemma Basic_updateButtons_pane (type : PaneType) (this : Widget) :
  paneSelect type (Basic._updateButtons this) = paneSelect type this.
Proof. by destruct type. Qed.

Lemma Full_renderPane_pane (type : PaneType) (this : Widget) :
  paneSelect type (Full._renderPane type this)
  = omap (renderOption this (filterTerm (paneFilter type this))
            (omap dataset_key
               (filter (λ opt, el_selected opt) (paneSelect type this))))
         (partition type this).
Proof. by destruct type. Qed.

Lemma Basic_renderPane_pane (type : PaneType) (this : Widget) :
  paneSelect type (Basic._renderPane type this)
  = omap (renderOption this (filterTerm (paneFilter type this))
            (omap dataset_key
               (filter (λ opt, el_selected opt) (paneSelect type this))))
         (partition type this).
Proof. by destruct type. Qed.

Lemma Full_renderPane_other (type type' : PaneType) (this : Widget) :
  type ≠ type' →
  paneSelect type' (Full._renderPane type this) = paneSelect type' this.
Proof. by destruct type, type'. Qed.

Lemma Basic_renderPane_other (type type' : PaneType) (this : Widget) :
  type ≠ type' →
  paneSelect type' (Basic._renderPane type this) = paneSelect type' this.
Proof. by destruct type, type'. Qed.

Lemma model_partition (this this' : Widget) (type : PaneType) :
  model this' = model this → partition type this' = partition type this.
Proof. unfold model. intros [= _ Ha Hc _ _ _ _]. by destruct type. Qed.

Lemma model_noDataKey (this this' : Widget) :
  model this' = model this → noDataKey this → noDataKey this'.
Proof. unfold model, noDataKey. intros [= Ho _ _ _ _ _ _]. by rewrite Ho. Qed.

Lemma Full_renderPane_panes (type : PaneType) (this : Widget) :
  noDataKey this → panesFromPartitions this →
  panesFromPartitions (Full._renderPane type this).
Proof.
  intros Hnk Hpanes type'.
  rewrite (model_partition this) by apply Full_renderPane_model.
  destruct (decide (type = type')) as [<- | Hne].
  - rewrite Full_renderPane_pane. by apply rendered_sublist.
  - rewrite Full_renderPane_other by done. apply Hpanes.
Qed.

Lemma Basic_renderPane_panes (type : PaneType) (this : Widget) :
  noDataKey this → panesFromPartitions this →
  panesFromPartitions (Basic._renderPane type this).
Proof.
  intros Hnk Hpanes type'.
  rewrite (model_partition this) by apply Basic_renderPane_model.
  destruct (decide (type = type')) as [<- | Hne].
  - rewrite Basic_renderPane_pane. by apply rendered_sublist.
  - rewrite Basic_renderPane_other by done. apply Hpanes.
Qed.

Lemma Full_render_panes (this : Widget) :
  noDataKey this → panesFromPartitions (Full._render this).
Proof.
  intros Hnk type.
  rewrite (model_partition this) by apply Full_render_model.
  rewrite Full_render_unfold, Full_updateButtons_pane.
  assert (Hnk' : noDataKey (Full._renderPane Available this)).
  { eapply model_noDataKey; [apply Full_renderPane_model | done]. }
  destruct type.
  - rewrite Full_renderPane_other, Full_renderPane_pane by done.
    by apply rendered_sublist.
  - rewrite Full_renderPane_pane.
    rewrite (model_partition this) by apply Full_renderPane_model.
    by apply rendered_sublist.
Qed.

Lemma Basic_render_panes (this : Widget) :
  noDataKey this → panesFromPartitions (Basic._render this).
Proof.
  intros Hnk type.
  rewrite (model_partition this) by apply Basic_render_model.
  rewrite Basic_render_unfold, Basic_updateButtons_pane.
  assert (Hnk' : noDataKey (Basic._renderPane Available this)).
  { eapply model_noDataKey; [apply Basic_renderPane_model | done]. }
  destruct type.
  - rewrite Basic_renderPane_other, Basic_renderPane_pane by done.
    by apply rendered_sublist.
  - rewrite Basic_renderPane_pane.
    rewrite (model_partition this) by apply Basic_renderPane_model.
    by apply rendered_sublist.
Qed.

Lemma dispatchChange_pane (type : PaneType) (this : Widget) :
  paneSelect type (_dispatchChange this) = paneSelect type this
  ∧ partition type (_dispatchChange this) = partition type this.
Proof. by destruct type. Qed.

(** A transfer ends with a render of both panes and the change event. *)
Lemma Full_transfer_shape (keys : list string) (fromType toType : PaneType)
    (this : Widget) :
  ∃ w, Full._transfer keys fromType toType this = _dispatchChange (Full._render w)
       ∧ options w = options this.
Proof.
  unfold Full._transfer. eexists. split; [reflexivity|].
  by destruct fromType, toType; destruct (preserveSelectionOrder this) eqn:E;
    simpl; rewrite ?E.
Qed.

Lemma Basic_transfer_shape (keys : list string) (fromType toType : PaneType)
    (this : Widget) :
  ∃ w, Basic._transfer keys fromType toType this
       = _dispatchChange (_syncToOriginal (Basic._render w))
       ∧ options w = options this.
Proof.
  unfold Basic._transfer. eexists. split; [reflexivity|].
  by destruct fromType, toType; destruct (preserveSelectionOrder this) eqn:E;
    simpl; rewrite ?E.
Qed.

Lemma syncToOriginal_pane (type : PaneType) (this : Widget) :
  paneSelect type (_syncToOriginal this) = paneSelect type this
  ∧ partition type (_syncToOriginal this) = partition type this.
Proof. by destruct type. Qed.

(** The two partitions after a transfer hold what they held before, when
    the transferred keys are distinct keys of the partition they leave. *)
Lemma Full_transfer_perm (keys : list string) (fromType toType : PaneType)
    (this : Widget) :
  fromType ≠ toType →
  NoDup (partition fromType this) → keys `sublist_of` partition fromType this →
  let this' := Full._transfer keys fromType toType this in
  available this' ++ chosen this' ≡ₚ available this ++ chosen this.
Proof.
  intros Hne Hnd Hsub this'.
  assert (Hfrom : partition fromType this' ++ keys ≡ₚ partition fromType this).
  { unfold this'. rewrite Full_transfer_from, sortByIndex_perm by done.
    rewrite <- (filter_app_complement (λ key, key ∈ keys) (partition fromType this)) at 2.
    rewrite (comm (++)). f_equiv.
    apply NoDup_Permutation;
      [by eapply sublist_NoDup | by apply NoDup_filter |].
    intros key. rewrite list_elem_of_filter. split; [|by intros []].
    intros Hin. split; [done|]. by apply (sublist_subseteq _ _ Hsub). }
  assert (Hto : partition toType this' ≡ₚ partition toType this ++ keys).
  { unfold this'. rewrite Full_transfer_to by done.
    destruct (_ && _); [done | apply sortByIndex_perm]. }
  clearbody this'. destruct fromType, toType; try done; simpl in *.
  - rewrite Hto, <- Hfrom. solve_Permutation.
  - rewrite Hto, <- Hfrom. solve_Permutation.
Qed.

Lemma partitionComplete_NoDup (this : Widget) (type : PaneType) :
  partitionComplete this → NoDup (partition type this).
Proof.
  intros H. assert (Hnd : NoDup (available this ++ chosen this)).
  { unfold partitionComplete, registryKeys in H. rewrite H. apply NoDup_elements. }
  apply NoDup_app in Hnd as (? & _ & ?). by destruct type.
Qed.

Lemma Full_transfer_inv (keys : list string) (fromType toType : PaneType)
    (this : Widget) :
  fromType ≠ toType → keys `sublist_of` partition fromType this →
  widgetInv this → widgetInv (Full._transfer keys fromType toType this).
Proof.
  intros Hne Hsub (Hpc & Hpanes & Hnk).
  destruct (Full_transfer_config keys fromType toType this) as (Hopt & _).
  assert (Hnk' : noDataKey (Full._transfer keys fromType toType this)).
  { unfold noDataKey. by rewrite Hopt. }
  split; [|split; [|done]].
  - unfold partitionComplete, registryKeys. rewrite Hopt.
    rewrite Full_transfer_perm; [done | done | | done].
    by apply partitionComplete_NoDup.
  - destruct (Full_transfer_shape keys fromType toType this) as (w & -> & Hw).
    intros type. destruct (dispatchChange_pane type (Full._render w)) as [-> ->].
    apply Full_render_panes. unfold noDataKey. by rewrite Hw.
Qed.

Lemma selected_sublist (type : PaneType) (this : Widget) :
  panesFromPartitions this →
  _getSelectedKeys (paneSelect type this) `sublist_of` partition type this.
Proof.
  intros Hpanes. etrans; [|apply Hpanes].
  apply omap_sublist, sublist_filter.
Qed.

Lemma Full_moveSelected_inv (fromType toType : PaneType) (this : Widget) :
  fromType ≠ toType → widgetInv this →
  widgetInv (Full._moveSelected fromType toType this).
Proof.
  intros Hne Hinv. unfold Full._moveSelected.
  destruct (0 <? _)%nat; [|done]. apply Full_transfer_inv; [done | | done].
  etrans; [apply sublist_filter|]. apply selected_sublist, Hinv.
Qed.

Lemma Full_moveAll_inv (fromType toType : PaneType) (this : Widget) :
  fromType ≠ toType → widgetInv this →
  widgetInv (Full._moveAll fromType toType this).
Proof.
  intros Hne Hinv. unfold Full._moveAll.
  destruct (0 <? _)%nat; [|done]. apply Full_transfer_inv; [done | | done].
  apply sublist_filter.
Qed.

Lemma userSelects_inv (type : PaneType) (selected : list nat) (this : Widget) :
  widgetInv this → widgetInv (userSelects type selected this).
Proof.
  intros (Hpc & Hpanes & Hnk). split; [|split].
  - by destruct type.
  - intros type'. specialize (Hpanes type').
    destruct type, type'; simpl in *; try done;
      by rewrite omap_dataset_key_imap.
  - by destruct type.
Qed.

Lemma userTypes_inv (type : PaneType) (text : string) (this : Widget) :
  widgetInv this → widgetInv (userTypes type text this).
Proof.
  intros (Hpc & Hpanes & Hnk). unfold userTypes.
  destruct (paneFilter type this); [|done].
  split; [|split]; [by destruct type | | by destruct type].
  intros type'. specialize (Hpanes type'). by destruct type, type'.
Qed.

Lemma Full_renderPane_inv (type : PaneType) (this : Widget) :
  widgetInv this → widgetInv (Full._renderPane type this).
Proof.
  intros (Hpc & Hpanes & Hnk). split; [|split].
  - by destruct type.
  - by apply Full_renderPane_panes.
  - by destruct type.
Qed.

Lemma Full_updateButtons_inv (this : Widget) :
  widgetInv this → widgetInv (Full._updateButtons this).
Proof.
  intros (Hpc & Hpanes & Hnk). split; [done|]. split; [|done].
  intros type. rewrite Full_updateButtons_pane. apply Hpanes.
Qed.

Lemma Full_handle_inv (e : Event) (this : Widget) :
  widgetInv this → widgetInv (Full.handle e this).
Proof.
  intros Hinv. destruct e as [type text|type|type selected|[|]|[|]|[| | |]]; simpl.
  - by apply userTypes_inv.
  - by apply Full_renderPane_inv.
  - by apply Full_updateButtons_inv, userSelects_inv.
  - by apply Full_moveSelected_inv.
  - by apply Full_moveSelected_inv.
  - by apply Full_moveSelected_inv.
  - by apply Full_moveSelected_inv.
  - by apply Full_moveAll_inv.
  - by apply Full_moveSelected_inv.
  - by apply Full_moveSelected_inv.
  - by apply Full_moveAll_inv.
Qed.

Lemma buildState_partitionComplete (select : list OptionElement)
    (sf : bool) (mode : string) (pso : bool) :
  partitionComplete (_buildState (construct select sf mode pso)).
Proof.
  unfold partitionComplete, registryKeys.
  destruct (buildState_spec select sf mode pso) as (Ho & -> & -> & _).
  set (built := _buildState _) in *. clearbody built.
  assert (available_chosen :
    _sortByIndex built (builtKeys false select 0)
    ++ (if pso then builtKeys true select 0
        else _sortByIndex built (builtKeys true select 0))
    ≡ₚ builtKeys false select 0 ++ builtKeys true select 0).
  { destruct pso; by rewrite !sortByIndex_perm. }
  rewrite available_chosen. apply NoDup_Permutation.
  - apply NoDup_app. split; [apply NoDup_builtKeys|]. split; [|apply NoDup_builtKeys].
    intros k (j & o & Hj & Hsel & ->)%elem_of_builtKeys
             (j' & o' & Hj' & Hsel' & Hk)%elem_of_builtKeys.
    apply (inj keyOf) in Hk. simpl in Hk. subst j'. congruence.
  - apply NoDup_elements.
  - intros k. rewrite elem_of_elements, elem_of_dom, Ho, elem_of_app,
      !elem_of_builtKeys. split.
    + intros [(j & o & Hj & _ & ->) | (j & o & Hj & _ & ->)];
        eexists; by apply (builtOptions_lookup select 0 ∅ j o).
    + intros [meta [Hk | (j & o & Hj & -> & _)]%builtOptions_Some]; [done|].
      destruct (el_selected o) eqn:E; [right | left]; by exists j, o.
Qed.

Lemma buildState_noDataKey (select : list OptionElement)
    (sf : bool) (mode : string) (pso : bool) :
  Forall (λ option, el_dataset option !! "key" = None) select →
  noDataKey (_buildState (construct select sf mode pso)).
Proof.
  intros Hsel k meta Hk.
  destruct (buildState_spec select sf mode pso) as (Ho & _). rewrite Ho in Hk.
  apply builtOptions_Some in Hk as [Hk | (j & o & Hj & _ & ->)]; [done|].
  rewrite Forall_forall in Hsel. apply Hsel. by eapply list_elem_of_lookup_2.
Qed.

Lemma buildUI_model (this : Widget) :
  options (_buildUI this) = options this
  ∧ available (_buildUI this) = available this
  ∧ chosen (_buildUI this) = chosen this.
Proof. done. Qed.

Lemma Full_new_inv (select : list OptionElement)
    (sf : bool) (mode : string) (pso : bool) :
  Forall (λ option, el_dataset option !! "key" = None) select →
  widgetInv (Full.new select sf mode pso).
Proof.
  intros Hsel. unfold Full.new, Full._init.
  set (built := _buildState _).
  assert (Hpc : partitionComplete built) by apply buildState_partitionComplete.
  assert (Hnk : noDataKey built) by by apply buildState_noDataKey.
  clearbody built. split; [|split].
  - done.
  - by apply Full_render_panes.
  - done.
Qed.

Lemma Full_reachable_inv (select : list OptionElement)
    (sf : bool) (mode : string) (pso : bool) (this : Widget) :
  Forall (λ option, el_dataset option !! "key" = None) select →
  reachable Full.handle (Full.new select sf mode pso) this → widgetInv this.
Proof.
  intros Hsel. induction 1 as [|e this _ IH].
  - by apply Full_new_inv.
  - by apply Full_handle_inv.
Qed.

(** The later listing keeps the partitions complete, from construction on
    and through every event, for every source select none of whose options
    carries a data attribute named [key]. *)
Theorem Full_partition_complete (select : list OptionElement)
    (sf : bool) (mode : string) (pso : bool) (this : Widget) :
  Forall (λ option, el_dataset option !! "key" = None) select →
  reachable Full.handle (Full.new select sf mode pso) this →
  available this ++ chosen this ≡ₚ registryKeys this
  ∧ NoDup (available this ++ chosen this)
  ∧ ∀ key, key ∈ available this ++ chosen this ↔ is_Some (options this !! key).
Proof.
  intros Hsel Hreach.
  destruct (Full_reachable_inv _ _ _ _ _ Hsel Hreach) as (Hpc & _).
  unfold partitionComplete in Hpc. split; [done|]. split.
  - rewrite Hpc. unfold registryKeys. apply NoDup_elements.
  - intros key. rewrite Hpc. unfold registryKeys.
    by rewrite elem_of_elements, elem_of_dom.
Qed.

Lemma Full_partition_complete_witness :
  let this := Full.handle (Click AddAll) (Full.new fruits true "contains" false) in
  available this ++ chosen this ≡ₚ registryKeys this
  ∧ NoDup (available this ++ chosen this)
  ∧ ∀ key, key ∈ available this ++ chosen this ↔ is_Some (options this !! key).
Proof.
  intros this.
  apply (Full_partition_complete fruits true "contains" false this).
  - compute_done.
  - apply reachable_step, reachable_init.
Defined.

(** Construction alone leaves the partitions complete, for every source
    select, in both listings. *)
Theorem new_partition_complete (select : list OptionElement)
    (sf : bool) (mode : string) (pso : bool) :
  partitionComplete (Full.new select sf mode pso)
  ∧ partitionComplete (Basic.new select sf mode pso).
Proof. split; apply buildState_partitionComplete. Qed.

(** C1 at a source select whose first option carries data-key="fsm-1" and
    whose second option is selected: once the first entry of the
    "available" pane is selected, "add selected" leaves "fsm-1" twice in
    "chosen", in both listings.  In the earlier listing a data-key of any
    value has such an effect: with data-key="row-7" on the first option,
    the same two steps put "row-7", a key of no item, into "chosen". *)
Theorem partition_broken_by_data_key :
  let start := Full.new tagged true "contains" false in
  let picked := Full.handle (SelectionChange Available [0%nat]) start in
  let after := Full.handle (Click AddSelected) picked in
  let after' :=
    Basic.handle (Click AddSelected)
      (Basic.handle (SelectionChange Available [0%nat])
         (Basic.new tagged true "contains" false)) in
  let after'' :=
    Basic.handle (Click AddSelected)
      (Basic.handle (SelectionChange Available [0%nat])
         (Basic.new labelled true "contains" false)) in
  available start ++ chosen start = ["fsm-0"; "fsm-1"]
  ∧ registryKeys start ≡ₚ ["fsm-0"; "fsm-1"]
  ∧ map dataset_key (availableSelect start) = [Some "fsm-1"]
  ∧ _getSelectedKeys (availableSelect picked) = ["fsm-1"]
  ∧ available after ++ chosen after = ["fsm-0"; "fsm-1"; "fsm-1"]
  ∧ registryKeys after ≡ₚ ["fsm-0"; "fsm-1"]
  ∧ ¬ NoDup (available after ++ chosen after)
  ∧ ¬ partitionComplete after
  ∧ available after' ++ chosen after' = ["fsm-0"; "fsm-1"; "fsm-1"]
  ∧ ¬ partitionComplete after'
  ∧ available after'' ++ chosen after'' = ["fsm-0"; "fsm-1"; "row-7"]
  ∧ options after'' !! "row-7" = None
  ∧ ¬ partitionComplete after''.
Proof.
  assert (Hdup : ¬ NoDup ["fsm-0"; "fsm-1"; "fsm-1"]).
  { intros H. apply NoDup_cons in H as [_ H]. apply NoDup_cons in H as [H _].
    apply H. by left. }
  intros start picked after after' after''.
  assert (Hafter : available after ++ chosen after = ["fsm-0"; "fsm-1"; "fsm-1"])
    by by vm_compute.
  assert (Hafter' : available after' ++ chosen after' = ["fsm-0"; "fsm-1"; "fsm-1"])
    by by vm_compute.
  assert (Hafter'' : available after'' ++ chosen after'' = ["fsm-0"; "fsm-1"; "row-7"])
    by by vm_compute.
  assert (Hrow : options after'' !! "row-7" = None) by by vm_compute.
  assert (Hreg : registryKeys after ≡ₚ ["fsm-0"; "fsm-1"]).
  { vm_compute. solve_Permutation. }
  clearbody after after' after''.
  split; [by vm_compute|]. split; [vm_compute; solve_Permutation|].
  split; [by vm_compute|]. split; [by vm_compute|]. split; [done|].
  split; [done|].
  split; [by rewrite Hafter|].
  split.
  { unfold partitionComplete. rewrite Hafter. intros H. apply Hdup.
    rewrite H. unfold registryKeys. apply NoDup_elements. }
  split; [done|].
  split.
  { unfold partitionComplete. rewrite Hafter'. intros H. apply Hdup.
    rewrite H. unfold registryKeys. apply NoDup_elements. }
  split; [done|]. split; [done|].
  unfold partitionComplete, registryKeys. rewrite Hafter''. intros H.
  assert (Hin : "row-7" ∈ elements (dom (options after''))).
  { rewrite <- H. set_solver. }
  apply elem_of_elements, elem_of_dom in Hin as [meta Hmeta]. congruence.
Qed.

(** The same invariant in the earlier listing. *)
Lemma Basic_transfer_inv (keys : list string) (fromType toType : PaneType)
    (this : Widget) :
  fromType ≠ toType → keys `sublist_of` partition fromType this →
  widgetInv this → widgetInv (Basic._transfer keys fromType toType this).
Proof.
  intros Hne Hsub (Hpc & Hpanes & Hnk).
  destruct (Basic_transfer_config keys fromType toType this) as (Hopt & _).
  split; [|split].
  - unfold partitionComplete, registryKeys. rewrite Hopt.
    pose proof (Basic_transfer_partitions keys fromType toType this Available) as Ha.
    pose proof (Basic_transfer_partitions keys fromType toType this Chosen) as Hc.
    cbn [partition] in Ha, Hc. rewrite Ha, Hc.
    rewrite Full_transfer_perm; [done | done | | done].
    by apply partitionComplete_NoDup.
  - destruct (Basic_transfer_shape keys fromType toType this) as (w & -> & Hw).
    intros type.
    destruct (dispatchChange_pane type (_syncToOriginal (Basic._render w))) as [-> ->].
    destruct (syncToOriginal_pane type (Basic._render w)) as [-> ->].
    apply Basic_render_panes. unfold noDataKey. by rewrite Hw.
  - unfold noDataKey. by rewrite Hopt.
Qed.

Lemma Basic_handle_inv (e : Event) (this : Widget) :
  widgetInv this → widgetInv (Basic.handle e this).
Proof.
  intros Hinv.
  assert (Hsel : ∀ fromType toType, fromType ≠ toType →
            widgetInv (Basic._moveSelected fromType toType this)).
  { intros fromType toType Hne. unfold Basic._moveSelected.
    destruct (0 <? _)%nat; [|done]. apply Basic_transfer_inv; [done | | done].
    apply selected_sublist, Hinv. }
  assert (Hall : ∀ fromType toType, fromType ≠ toType →
            widgetInv (Basic._moveAll fromType toType this)).
  { intros fromType toType Hne. unfold Basic._moveAll.
    destruct (0 <? _)%nat; [|done]. by apply Basic_transfer_inv. }
  destruct e as [type text|type|type selected|[|]|[|]|[| | |]]; simpl;
    try done; try (by apply Hsel); try (by apply Hall).
  - destruct (paneFilter type this) eqn:E; [|done].
    destruct (userTypes_inv type text this Hinv) as (Hpc & Hpanes & Hnk).
    split; [|split].
    + by destruct type.
    + by apply Basic_renderPane_panes.
    + by destruct type.
  - destruct (userSelects_inv type selected this Hinv) as (Hpc & Hpanes & Hnk).
    split; [done|]. split; [|done].
    intros type'. rewrite Basic_updateButtons_pane. apply Hpanes.
Qed.

Lemma Basic_reachable_inv (select : list OptionElement)
    (sf : bool) (mode : string) (pso : bool) (this : Widget) :
  Forall (λ option, el_dataset option !! "key" = None) select →
  reachable Basic.handle (Basic.new select sf mode pso) this → widgetInv this.
Proof.
  intros Hsel. induction 1 as [|e this _ IH].
  - unfold Basic.new, Basic._init. set (built := _buildState _).
    assert (Hpc : partitionComplete built) by apply buildState_partitionComplete.
    assert (Hnk : noDataKey built) by by apply buildState_noDataKey.
    clearbody built. split; [done|]. split; [|done].
    by apply Basic_render_panes.
  - by apply Basic_handle_inv.
Qed.

(** The earlier listing keeps the partitions complete under the same
    condition on the source select. *)
Theorem Basic_partition_complete (select : list OptionElement)
    (sf : bool) (mode : string) (pso : bool) (this : Widget) :
  Forall (λ option, el_dataset option !! "key" = None) select →
  reachable Basic.handle (Basic.new select sf mode pso) this →
  available this ++ chosen this ≡ₚ registryKeys this.
Proof.
  intros Hsel Hreach.
  by destruct (Basic_reachable_inv _ _ _ _ _ Hsel Hreach) as (Hpc & _).
Qed.

Lemma Basic_partition_complete_witness :
  let this := Basic.handle (Click AddAll) (Basic.new fruits true "contains" false) in
  available this ++ chosen this ≡ₚ registryKeys this.
Proof.
  intros this.
  apply (Basic_partition_complete fruits true "contains" false this).
  - compute_done.
  - apply reachable_step, reachable_init.
Defined.

(** ** The scenarios of the specification *)

(** Five items, the one at index 2 selected; "add all" empties
    "available", leaves "chosen" in index order, selects every option of
    the source select and dispatches one change event. *)
Example scenario_add_all :
  let start := Full.new letters true "contains" false in
  let after := Full.handle (Click AddAll) start in
  available start = ["fsm-0"; "fsm-1"; "fsm-3"; "fsm-4"]
  ∧ chosen start = ["fsm-2"]
  ∧ available after = []
  ∧ chosen after = ["fsm-0"; "fsm-1"; "fsm-2"; "fsm-3"; "fsm-4"]
  ∧ map el_selected (selectElement after) = [true; true; true; true; true]
  ∧ filter (λ e, e = DispatchedChange) (trace after) = [DispatchedChange].
Proof. do 5 (split; [by vm_compute|]). by vm_compute. Qed.

(** With [preserveSelectionOrder], keys moved into "chosen" one at a time
    stay in the order of their arrival; moving one back re-sorts
    "available" and leaves the rest of "chosen" as it was. *)
Example scenario_preserve_order :
  let start := Full.new letters true "contains" true in
  let one := Full._transfer ["fsm-0"] Available Chosen start in
  let two := Full._transfer ["fsm-4"] Available Chosen one in
  let back := Full._transfer ["fsm-0"] Chosen Available two in
  chosen start = ["fsm-2"]
  ∧ chosen two = ["fsm-2"; "fsm-0"; "fsm-4"]
  ∧ available two = ["fsm-1"; "fsm-3"]
  ∧ available back = ["fsm-0"; "fsm-1"; "fsm-3"]
  ∧ chosen back = ["fsm-2"; "fsm-4"].
Proof. do 4 (split; [by vm_compute|]). by vm_compute. Qed.

(** * Further properties *)

(** ** Sorting *)


(** ** The state after construction *)

Lemma builtOptions_index (select : list OptionElement) (this : Widget) (j : nat) :
  options this = builtOptions select 0 ∅ → (j < length select)%nat →
  indexOrMax this (keyOf j) = Z.of_nat j.
Proof.
  intros Ho Hj. destruct (lookup_lt_is_Some_2 select j Hj) as [o Ho'].
  unfold indexOrMax. rewrite Ho.
  by rewrite (builtOptions_lookup select 0 ∅ j o Ho').
Qed.

Lemma builtKeys_sorted (b : bool) (this : Widget) (l : list OptionElement) : ∀ i,
  (∀ j, (j < length l)%nat → indexOrMax this (keyOf (i + j)) = Z.of_nat (i + j)) →
  indexSorted this (builtKeys b l i).
Proof.
  induction l as [|o l IH]; intros i Hidx; simpl; [constructor|].
  assert (Hrest : indexSorted this (builtKeys b l (S i))).
  { apply IH. intros j Hj. replace (S i + j)%nat with (i + S j)%nat by lia.
    apply Hidx. simpl. lia. }
  destruct (Bool.eqb _ _); simpl; [|done]. constructor; [done|].
  apply Forall_forall. intros k (j & o' & Hj & _ & ->)%elem_of_builtKeys.
  apply lookup_lt_Some in Hj.
  rewrite <- (Nat.add_0_r i) at 1.
  rewrite (Hidx 0%nat) by (simpl; lia).
  replace (S i + j)%nat with (i + S j)%nat by lia.
  rewrite (Hidx (S j)) by (simpl; lia). lia.
Qed.

Lemma built_partitions (select : list OptionElement)
    (sf : bool) (mode : string) (pso : bool) (this : Widget) :
  this = _buildState (construct select sf mode pso)
  ∨ this = Full.new select sf mode pso ∨ this = Basic.new select sf mode pso →
  available this = builtKeys false select 0
  ∧ chosen this = builtKeys true select 0
  ∧ ∀ b, indexSorted this (builtKeys b select 0).
Proof.
  intros Hthis.
  destruct (new_model _ _ _ _ _ Hthis) as (Ho & Ha & Hc & _).
  destruct (buildState_spec select sf mode pso) as (Hbo & Hba & Hbc & _).
  set (built := _buildState _) in *. clearbody built.
  assert (Hsorted : ∀ b, indexSorted built (builtKeys b select 0)).
  { intros b. apply builtKeys_sorted. intros j Hj.
    by apply (builtOptions_index select). }
  assert (Hsorted' : ∀ b, indexSorted this (builtKeys b select 0)).
  { intros b. by apply (indexSorted_options built this). }
  rewrite Ha, Hc, Hba, Hbc.
  rewrite (sortByIndex_id built (builtKeys false select 0)) by done.
  assert ((if pso then builtKeys true select 0
           else _sortByIndex built (builtKeys true select 0))
          = builtKeys true select 0) as ->.
  { destruct pso; [done|]. by apply sortByIndex_id. }
  done.
Qed.

(** After construction, in either listing and whatever
    [preserveSelectionOrder] says, "available" holds the keys of the
    unselected options and "chosen" the keys of the selected options, both
    in document order, which is index order: the sorts of [_buildState]
    find their argument sorted. *)
Theorem buildState_document_order (select : list OptionElement)
    (sf : bool) (mode : string) (pso : bool) (this : Widget) :
  this = _buildState (construct select sf mode pso)
  ∨ this = Full.new select sf mode pso ∨ this = Basic.new select sf mode pso →
  available this = builtKeys false select 0
  ∧ chosen this = builtKeys true select 0
  ∧ indexSorted this (available this) ∧ indexSorted this (chosen this).
Proof.
  intros Hthis.
  destruct (built_partitions _ _ _ _ _ Hthis) as (Ha & Hc & Hsorted).
  rewrite Ha, Hc. split; [done|]. split; [done|]. split; apply Hsorted.
Qed.

Lemma buildState_document_order_witness :
  let this := Full.new fruits true "contains" true in
  available this = builtKeys false fruits 0
  ∧ chosen this = builtKeys true fruits 0
  ∧ indexSorted this (available this) ∧ indexSorted this (chosen this).
Proof.
  intros this.
  apply (buildState_document_order fruits true "contains" true this).
  right. left. reflexivity.
Defined.

(** ** What no event changes, and what every state keeps *)

Lemma Full_transfer_moved (keys : list string) (fromType toType : PaneType)
    (this : Widget) :
  Full._transfer keys fromType toType this
  = _dispatchChange (Full._render (_syncToOriginal (moved keys fromType toType this))).
Proof. reflexivity. Qed.

Lemma Basic_transfer_moved (keys : list string) (fromType toType : PaneType)
    (this : Widget) :
  Basic._transfer keys fromType toType this
  = _dispatchChange (_syncToOriginal (Basic._render (moved keys fromType toType this))).
Proof. reflexivity. Qed.

Lemma moved_frame (keys : list string) (fromType toType : PaneType) (this : Widget) :
  let this' := moved keys fromType toType this in
  options this' = options this
  ∧ preserveSelectionOrder this' = preserveSelectionOrder this
  ∧ selectElement this' = selectElement this
  ∧ trace this' = trace this.
Proof.
  unfold moved.
  by destruct fromType, toType; destruct (preserveSelectionOrder this) eqn:E;
    simpl; rewrite ?E.
Qed.

Lemma moved_partitions (keys : list string) (fromType toType : PaneType)
    (this : Widget) (type : PaneType) :
  partition type (moved keys fromType toType this)
  = partition type (Full._transfer keys fromType toType this).
Proof.
  unfold moved, Full._transfer.
  destruct type, fromType, toType;
    destruct (preserveSelectionOrder this) eqn:E; simpl; rewrite ?E; reflexivity.
Qed.

(** The views of a widget that rendering and notifying leave alone. *)
Lemma render_frame (this : Widget) :
  selectElement (Full._render this) = selectElement this
  ∧ selectElement (Basic._render this) = selectElement this
  ∧ selectElement (_dispatchChange this) = selectElement this
  ∧ model (_dispatchChange this) = model this.
Proof. done. Qed.

Lemma set_el_selected_twice (a b : bool) (o : OptionElement) :
  set_el_selected a (set_el_selected b o) = set_el_selected a o.
Proof. done. Qed.

Lemma set_el_selected_id (o : OptionElement) :
  set_el_selected (el_selected o) o = o.
Proof. by destruct o. Qed.

(** [_syncToOriginal] writes [selected] of the <option> in position [i]
    from the membership of that option's key in "chosen", and nothing
    else, when the registry is the one [_buildState] made. *)
Lemma syncToOriginal_lookup (select : list OptionElement) (this : Widget) (i : nat) :
  options this = builtOptions select 0 ∅ →
  length (selectElement this) = length select →
  selectElement (_syncToOriginal this) !! i
  = set_el_selected (bool_decide (keyOf i ∈ chosen this)) <$> selectElement this !! i.
Proof.
  intros Ho Hlen. unfold _syncToOriginal. simpl.
  set (els := selectElement this). set (chosenSet := chosen this).
  set (f := λ (_ : string) (meta : Meta) (els : list OptionElement),
              alter (set_el_selected (bool_decide (key meta ∈ chosenSet)))
                    (original meta) els).
  set (P := λ (r : list OptionElement) (m : gmap string Meta),
              m ⊆ options this →
              ∀ j, r !! j = if decide (is_Some (m !! keyOf j))
                            then set_el_selected (bool_decide (keyOf j ∈ chosenSet))
                                 <$> els !! j
                            else els !! j).
  assert (H : P (map_fold f els (options this)) (options this)).
  { apply (map_fold_weak_ind P f els); unfold P.
    - intros _ j. rewrite lookup_empty. case_decide as Hd; [by destruct Hd | done].
    - intros k x m r Hk IH Hsub j.
      assert (Hm : m ⊆ options this).
      { etrans; [|exact Hsub]. by apply insert_subseteq. }
      specialize (IH Hm).
      assert (Hx : options this !! k = Some x).
      { eapply lookup_weaken; [|exact Hsub]. apply lookup_insert_eq. }
      rewrite Ho in Hx.
      apply builtOptions_Some in Hx as [Hx | (p & o & Hp & -> & ->)]; [done|].
      simpl in *. unfold f. simpl.
      destruct (decide (p = j)) as [-> | Hne].
      + rewrite list_lookup_alter_eq, IH, lookup_insert_eq, Hk.
        case_decide as Hd1; [by destruct Hd1|].
        case_decide as Hd2; [done | by destruct Hd2].
      + rewrite list_lookup_alter_ne, IH by done.
        rewrite lookup_insert_ne; [done|]. intros Heq. by apply (inj keyOf) in Heq. }
  unfold P in H. rewrite H by done. case_decide as Hd; [done|].
  destruct (els !! i) as [o|] eqn:Hi; [|done]. exfalso. apply Hd.
  apply lookup_lt_Some in Hi. unfold els in Hi. rewrite Hlen in Hi.
  destruct (lookup_lt_is_Some_2 select i Hi) as [o' Ho'].
  rewrite Ho. exists (metaOf o' i). by apply (builtOptions_lookup select 0 ∅ i o').
Qed.

Lemma sourceMirrorsChosen_length (select : list OptionElement) (this : Widget) :
  sourceMirrorsChosen select this → length (selectElement this) = length select.
Proof.
  intros H. apply Nat.le_antisymm; apply Nat.nlt_ge; intros Hlt.
  - destruct (lookup_lt_is_Some_2 _ _ Hlt) as [o Ho].
    rewrite H, (lookup_ge_None_2 select) in Ho by lia. done.
  - destruct (lookup_lt_is_Some_2 _ _ Hlt) as [o Ho].
    pose proof (H (length (selectElement this))) as H'. rewrite Ho in H'.
    rewrite lookup_ge_None_2 in H' by lia. done.
Qed.

Lemma moved_engineInv (select : list OptionElement) (pso : bool)
    (keys : list string) (fromType toType : PaneType) (this : Widget) :
  fromType ≠ toType → engineInv select pso this →
  let this' := moved keys fromType toType this in
  options this' = builtOptions select 0 ∅
  ∧ preserveSelectionOrder this' = pso
  ∧ indexSorted this' (available this')
  ∧ (pso = false → indexSorted this' (chosen this'))
  ∧ selectElement this' = selectElement this.
Proof.
  intros Hne (Ho & Hp & Ha & Hc & Hm) this'.
  destruct (moved_frame keys fromType toType this) as (Ho' & Hp' & He' & _).
  fold this' in Ho', Hp', He'.
  assert (Hfrom : indexSorted this' (partition fromType this')).
  { unfold this'. rewrite moved_partitions, Full_transfer_from by done.
    rewrite indexSorted_options by done. apply sortByIndex_sorted. }
  assert (Hto : preserveSelectionOrder this && bool_decide (toType = Chosen) = false →
                indexSorted this' (partition toType this')).
  { intros E. unfold this'. rewrite moved_partitions, Full_transfer_to, E by done.
    rewrite indexSorted_options by done. apply sortByIndex_sorted. }
  split; [congruence|]. split; [congruence|]. clearbody this'.
  destruct fromType, toType; try done; simpl in *.
  - split; [done|]. split; [|done]. intros ->. apply Hto. by rewrite Hp.
  - split; [apply Hto, andb_false_r|]. by split.
Qed.

Lemma effects_view (this : Widget) :
  engineView (_dispatchChange this) = engineView this
  ∧ engineView (Full._render this) = engineView this
  ∧ engineView (Basic._render this) = engineView this.
Proof. done. Qed.

Lemma syncToOriginal_view (this : Widget) :
  options (_syncToOriginal this) = options this
  ∧ available (_syncToOriginal this) = available this
  ∧ chosen (_syncToOriginal this) = chosen this
  ∧ preserveSelectionOrder (_syncToOriginal this) = preserveSelectionOrder this.
Proof. done. Qed.

Lemma engineView_engineInv (select : list OptionElement) (pso : bool) (a b : Widget) :
  engineView a = engineView b → engineInv select pso b → engineInv select pso a.
Proof.
  unfold engineView. intros [= Ho Ha Hc Hp He] (H1 & H2 & H3 & H4 & H5).
  unfold engineInv, sourceMirrorsChosen.
  rewrite Ha, Hc, Hp, He, Ho, !(indexSorted_options b a) by done. done.
Qed.

(** Synchronising establishes the mirror, on a widget whose source select
    holds the original <option>s up to [selected]. *)
Lemma syncToOriginal_engineInv (select : list OptionElement) (pso : bool)
    (this : Widget) :
  options this = builtOptions select 0 ∅ →
  preserveSelectionOrder this = pso →
  indexSorted this (available this) →
  (pso = false → indexSorted this (chosen this)) →
  (∀ i, ∃ b, selectElement this !! i = set_el_selected b <$> select !! i) →
  engineInv select pso (_syncToOriginal this).
Proof.
  intros Ho Hp Ha Hc He.
  destruct (syncToOriginal_view this) as (Ho' & Ha' & Hc' & Hp').
  assert (Hlen : length (selectElement this) = length select).
  { apply Nat.le_antisymm; apply Nat.nlt_ge; intros Hlt.
    - destruct (lookup_lt_is_Some_2 _ _ Hlt) as [o Hi].
      destruct (He (length select)) as [b Hb].
      rewrite Hb, (lookup_ge_None_2 select) in Hi by lia. done.
    - destruct (lookup_lt_is_Some_2 _ _ Hlt) as [o Hi].
      destruct (He (length (selectElement this))) as [b Hb]. rewrite Hi in Hb.
      rewrite lookup_ge_None_2 in Hb by lia. done. }
  unfold engineInv. rewrite Ho', Ha', Hc', Hp'.
  rewrite !(indexSorted_options this (_syncToOriginal this)) by done.
  split; [done|]. split; [done|]. split; [done|]. split; [done|].
  intros i. rewrite Hc', (syncToOriginal_lookup select) by done.
  destruct (He i) as [b ->]. by destruct (select !! i).
Qed.

Lemma Basic_render_fields (this : Widget) :
  options (Basic._render this) = options this
  ∧ available (Basic._render this) = available this
  ∧ chosen (Basic._render this) = chosen this
  ∧ preserveSelectionOrder (Basic._render this) = preserveSelectionOrder this
  ∧ selectElement (Basic._render this) = selectElement this.
Proof. done. Qed.

Lemma Full_transfer_engineInv (select : list OptionElement) (pso : bool)
    (keys : list string) (fromType toType : PaneType) (this : Widget) :
  fromType ≠ toType → engineInv select pso this →
  engineInv select pso (Full._transfer keys fromType toType this).
Proof.
  intros Hne Hinv.
  destruct (moved_engineInv select pso keys fromType toType this Hne Hinv)
    as (Ho & Hp & Ha & Hc & He).
  destruct Hinv as (_ & _ & _ & _ & Hm).
  rewrite Full_transfer_moved. set (w := moved keys fromType toType this) in *.
  clearbody w.
  destruct (effects_view (Full._render (_syncToOriginal w))) as (Hd & _ & _).
  destruct (effects_view (_syncToOriginal w)) as (_ & Hr & _).
  eapply engineView_engineInv; [by rewrite Hd, Hr|].
  apply syncToOriginal_engineInv; try done.
  intros i. rewrite He, Hm. eauto.
Qed.

Lemma Basic_transfer_engineInv (select : list OptionElement) (pso : bool)
    (keys : list string) (fromType toType : PaneType) (this : Widget) :
  fromType ≠ toType → engineInv select pso this →
  engineInv select pso (Basic._transfer keys fromType toType this).
Proof.
  intros Hne Hinv.
  destruct (moved_engineInv select pso keys fromType toType this Hne Hinv)
    as (Ho & Hp & Ha & Hc & He).
  destruct Hinv as (_ & _ & _ & _ & Hm).
  rewrite Basic_transfer_moved. set (w := moved keys fromType toType this) in *.
  clearbody w.
  destruct (effects_view (_syncToOriginal (Basic._render w))) as (Hd & _ & _).
  destruct (Basic_render_fields w) as (Hro & Hra & Hrc & Hrp & Hre).
  set (w' := Basic._render w) in *. clearbody w'.
  eapply engineView_engineInv; [exact Hd|].
  apply syncToOriginal_engineInv.
  - congruence.
  - congruence.
  - rewrite Hra, indexSorted_options; done.
  - intros Hpso. rewrite Hrc, indexSorted_options; auto.
  - intros i. rewrite Hre, He, Hm. eauto.
Qed.

Lemma handle_frame (e : Event) (this : Widget) :
  match e with
  | FilterInput _ _ | FilterTimeout _ | SelectionChange _ _ =>
      engineView (Full.handle e this) = engineView this
      ∧ engineView (Basic.handle e this) = engineView this
  | _ => True
  end.
Proof.
  destruct e as [type text|type|type selected| | |]; try done; simpl.
  - unfold userTypes. destruct type; simpl.
    + by destruct (availableFilter this).
    + by destruct (chosenFilter this).
  - by destruct type.
  - by destruct type.
Qed.

Lemma new_engineInv (select : list OptionElement)
    (sf : bool) (mode : string) (pso : bool) (this : Widget) :
  this = Full.new select sf mode pso ∨ this = Basic.new select sf mode pso →
  engineInv select pso this.
Proof.
  intros Hthis.
  assert (Hthis' : this = _buildState (construct select sf mode pso)
                   ∨ this = Full.new select sf mode pso
                   ∨ this = Basic.new select sf mode pso) by tauto.
  destruct (built_partitions _ _ _ _ _ Hthis') as (Ha & Hc & Hsorted).
  assert (Hsa : indexSorted this (available this)) by (rewrite Ha; apply Hsorted).
  assert (Hsc : indexSorted this (chosen this)) by (rewrite Hc; apply Hsorted).
  destruct (new_model _ _ _ _ _ Hthis') as (Ho & _ & _ & Hp).
  destruct (buildState_spec select sf mode pso) as (Hbo & _ & _ & Hbp & _ & _ & Hbe).
  assert (He : selectElement this = select).
  { rewrite <- Hbe. by destruct Hthis as [-> | ->]. }
  split; [congruence|]. split; [congruence|]. split; [done|]. split; [done|].
  intros i. rewrite He. destruct (select !! i) as [o|] eqn:Hi; [|done]. simpl.
  assert (Hsel : keyOf i ∈ chosen this ↔ el_selected o = true).
  { rewrite Hc, elem_of_builtKeys. split.
    - intros (j & o' & Hj & Hb & Hk). apply (inj keyOf) in Hk. simpl in Hk.
      subst j. congruence.
    - intros Hb. by exists i, o. }
  rewrite <- (set_el_selected_id o) at 1. f_equal.
  destruct (el_selected o).
  - rewrite bool_decide_eq_true_2; [done|]. by apply Hsel.
  - rewrite bool_decide_eq_false_2; [done|]. by intros H%Hsel.
Qed.

Lemma Full_handle_engineInv (select : list OptionElement) (pso : bool)
    (e : Event) (this : Widget) :
  engineInv select pso this → engineInv select pso (Full.handle e this).
Proof.
  intros Hinv.
  assert (Hsel : ∀ fromType toType, fromType ≠ toType →
            engineInv select pso (Full._moveSelected fromType toType this)).
  { intros fromType toType Hne. unfold Full._moveSelected.
    destruct (0 <? _)%nat; [|done]. by apply Full_transfer_engineInv. }
  assert (Hall : ∀ fromType toType, fromType ≠ toType →
            engineInv select pso (Full._moveAll fromType toType this)).
  { intros fromType toType Hne. unfold Full._moveAll.
    destruct (0 <? _)%nat; [|done]. by apply Full_transfer_engineInv. }
  pose proof (handle_frame e this) as Hframe.
  destruct e as [type text|type|type selected|[|]|[|]|[| | |]];
    try (eapply engineView_engineInv; [apply Hframe | done]);
    simpl; try (by apply Hsel); by apply Hall.
Qed.

Lemma Basic_handle_engineInv (select : list OptionElement) (pso : bool)
    (e : Event) (this : Widget) :
  engineInv select pso this → engineInv select pso (Basic.handle e this).
Proof.
  intros Hinv.
  assert (Hsel : ∀ fromType toType, fromType ≠ toType →
            engineInv select pso (Basic._moveSelected fromType toType this)).
  { intros fromType toType Hne. unfold Basic._moveSelected.
    destruct (0 <? _)%nat; [|done]. by apply Basic_transfer_engineInv. }
  assert (Hall : ∀ fromType toType, fromType ≠ toType →
            engineInv select pso (Basic._moveAll fromType toType this)).
  { intros fromType toType Hne. unfold Basic._moveAll.
    destruct (0 <? _)%nat; [|done]. by apply Basic_transfer_engineInv. }
  pose proof (handle_frame e this) as Hframe.
  destruct e as [type text|type|type selected|[|]|[|]|[| | |]];
    try (eapply engineView_engineInv; [apply Hframe | done]);
    simpl; try done; try (by apply Hsel); by apply Hall.
Qed.

Lemma reachable_engineInv (select : list OptionElement)
    (sf : bool) (mode : string) (pso : bool) (this : Widget) :
  reachable Full.handle (Full.new select sf mode pso) this
  ∨ reachable Basic.handle (Basic.new select sf mode pso) this →
  engineInv select pso this.
Proof.
  intros [H | H]; induction H as [|e this _ IH].
  - apply (new_engineInv select sf mode). by left.
  - by apply Full_handle_engineInv.
  - apply (new_engineInv select sf mode). by right.
  - by apply Basic_handle_engineInv.
Qed.

Lemma builtOptions_size (l : list OptionElement) : ∀ i (m : gmap string Meta),
  (∀ j, (i ≤ j)%nat → m !! keyOf j = None) →
  size (builtOptions l i m) = (size m + length l)%nat.
Proof.
  induction l as [|o l IH]; intros i m Hm; simpl; [lia|].
  rewrite IH.
  - rewrite map_size_insert_None by (apply Hm; lia). lia.
  - intros j Hj. rewrite lookup_insert_ne; [apply Hm; lia|].
    intros Hk. apply (inj keyOf) in Hk. lia.
Qed.

(** In every state of a widget of either listing, the registry is the one
    construction made: one entry per source option, under the key of the
    option's position; no item is added, removed or renumbered. *)
Theorem registry_is_fixed (select : list OptionElement)
    (sf : bool) (mode : string) (pso : bool) (this : Widget) :
  reachable Full.handle (Full.new select sf mode pso) this
  ∨ reachable Basic.handle (Basic.new select sf mode pso) this →
  (∀ i option, select !! i = Some option →
               options this !! keyOf i = Some (metaOf option i))
  ∧ (∀ k meta, options this !! k = Some meta →
               ∃ i option, select !! i = Some option ∧ k = keyOf i
                           ∧ meta = metaOf option i)
  ∧ size (options this) = length select.
Proof.
  intros Hreach. destruct (reachable_engineInv _ _ _ _ _ Hreach) as (Ho & _).
  rewrite Ho. split; [|split].
  - intros i o Hi. by apply (builtOptions_lookup select 0 ∅ i o).
  - intros k meta Hk.
    by apply builtOptions_Some in Hk as [Hk | (j & o & Hj & -> & ->)]; eauto.
  - rewrite builtOptions_size; [by rewrite map_size_empty | done].
Qed.

Lemma registry_is_fixed_witness :
  let this := Full.handle (Click AddAll) (Full.new fruits true "contains" false) in
  (∀ i option, fruits !! i = Some option →
               options this !! keyOf i = Some (metaOf option i))
  ∧ (∀ k meta, options this !! k = Some meta →
               ∃ i option, fruits !! i = Some option ∧ k = keyOf i
                           ∧ meta = metaOf option i)
  ∧ size (options this) = length fruits.
Proof.
  intros this. apply (registry_is_fixed fruits true "contains" false this).
  left. apply reachable_step, reachable_init.
Defined.



(** In every state of a widget of either listing, the source select holds
    the <option>s it was built from, unchanged but for [selected], and the
    <option> in position [i] is selected exactly when its key is in
    "chosen": the form the page submits always mirrors the chosen pane. *)
Theorem source_mirrors_chosen (select : list OptionElement)
    (sf : bool) (mode : string) (pso : bool) (this : Widget) :
  reachable Full.handle (Full.new select sf mode pso) this
  ∨ reachable Basic.handle (Basic.new select sf mode pso) this →
  length (selectElement this) = length select
  ∧ ∀ i option, select !! i = Some option →
      ∃ current, selectElement this !! i = Some current
        ∧ (el_selected current = true ↔ keyOf i ∈ chosen this)
        ∧ el_value current = el_value option ∧ el_text current = el_text option
        ∧ el_disabled current = el_disabled option
        ∧ el_title current = el_title option
        ∧ el_dataset current = el_dataset option.
Proof.
  intros Hreach.
  destruct (reachable_engineInv _ _ _ _ _ Hreach) as (_ & _ & _ & _ & Hm).
  split; [by apply sourceMirrorsChosen_length|].
  intros i o Hi. eexists. split; [by rewrite Hm, Hi|]. simpl.
  split; [|done]. apply bool_decide_eq_true.
Qed.

Lemma source_mirrors_chosen_witness :
  let this := Full.handle (Click AddAll) (Full.new fruits true "contains" false) in
  length (selectElement this) = length fruits
  ∧ ∀ i option, fruits !! i = Some option →
      ∃ current, selectElement this !! i = Some current
        ∧ (el_selected current = true ↔ keyOf i ∈ chosen this)
        ∧ el_value current = el_value option ∧ el_text current = el_text option
        ∧ el_disabled current = el_disabled option
        ∧ el_title current = el_title option
        ∧ el_dataset current = el_dataset option.
Proof.
  intros this. apply (source_mirrors_chosen fruits true "contains" false this).
  left. apply reachable_step, reachable_init.
Defined.

(** ** Registered keys and the buttons, in the later listing *)

Lemma Full_transfer_registered (keys : list string) (fromType toType : PaneType)
    (this : Widget) :
  fromType ≠ toType → partitionsRegistered this →
  (∀ key, key ∈ keys → is_Some (options this !! key)) →
  partitionsRegistered (Full._transfer keys fromType toType this).
Proof.
  intros Hne Hreg Hkeys key Hin.
  destruct (Full_transfer_config keys fromType toType this) as (-> & _).
  assert (Hold : key ∈ partition fromType this ∨ key ∈ partition toType this
                 → is_Some (options this !! key)).
  { intros H. apply Hreg, elem_of_app. destruct fromType, toType; simpl in *; tauto. }
  assert (Hin' : key ∈ partition fromType (Full._transfer keys fromType toType this)
                 ∨ key ∈ partition toType (Full._transfer keys fromType toType this)).
  { apply elem_of_app in Hin. destruct fromType, toType; simpl; tauto. }
  destruct (Full_transfer_elem_of keys fromType toType this key Hne) as [Hf Ht].
  rewrite Hf, Ht in Hin'. destruct Hin' as [[? _] | [? | ?]]; auto.
Qed.

Lemma movable_registered (this : Widget) (key : string) :
  Full.movable this key = true → is_Some (options this !! key).
Proof. unfold Full.movable. by destruct (options this !! key). Qed.

Lemma engineView_fields (a b : Widget) :
  engineView a = engineView b →
  options a = options b ∧ available a = available b ∧ chosen a = chosen b.
Proof. unfold engineView. by intros [= -> -> -> _ _]. Qed.

Lemma Full_handle_registered (e : Event) (this : Widget) :
  partitionsRegistered this → partitionsRegistered (Full.handle e this).
Proof.
  intros Hreg.
  assert (Hsel : ∀ fromType toType, fromType ≠ toType →
            partitionsRegistered (Full._moveSelected fromType toType this)).
  { intros fromType toType Hne. unfold Full._moveSelected.
    destruct (0 <? _)%nat; [|done]. apply Full_transfer_registered; [done..|].
    intros key [Hm _]%list_elem_of_filter.
    by apply movable_registered, Is_true_true. }
  assert (Hall : ∀ fromType toType, fromType ≠ toType →
            partitionsRegistered (Full._moveAll fromType toType this)).
  { intros fromType toType Hne. unfold Full._moveAll.
    destruct (0 <? _)%nat; [|done]. apply Full_transfer_registered; [done..|].
    intros key [Hm _]%list_elem_of_filter.
    by apply movable_registered, Is_true_true. }
  assert (Hframe : ∀ w, engineView w = engineView this → partitionsRegistered w).
  { intros w (Ho & Ha & Hc)%engineView_fields.
    unfold partitionsRegistered. by rewrite Ho, Ha, Hc. }
  destruct e as [type text|type|type selected|[|]|[|]|[| | |]];
    try (by apply Hsel); try (by apply Hall).
  - apply Hframe, (handle_frame (FilterInput type text) this).
  - apply Hframe, (handle_frame (FilterTimeout type) this).
  - apply Hframe, (handle_frame (SelectionChange type selected) this).
Qed.

Lemma partitionComplete_registered (this : Widget) :
  partitionComplete this → partitionsRegistered this.
Proof.
  unfold partitionComplete, registryKeys. intros Hpc key Hin.
  rewrite Hpc in Hin. by apply elem_of_elements, elem_of_dom in Hin.
Qed.

Lemma Full_reachable_registered (select : list OptionElement)
    (sf : bool) (mode : string) (pso : bool) (this : Widget) :
  reachable Full.handle (Full.new select sf mode pso) this →
  partitionsRegistered this.
Proof.
  induction 1 as [|e this _ IH]; [|by apply Full_handle_registered].
  assert (Hpc : partitionComplete (Full.new select sf mode pso))
    by apply buildState_partitionComplete.
  exact (partitionComplete_registered _ Hpc).
Qed.

Lemma Full_updateButtons_fresh (this : Widget) :
  buttons (Full._updateButtons this) = freshButtons this
  ∧ freshButtons (Full._updateButtons this) = freshButtons this.
Proof. done. Qed.

Lemma Full_renderPane_shape (type : PaneType) (this : Widget) :
  ∃ w, Full._renderPane type this = Full._updateButtons w.
Proof. destruct type; eexists; reflexivity. Qed.

Lemma Full_render_shape (this : Widget) :
  ∃ w, Full._render this = Full._updateButtons w.
Proof. eexists. reflexivity. Qed.

Lemma dispatchChange_buttons (this : Widget) :
  buttons (_dispatchChange this) = buttons this
  ∧ freshButtons (_dispatchChange this) = freshButtons this.
Proof. done. Qed.

Lemma userTypes_buttons (type : PaneType) (text : string) (this : Widget) :
  buttons (userTypes type text this) = buttons this
  ∧ freshButtons (userTypes type text this) = freshButtons this.
Proof.
  unfold userTypes. destruct type; simpl.
  - by destruct (availableFilter this).
  - by destruct (chosenFilter this).
Qed.

Lemma Full_transfer_fresh (keys : list string) (fromType toType : PaneType)
    (this : Widget) :
  buttons (Full._transfer keys fromType toType this)
  = freshButtons (Full._transfer keys fromType toType this).
Proof.
  rewrite Full_transfer_moved.
  destruct (Full_render_shape (_syncToOriginal (moved keys fromType toType this)))
    as [w ->].
  destruct (dispatchChange_buttons (Full._updateButtons w)) as [-> ->].
  destruct (Full_updateButtons_fresh w) as [-> ->]. done.
Qed.

Lemma Full_handle_fresh (e : Event) (this : Widget) :
  buttons this = freshButtons this →
  buttons (Full.handle e this) = freshButtons (Full.handle e this).
Proof.
  intros Hfresh.
  assert (Hsel : ∀ fromType toType,
            buttons (Full._moveSelected fromType toType this)
            = freshButtons (Full._moveSelected fromType toType this)).
  { intros fromType toType. unfold Full._moveSelected.
    destruct (0 <? _)%nat; [|done]. apply Full_transfer_fresh. }
  assert (Hall : ∀ fromType toType,
            buttons (Full._moveAll fromType toType this)
            = freshButtons (Full._moveAll fromType toType this)).
  { intros fromType toType. unfold Full._moveAll.
    destruct (0 <? _)%nat; [|done]. apply Full_transfer_fresh. }
  destruct e as [type text|type|type selected|[|]|[|]|[| | |]];
    cbv beta iota delta [Full.handle];
    try (by apply Hsel); try (by apply Hall).
  - destruct (userTypes_buttons type text this) as [-> ->]. done.
  - destruct (Full_renderPane_shape type this) as [w ->].
    by destruct (Full_updateButtons_fresh w) as [-> ->].
  - by destruct (Full_updateButtons_fresh (userSelects type selected this)) as [-> ->].
Qed.

Lemma Full_reachable_fresh (select : list OptionElement)
    (sf : bool) (mode : string) (pso : bool) (this : Widget) :
  reachable Full.handle (Full.new select sf mode pso) this →
  buttons this = freshButtons this.
Proof.
  induction 1 as [|e this _ IH]; [|by apply Full_handle_fresh].
  unfold Full.new, Full._init.
  destruct (Full_render_shape
              (_buildUI (_buildState (construct select sf mode pso)))) as [w ->].
  by destruct (Full_updateButtons_fresh w) as [-> ->].
Qed.

Lemma exists_selected (select : list OptionElement) :
  negb (0 <? length (filter (λ opt, el_selected opt) select))%nat = false
  ↔ ∃ opt, opt ∈ select ∧ el_selected opt = true.
Proof.
  rewrite negb_false_iff, Nat.ltb_lt. split.
  - intros Hlen. destruct (filter _ select) as [|opt l] eqn:E; [simpl in Hlen; lia|].
    assert (Hin : opt ∈ filter (λ opt, el_selected opt) select) by (rewrite E; by left).
    apply list_elem_of_filter in Hin as [Hsel Hin]. exists opt.
    split; [done | by apply Is_true_true].
  - intros (opt & Hin & Hsel).
    assert (Hin' : opt ∈ filter (λ opt, el_selected opt) select).
    { apply list_elem_of_filter. by rewrite Is_true_true. }
    destruct (filter _ select); [by apply elem_of_nil in Hin' | simpl; lia].
Qed.

Lemma exists_enabled (this : Widget) (keys : list string) :
  (∀ key, key ∈ keys → is_Some (options this !! key)) →
  negb (existsb (Full.notDisabled this) keys) = false
  ↔ ∃ key, key ∈ keys ∧ enabledItem this key.
Proof.
  intros Hk. rewrite negb_false_iff, existsb_exists.
  split; intros (key & Hin & H); exists key.
  - apply list_elem_of_In in Hin. split; [done|].
    destruct (Hk key Hin) as [meta Hmeta]. exists meta. split; [done|].
    unfold Full.notDisabled in H. rewrite Hmeta in H. by apply negb_true_iff.
  - split; [by apply list_elem_of_In|]. destruct H as (meta & Hmeta & Hd).
    unfold Full.notDisabled. by rewrite Hmeta, Hd.
Qed.

(** In every state of a widget of the later listing the four buttons are
    up to date: "add selected" / "remove selected" are enabled exactly when
    an <option> of the available / chosen pane is selected, and "add all" /
    "remove all" exactly when "available" / "chosen" holds the key of an
    enabled item.  No event leaves a button stale. *)
Theorem Full_buttons_up_to_date (select : list OptionElement)
    (sf : bool) (mode : string) (pso : bool) (this : Widget) :
  reachable Full.handle (Full.new select sf mode pso) this →
  (addSelected (buttons this) = false
   ↔ ∃ opt, opt ∈ availableSelect this ∧ el_selected opt = true)
  ∧ (removeSelected (buttons this) = false
     ↔ ∃ opt, opt ∈ chosenSelect this ∧ el_selected opt = true)
  ∧ (addAll (buttons this) = false
     ↔ ∃ key, key ∈ available this ∧ enabledItem this key)
  ∧ (removeAll (buttons this) = false
     ↔ ∃ key, key ∈ chosen this ∧ enabledItem this key).
Proof.
  intros Hreach.
  rewrite (Full_reachable_fresh _ _ _ _ _ Hreach).
  pose proof (Full_reachable_registered _ _ _ _ _ Hreach) as Hreg.
  unfold freshButtons. simpl.
  split; [apply exists_selected|]. split; [apply exists_selected|].
  split; apply exists_enabled; intros key Hin; apply Hreg, elem_of_app; auto.
Qed.

Lemma Full_buttons_up_to_date_witness :
  let this :=
    Full.handle (FilterInput Available "zz")
      (Full.handle (SelectionChange Available [0%nat])
         (Full.new fruits true "contains" false)) in
  (addSelected (buttons this) = false
   ↔ ∃ opt, opt ∈ availableSelect this ∧ el_selected opt = true)
  ∧ (removeSelected (buttons this) = false
     ↔ ∃ opt, opt ∈ chosenSelect this ∧ el_selected opt = true)
  ∧ (addAll (buttons this) = false
     ↔ ∃ key, key ∈ available this ∧ enabledItem this key)
  ∧ (removeAll (buttons this) = false
     ↔ ∃ key, key ∈ chosen this ∧ enabledItem this key).
Proof.
  intros this. apply (Full_buttons_up_to_date fruits true "contains" false this).
  apply reachable_step, reachable_step, reachable_init.
Defined.

Lemma Full_moveAll_idle (fromType toType : PaneType) (this : Widget) :
  ((∀ key, key ∈ partition fromType this → ¬ enabledItem this key) →
   Full._moveAll fromType toType this = this)
  ∧ ((∃ key, key ∈ partition fromType this ∧ enabledItem this key) →
     trace (Full._moveAll fromType toType this) = trace this ++ transferEffects).
Proof.
  unfold Full._moveAll. set (keys := filter _ _).
  assert (Hkeys : ∀ key, key ∈ keys ↔ key ∈ partition fromType this ∧ enabledItem this key).
  { intros key. unfold keys. rewrite list_elem_of_filter, <- movable_spec.
    rewrite Is_true_true. tauto. }
  destruct (0 <? length keys)%nat eqn:E.
  - split; [|intros _; apply Full_transfer_trace].
    intros Hnone. destruct keys as [|key ?]; [done|].
    destruct (Hkeys key) as [[? ?] _]; [by left|]. by destruct (Hnone key).
  - apply length_pos_false in E. split; [done|].
    intros [key Hkey%Hkeys]. rewrite E in Hkey. by apply elem_of_nil in Hkey.
Qed.

Lemma trace_app_ne {A} (l l' : list A) : l' ≠ [] → l ++ l' ≠ l.
Proof.
  intros Hne Heq. apply (f_equal length) in Heq. rewrite length_app in Heq.
  destruct l'; [done | simpl in Heq; lia].
Qed.

(** In every state of a widget of the later listing, a bulk button is
    disabled exactly when pressing it would change nothing at all: "add
    all" ("remove all") is disabled if and only if the click handler
    returns the state it was given. *)
Theorem Full_bulk_button_disabled_iff_idle (select : list OptionElement)
    (sf : bool) (mode : string) (pso : bool) (this : Widget) :
  reachable Full.handle (Full.new select sf mode pso) this →
  (addAll (buttons this) = true ↔ Full.handle (Click AddAll) this = this)
  ∧ (removeAll (buttons this) = true ↔ Full.handle (Click RemoveAll) this = this).
Proof.
  intros Hreach.
  rewrite (Full_reachable_fresh _ _ _ _ _ Hreach).
  pose proof (Full_reachable_registered _ _ _ _ _ Hreach) as Hreg.
  assert (H : ∀ fromType toType, fromType ≠ toType →
            negb (existsb (Full.notDisabled this) (partition fromType this)) = true
            ↔ Full._moveAll fromType toType this = this).
  { intros fromType toType Hne.
    destruct (Full_moveAll_idle fromType toType this) as (Hidle & Htrace).
    rewrite <- not_false_iff_true, exists_enabled.
    - split.
      + intros Hnone. apply Hidle. intros key Hin Hen. apply Hnone. eauto.
      + intros Heq Hex. specialize (Htrace Hex). rewrite Heq in Htrace.
        symmetry in Htrace. by apply trace_app_ne in Htrace.
    - intros key Hin. apply Hreg, elem_of_app. destruct fromType; auto. }
  unfold freshButtons. simpl. split.
  - by apply (H Available Chosen).
  - by apply (H Chosen Available).
Qed.

Lemma Full_bulk_button_disabled_iff_idle_witness :
  let this := Full.handle (Click AddAll) (Full.new fruits true "contains" false) in
  (addAll (buttons this) = true ↔ Full.handle (Click AddAll) this = this)
  ∧ (removeAll (buttons this) = true ↔ Full.handle (Click RemoveAll) this = this).
Proof.
  intros this.
  apply (Full_bulk_button_disabled_iff_idle fruits true "contains" false this).
  apply reachable_step, reachable_init.
Defined.

(** ** The effects of each event, in the later listing *)

Lemma Full_renderPane_trace (type : PaneType) (this : Widget) :
  trace (Full._renderPane type this) = trace this ++ [RenderedPane type].
Proof. by destruct type. Qed.

(** What a listener of the later listing lets the outside observe: typing
    into a filter and changing the selection cause no effect at all, a
    timer causes one render of its pane, and a click, double click or
    Enter causes either nothing or one synchronisation, one render of each
    pane and one change event, in this order.  A change event is never
    dispatched twice for one event, and never without a synchronisation
    before it. *)
Theorem Full_handle_effects (e : Event) (this : Widget) :
  ∃ effects, trace (Full.handle e this) = trace this ++ effects
    ∧ match e with
      | FilterInput _ _ | SelectionChange _ _ => effects = []
      | FilterTimeout type => effects = [RenderedPane type]
      | DblClick _ | KeyEnter _ | Click _ =>
          effects = [] ∨ effects = transferEffects
      end.
Proof.
  assert (Hsel : ∀ fromType toType, ∃ effects,
            trace (Full._moveSelected fromType toType this) = trace this ++ effects
            ∧ (effects = [] ∨ effects = transferEffects)).
  { intros fromType toType. unfold Full._moveSelected.
    destruct (0 <? _)%nat.
    - exists transferEffects. split; [apply Full_transfer_trace | by right].
    - exists []. split; [by rewrite app_nil_r | by left]. }
  assert (Hall : ∀ fromType toType, ∃ effects,
            trace (Full._moveAll fromType toType this) = trace this ++ effects
            ∧ (effects = [] ∨ effects = transferEffects)).
  { intros fromType toType. unfold Full._moveAll.
    destruct (0 <? _)%nat.
    - exists transferEffects. split; [apply Full_transfer_trace | by right].
    - exists []. split; [by rewrite app_nil_r | by left]. }
  destruct e as [type text|type|type selected|[|]|[|]|[| | |]];
    cbv beta iota delta [Full.handle];
    try apply Hsel; try apply Hall.
  - exists []. split; [|done]. rewrite app_nil_r. unfold userTypes.
    destruct type; simpl.
    + by destruct (availableFilter this).
    + by destruct (chosenFilter this).
  - exists [RenderedPane type]. split; [apply Full_renderPane_trace | done].
  - exists []. split; [|done]. rewrite app_nil_r. by destruct type.
Qed.

(** ** Rendering a pane *)

Lemma passesFilter_empty (this : Widget) (label : string) :
  _passesFilter this label "" = true.
Proof. done. Qed.

Lemma renderOption_cases (this : Widget) (term : string)
    (previousSelection : list string) (key : string) :
  noDataKey this →
  match renderOption this term previousSelection key with
  | Some opt => shows this term key = true
                ∧ dataset_key opt = Some key
                ∧ el_selected opt = bool_decide (key ∈ previousSelection)
  | None => shows this term key = false
  end.
Proof.
  intros Hnk. unfold renderOption, shows.
  destruct (options this !! key) as [meta|] eqn:Hk; [|done].
  destruct (Js.truthy term) eqn:Et; simpl.
  - destruct (_passesFilter this (label meta) term) eqn:Ep; simpl; [|done].
    split; [done|]. split; [|done]. unfold dataset_key. simpl.
    rewrite lookup_union_r by eauto. apply lookup_singleton_eq.
  - assert (_passesFilter this (label meta) term = true) as ->.
    { unfold _passesFilter. by rewrite Et. }
    split; [done|]. split; [|done]. unfold dataset_key. simpl.
    rewrite lookup_union_r by eauto. apply lookup_singleton_eq.
Qed.

Lemma omap_cons_eq {A B} (f : A → option B) (x : A) (l : list A) :
  omap f (x :: l) = match f x with Some y => y :: omap f l | None => omap f l end.
Proof. done. Qed.

Lemma rendered_keys (this : Widget) (term : string)
    (previousSelection keys : list string) :
  noDataKey this →
  omap dataset_key (omap (renderOption this term previousSelection) keys)
  = filter (λ key, shows this term key) keys.
Proof.
  intros Hnk. induction keys as [|k keys IH]; [done|].
  rewrite filter_cons, omap_cons_eq.
  pose proof (renderOption_cases this term previousSelection k Hnk) as Hk.
  destruct (renderOption this term previousSelection k) as [opt|].
  - destruct Hk as (Hs & Hd & _). rewrite omap_cons_eq, Hd, IH.
    case_decide as Hdec; [done|]. by rewrite Hs in Hdec.
  - rewrite IH. case_decide as Hdec; [|done]. by rewrite Hk in Hdec.
Qed.

Lemma rendered_selected (this : Widget) (term : string)
    (previousSelection keys : list string) (key : string) :
  noDataKey this →
  (∃ opt, opt ∈ omap (renderOption this term previousSelection) keys
          ∧ el_selected opt = true ∧ dataset_key opt = Some key)
  ↔ key ∈ previousSelection ∧ key ∈ keys ∧ shows this term key = true.
Proof.
  intros Hnk. split.
  - intros (opt & (k & Hin & Hr)%list_elem_of_omap & Hsel & Hkey).
    pose proof (renderOption_cases this term previousSelection k Hnk) as Hk.
    rewrite Hr in Hk. destruct Hk as (Hs & Hd & Hb).
    assert (k = key) as -> by congruence.
    rewrite Hsel in Hb. symmetry in Hb. by apply bool_decide_eq_true in Hb.
  - intros (Hprev & Hin & Hs).
    pose proof (renderOption_cases this term previousSelection key Hnk) as Hk.
    destruct (renderOption this term previousSelection key) as [opt|] eqn:Hr;
      [|congruence].
    destruct Hk as (_ & Hd & Hb). exists opt. split; [|split; [|done]].
    + apply list_elem_of_omap. eauto.
    + rewrite Hb. by apply bool_decide_eq_true.
Qed.

Lemma renderPane_pane (type : PaneType) (this this' : Widget) :
  this' = Full._renderPane type this ∨ this' = Basic._renderPane type this →
  paneSelect type this'
  = omap (renderOption this (filterTerm (paneFilter type this))
            (_getSelectedKeys (paneSelect type this)))
         (partition type this)
  ∧ (∀ other, other ≠ type → paneSelect other this' = paneSelect other this)
  ∧ model this' = model this.
Proof.
  intros [-> | ->].
  - split; [apply Full_renderPane_pane|].
    split; [|apply Full_renderPane_model].
    intros other Hne. by apply Full_renderPane_other.
  - split; [apply Basic_renderPane_pane|].
    split; [|apply Basic_renderPane_model].
    intros other Hne. by apply Basic_renderPane_other.
Qed.

Lemma renderPane_keys (type : PaneType) (this this' : Widget) :
  noDataKey this →
  this' = Full._renderPane type this ∨ this' = Basic._renderPane type this →
  omap dataset_key (paneSelect type this')
  = filter (λ key, shows this (filterTerm (paneFilter type this)) key)
      (partition type this)
  ∧ length (paneSelect type this') = length (omap dataset_key (paneSelect type this')).
Proof.
  intros Hnk Hthis'.
  destruct (renderPane_pane type this this' Hthis') as (Hpane & _).
  split.
  - rewrite Hpane. by apply rendered_keys.
  - rewrite Hpane. generalize (partition type this). intros keys.
    induction keys as [|k keys IH]; [done|]. rewrite omap_cons_eq.
    pose proof (renderOption_cases this (filterTerm (paneFilter type this))
                  (_getSelectedKeys (paneSelect type this)) k Hnk) as Hk.
    destruct (renderOption _ _ _ k) as [opt|]; [|done].
    destruct Hk as (_ & Hd & _). rewrite omap_cons_eq, Hd. simpl. by rewrite IH.
Qed.

(** After [_renderPane(type)], in either listing and on a widget none of
    whose items has a data attribute named [key]: the pane holds one
    <option> for each key of its partition that is registered and whose
    label passes the pane's filter, in the partition's order, so an
    unregistered key is skipped and never more is shown than the partition
    holds; with an empty filter every registered key is shown.  The other
    pane, the partitions, the registry and the filters are untouched. *)
Theorem renderPane_shows (type : PaneType) (this this' : Widget) :
  noDataKey this →
  this' = Full._renderPane type this ∨ this' = Basic._renderPane type this →
  let term := filterTerm (paneFilter type this) in
  omap dataset_key (paneSelect type this')
  = filter (λ key, shows this term key) (partition type this)
  ∧ length (paneSelect type this') = length (omap dataset_key (paneSelect type this'))
  ∧ (length (paneSelect type this') ≤ length (partition type this))%nat
  ∧ (term = "" →
     omap dataset_key (paneSelect type this')
     = filter (λ key, is_Some (options this !! key)) (partition type this))
  ∧ (∀ other, other ≠ type → paneSelect other this' = paneSelect other this)
  ∧ model this' = model this.
Proof.
  intros Hnk Hthis' term.
  destruct (renderPane_pane type this this' Hthis') as (_ & Hother & Hmodel).
  destruct (renderPane_keys type this this' Hnk Hthis') as (Hkeys & Hlen).
  fold term in Hkeys.
  split; [done|]. split; [done|]. split; [|split; [|done]].
  - rewrite Hlen, Hkeys. apply length_filter.
  - intros Hterm. rewrite Hkeys. apply list_filter_iff. intros key.
    unfold shows. rewrite Hterm.
    destruct (options this !! key) as [meta|].
    + split; [by eexists|]. intros _. by rewrite passesFilter_empty.
    + split; [done | by intros []].
Qed.

Lemma noDataKey_decide (this : Widget) :
  map_Forall (λ _ meta, dataset meta !! "key" = None) (options this) →
  noDataKey this.
Proof. intros H k meta Hk. by apply (H k meta). Qed.

Lemma renderPane_shows_witness :
  let this :=
    Full.handle (FilterInput Available "an")
      (Full.new fruits true "contains" false) in
  let this' := Full._renderPane Available this in
  let term := filterTerm (paneFilter Available this) in
  omap dataset_key (paneSelect Available this')
  = filter (λ key, shows this term key) (partition Available this)
  ∧ length (paneSelect Available this')
    = length (omap dataset_key (paneSelect Available this'))
  ∧ (length (paneSelect Available this') ≤ length (partition Available this))%nat
  ∧ (term = "" →
     omap dataset_key (paneSelect Available this')
     = filter (λ key, is_Some (options this !! key)) (partition Available this))
  ∧ (∀ other, other ≠ Available → paneSelect other this' = paneSelect other this)
  ∧ model this' = model this.
Proof.
  intros this this'. apply (renderPane_shows Available this this').
  - apply noDataKey_decide. compute_done.
  - left. reflexivity.
Defined.

Example renderPane_shows_run :
  let this :=
    Full.handle (FilterTimeout Available)
      (Full.handle (FilterInput Available " AN ")
         (Full.new fruits true "contains" false)) in
  map el_text (availableSelect this) = ["Banana"]
  ∧ availableCounter this = "(1 / 4)" ∧ chosenCounter this = "(1)".
Proof. split; [by vm_compute|]. split; by vm_compute. Qed.

(** [_renderPane] keeps the user's selection: a key is selected in the
    pane after the render exactly when it was selected in the pane before
    and is still shown (it is in the partition, registered, and its label
    passes the filter). *)
Theorem renderPane_keeps_selection (type : PaneType) (this this' : Widget)
    (key : string) :
  noDataKey this →
  this' = Full._renderPane type this ∨ this' = Basic._renderPane type this →
  visiblySelected type this' key
  ↔ visiblySelected type this key ∧ key ∈ partition type this
    ∧ shows this (filterTerm (paneFilter type this)) key = true.
Proof.
  intros Hnk Hthis'.
  destruct (renderPane_pane type this this' Hthis') as (Hpane & _).
  unfold visiblySelected at 1. rewrite Hpane, rendered_selected by done.
  by rewrite elem_of_getSelectedKeys.
Qed.

Lemma renderPane_keeps_selection_witness :
  let this :=
    Full.handle (FilterInput Available "an")
      (Full.handle (SelectionChange Available [1%nat; 2%nat])
         (Full.new fruits true "contains" false)) in
  let this' := Full._renderPane Available this in
  visiblySelected Available this' "fsm-1"
  ↔ visiblySelected Available this "fsm-1" ∧ "fsm-1" ∈ partition Available this
    ∧ shows this (filterTerm (paneFilter Available this)) "fsm-1" = true.
Proof.
  intros this this'.
  apply (renderPane_keeps_selection Available this this' "fsm-1").
  - apply noDataKey_decide. compute_done.
  - left. reflexivity.
Defined.

Lemma Full_renderPane_counter_eq (type : PaneType) (this : Widget) :
  paneCounter type (Full._renderPane type this)
  = Full.counterText (filterTerm (paneFilter type this))
      (length (paneSelect type (Full._renderPane type this)))
      (length (partition type this))
  ∧ (∀ other, other ≠ type →
       paneCounter other (Full._renderPane type this) = paneCounter other this)
  ∧ selectElement (Full._renderPane type this) = selectElement this.
Proof.
  destruct type; (split; [done|]); (split; [|done]); by intros [|].
Qed.

Lemma shows_is_Some (this : Widget) (term : string)
    (previousSelection : list string) (key : string) :
  shows this term key = true
  ↔ is_Some (renderOption this term previousSelection key).
Proof.
  rewrite renderOption_is_Some. unfold shows.
  destruct (options this !! key) as [meta|].
  - split; [by exists meta | by intros (? & [= <-] & ?)].
  - split; [done | by intros (? & ? & _)].
Qed.

Lemma rendered_length (this : Widget) (term : string)
    (previousSelection keys : list string) :
  length (omap (renderOption this term previousSelection) keys)
  = length (filter (λ key, shows this term key) keys).
Proof.
  induction keys as [|k keys IH]; [done|].
  rewrite filter_cons, omap_cons_eq.
  pose proof (shows_is_Some this term previousSelection k) as Hk.
  destruct (renderOption this term previousSelection k) as [opt|].
  - rewrite decide_True by (apply Is_true_true, Hk; by eexists).
    simpl. by rewrite IH.
  - rewrite decide_False; [done|].
    intros H%Is_true_true%Hk. by destruct H.
Qed.

(** The counter of a pane of the later listing, after [_renderPane], in
    any state: with a non-empty filter term "(visible / total)", otherwise
    "(total)", where total is the length of the partition and visible the
    number of <option>s the pane shows, one for each key of the partition
    that is registered and whose label passes the filter. *)
Theorem Full_renderPane_counter (type : PaneType) (this : Widget) :
  let term := filterTerm (paneFilter type this) in
  let visible := length (filter (λ key, shows this term key) (partition type this)) in
  let total := length (partition type this) in
  paneCounter type (Full._renderPane type this)
  = (if Js.truthy term
     then "(" +:+ Js.numberToString (Z.of_nat visible) +:+ " / "
              +:+ Js.numberToString (Z.of_nat total) +:+ ")"
     else "(" +:+ Js.numberToString (Z.of_nat total) +:+ ")")
  ∧ visible = length (paneSelect type (Full._renderPane type this))
  ∧ (visible ≤ total)%nat
  ∧ ∀ other, other ≠ type →
      paneCounter other (Full._renderPane type this) = paneCounter other this.
Proof.
  intros term visible total.
  destruct (Full_renderPane_counter_eq type this) as (Hc & Ho & _).
  assert (Hlen : length (paneSelect type (Full._renderPane type this)) = visible).
  { rewrite Full_renderPane_pane. apply rendered_length. }
  split; [|split; [done|split; [apply length_filter | done]]].
  rewrite Hc, Hlen. done.
Qed.

Lemma omap_ext_in {A B} (f g : A → option B) (l : list A) :
  (∀ x, x ∈ l → f x = g x) → omap f l = omap g l.
Proof.
  induction l as [|x l IH]; intros H; [done|].
  rewrite !omap_cons_eq, (H x), IH; [done | | by left].
  intros y Hy. apply H. by right.
Qed.

Lemma renderOption_ext (a b : Widget) (term : string) (s1 s2 : list string)
    (key : string) :
  model a = model b →
  (shows b term key = true → (key ∈ s1 ↔ key ∈ s2)) →
  renderOption a term s1 key = renderOption b term s2 key.
Proof.
  unfold model. intros [= Ho _ _ _ Hm _ _] Hsel.
  unfold renderOption, shows in *. rewrite Ho.
  destruct (options b !! key) as [meta|]; [|done].
  assert (Hp : _passesFilter a (label meta) term = _passesFilter b (label meta) term).
  { unfold _passesFilter. by rewrite Hm. }
  rewrite Hp. destruct (Js.truthy term) eqn:Et; simpl.
  - destruct (_passesFilter b (label meta) term) eqn:Ep; simpl; [|done].
    do 2 f_equal. apply bool_decide_ext. auto.
  - do 2 f_equal. apply bool_decide_ext. apply Hsel.
    unfold _passesFilter. by rewrite Et.
Qed.

Lemma model_paneFilter (a b : Widget) (type : PaneType) :
  model a = model b → paneFilter type a = paneFilter type b.
Proof. unfold model. intros [= _ _ _ _ _ Hfa Hfc]. by destruct type. Qed.

Lemma freshButtons_ext (a b : Widget) :
  model a = model b →
  (∀ type, paneSelect type a = paneSelect type b) →
  freshButtons a = freshButtons b.
Proof.
  unfold model. intros [= Ho Ha Hc _ _ _ _] Hp.
  pose proof (Hp Available) as HpA. pose proof (Hp Chosen) as HpC. simpl in *.
  unfold freshButtons, Full.notDisabled. by rewrite Ho, Ha, Hc, HpA, HpC.
Qed.

(** Rendering a pane of the later listing a second time changes nothing
    but the trace: panes, counters, buttons, partitions, registry, filters
    and source select are what the first render left. *)
Theorem Full_renderPane_idempotent (type : PaneType) (this : Widget) :
  noDataKey this →
  let once := Full._renderPane type this in
  let twice := Full._renderPane type once in
  (∀ pane, paneSelect pane twice = paneSelect pane once)
  ∧ (∀ pane, paneCounter pane twice = paneCounter pane once)
  ∧ buttons twice = buttons once
  ∧ model twice = model once
  ∧ selectElement twice = selectElement once
  ∧ trace twice = trace once ++ [RenderedPane type].
Proof.
  intros Hnk once twice.
  assert (Hm1 : model once = model this) by apply Full_renderPane_model.
  assert (Hm2 : model twice = model once) by apply Full_renderPane_model.
  assert (Hp1 : paneSelect type once
                = omap (renderOption this (filterTerm (paneFilter type this))
                          (_getSelectedKeys (paneSelect type this)))
                       (partition type this)) by apply Full_renderPane_pane.
  assert (Hp2 : paneSelect type twice
                = omap (renderOption once (filterTerm (paneFilter type once))
                          (_getSelectedKeys (paneSelect type once)))
                       (partition type once)) by apply Full_renderPane_pane.
  assert (Ho2 : ∀ other, other ≠ type → paneSelect other twice = paneSelect other once).
  { intros other Hne. by apply Full_renderPane_other. }
  destruct (Full_renderPane_counter_eq type once) as (Hc2 & Hco2 & He2).
  destruct (Full_renderPane_counter_eq type this) as (Hc1 & _ & _).
  fold once in Hc1. fold twice in Hc2, Hco2, He2.
  assert (Hb2 : buttons twice = freshButtons twice).
  { unfold twice. destruct (Full_renderPane_shape type once) as [w ->].
    by destruct (Full_updateButtons_fresh w) as [-> ->]. }
  assert (Hb1 : buttons once = freshButtons once).
  { unfold once. destruct (Full_renderPane_shape type this) as [w ->].
    by destruct (Full_updateButtons_fresh w) as [-> ->]. }
  assert (Ht : trace twice = trace once ++ [RenderedPane type])
    by apply Full_renderPane_trace.
  assert (Hsel : ∀ key, visiblySelected type once key
                        ↔ visiblySelected type this key ∧ key ∈ partition type this
                          ∧ shows this (filterTerm (paneFilter type this)) key = true).
  { intros key. unfold visiblySelected at 1.
    rewrite Hp1, rendered_selected by done. by rewrite elem_of_getSelectedKeys. }
  clearbody once twice.
  assert (Hpane : paneSelect type twice = paneSelect type once).
  { rewrite Hp2, (model_partition this once), (model_paneFilter once this) by done.
    etrans; [|symmetry; exact Hp1].
    apply omap_ext_in. intros key Hin. apply renderOption_ext; [done|].
    intros Hs. rewrite !elem_of_getSelectedKeys, Hsel. tauto. }
  assert (Hpanes : ∀ pane, paneSelect pane twice = paneSelect pane once).
  { intros pane. destruct (decide (pane = type)) as [-> | Hne]; auto. }
  split; [done|]. split; [|split; [|done]].
  - intros pane. destruct (decide (pane = type)) as [-> | Hne]; [|auto].
    rewrite Hc2, Hc1, Hpane, (model_partition this once),
      (model_paneFilter once this) by done. done.
  - rewrite Hb2, Hb1. by apply freshButtons_ext.
Qed.

Lemma Full_renderPane_idempotent_witness :
  let this :=
    Full.handle (FilterInput Available "an")
      (Full.handle (SelectionChange Available [1%nat; 2%nat])
         (Full.new fruits true "contains" false)) in
  let once := Full._renderPane Available this in
  let twice := Full._renderPane Available once in
  (∀ pane, paneSelect pane twice = paneSelect pane once)
  ∧ (∀ pane, paneCounter pane twice = paneCounter pane once)
  ∧ buttons twice = buttons once
  ∧ model twice = model once
  ∧ selectElement twice = selectElement once
  ∧ trace twice = trace once ++ [RenderedPane Available].
Proof.
  intros this. apply (Full_renderPane_idempotent Available this).
  apply noDataKey_decide. compute_done.
Defined.

(** ** Moving keys there and back *)

Lemma builtOptions_index_inj (select : list OptionElement) (this : Widget)
    (a b : string) :
  options this = builtOptions select 0 ∅ →
  is_Some (options this !! a) → is_Some (options this !! b) →
  indexOrMax this a = indexOrMax this b → a = b.
Proof.
  intros Ho [ma Ha] [mb Hb]. unfold indexOrMax. rewrite Ha, Hb.
  rewrite Ho in Ha, Hb.
  apply builtOptions_Some in Ha as [Ha | (i & oa & _ & -> & ->)]; [done|].
  apply builtOptions_Some in Hb as [Hb | (j & ob & _ & -> & ->)]; [done|].
  simpl. intros H. f_equal. lia.
Qed.

Lemma indexSorted_unique (select : list OptionElement) (this : Widget)
    (l1 l2 : list string) :
  options this = builtOptions select 0 ∅ →
  (∀ key, key ∈ l2 → is_Some (options this !! key)) →
  indexSorted this l1 → indexSorted this l2 → l1 ≡ₚ l2 → l1 = l2.
Proof.
  intros Ho Hreg H1 H2 Hp.
  apply (StronglySorted_unique_strong
           (λ a b, indexOrMax this a ≤ indexOrMax this b) l1 l2); try done.
  intros x1 x2 Hx1 Hx2 Hle Hge. rewrite Hp in Hx1.
  apply (builtOptions_index_inj select this); auto. lia.
Qed.

Lemma filter_all {A} (P : A → Prop) `{!∀ x, Decision (P x)} (l : list A) :
  (∀ x, x ∈ l → P x) → filter P l = l.
Proof.
  induction l as [|x l IH]; intros Hl; [done|].
  rewrite filter_cons, decide_True, IH; [done | | apply Hl; by left].
  intros y Hy. apply Hl. by right.
Qed.

Lemma filter_none {A} (P : A → Prop) `{!∀ x, Decision (P x)} (l : list A) :
  (∀ x, x ∈ l → ¬ P x) → filter P l = [].
Proof.
  induction l as [|x l IH]; intros Hl; [done|].
  rewrite filter_cons, decide_False, IH; [done | | apply Hl; by left].
  intros y Hy. apply Hl. by right.
Qed.

Lemma filter_remove_app (keys l : list string) :
  (∀ key, key ∈ keys → key ∉ l) →
  filter (λ key, key ∉ keys) (l ++ keys) = l.
Proof.
  intros Hdisj. rewrite filter_app, filter_all, filter_none.
  - apply app_nil_r.
  - tauto.
  - intros key Hl Hk. by apply (Hdisj key).
Qed.

(** In a widget of the later listing built without
    [preserveSelectionOrder] from a source whose options carry no data
    attribute named [key], transferring keys of one partition to the other
    and then the same keys back restores both partitions exactly. *)
Theorem Full_transfer_round_trip (select : list OptionElement)
    (sf : bool) (mode : string) (this : Widget)
    (keys : list string) (fromType toType : PaneType) :
  Forall (λ option, el_dataset option !! "key" = None) select →
  reachable Full.handle (Full.new select sf mode false) this →
  fromType ≠ toType → NoDup keys → keys ⊆ partition fromType this →
  let there := Full._transfer keys fromType toType this in
  let back := Full._transfer keys toType fromType there in
  available back = available this ∧ chosen back = chosen this.
Proof.
  intros Hsel Hreach Hne Hnd Hsub there back.
  destruct (Full_reachable_inv _ _ _ _ _ Hsel Hreach) as (Hpc & _).
  assert (Hreach' : reachable Full.handle (Full.new select sf mode false) this
                    ∨ reachable Basic.handle (Basic.new select sf mode false) this)
    by by left.
  destruct (reachable_engineInv _ _ _ _ _ Hreach') as (Ho & Hp & Ha & Hc & _).
  specialize (Hc eq_refl).
  pose proof (partitionComplete_registered this Hpc) as Hreg.
  assert (Hdup : NoDup (available this ++ chosen this)).
  { unfold partitionComplete in Hpc. rewrite Hpc. unfold registryKeys.
    apply NoDup_elements. }
  assert (Hfrom_s : indexSorted this (partition fromType this)) by by destruct fromType.
  assert (Hto_s : indexSorted this (partition toType this)) by by destruct toType.
  assert (Hfrom_r : ∀ key, key ∈ partition fromType this → is_Some (options this !! key)).
  { intros key Hin. apply Hreg, elem_of_app. destruct fromType; auto. }
  assert (Hto_r : ∀ key, key ∈ partition toType this → is_Some (options this !! key)).
  { intros key Hin. apply Hreg, elem_of_app. destruct toType; auto. }
  assert (Hfrom_nd : NoDup (partition fromType this)).
  { apply NoDup_app in Hdup as (? & _ & ?). by destruct fromType. }
  assert (Hdisj : ∀ key, key ∈ keys → key ∉ partition toType this).
  { intros key Hin%Hsub Hin'. apply NoDup_app in Hdup as (_ & Hd & _).
    destruct fromType, toType; try done; simpl in *.
    - by apply (Hd key).
    - by apply (Hd key). }
  assert (Hne' : toType ≠ fromType) by congruence.
  destruct (Full_transfer_config keys fromType toType this) as (Ho1 & Hp1 & _).
  fold there in Ho1, Hp1.
  assert (Hfrom1 : partition fromType there
                   = _sortByIndex this (filter (λ key, key ∉ keys) (partition fromType this)))
    by by apply Full_transfer_from.
  assert (Hto1 : partition toType there
                 = _sortByIndex this (partition toType this ++ keys)).
  { unfold there. rewrite Full_transfer_to, Hp by done. done. }
  assert (Hto2 : partition toType back
                 = _sortByIndex there (filter (λ key, key ∉ keys) (partition toType there)))
    by by apply Full_transfer_from.
  assert (Hfrom2 : partition fromType back
                   = _sortByIndex there (partition fromType there ++ keys)).
  { unfold back. rewrite Full_transfer_to, Hp1, Hp by done. done. }
  clearbody back there.
  rewrite (sortByIndex_options this there) in Hto2, Hfrom2 by done.
  assert (Hto_eq : partition toType back = partition toType this).
  { rewrite Hto2, Hto1. apply (indexSorted_unique select this); try done.
    - apply sortByIndex_sorted.
    - rewrite sortByIndex_perm, sortByIndex_perm. by rewrite filter_remove_app. }
  assert (Hfrom_eq : partition fromType back = partition fromType this).
  { rewrite Hfrom2, Hfrom1. apply (indexSorted_unique select this); try done.
    - apply sortByIndex_sorted.
    - rewrite sortByIndex_perm, sortByIndex_perm.
      rewrite <- (filter_app_complement (λ key, key ∈ keys) (partition fromType this)) at 2.
      rewrite (comm (++)). f_equiv. symmetry.
      apply NoDup_Permutation; [by apply NoDup_filter | done |].
      intros key. rewrite list_elem_of_filter. split; [by intros [] | auto]. }
  destruct fromType, toType; try done; simpl in *; by split.
Qed.

Lemma Full_transfer_round_trip_witness :
  let this := Full.new fruits true "contains" false in
  let there := Full._transfer ["fsm-3"; "fsm-0"] Available Chosen this in
  let back := Full._transfer ["fsm-3"; "fsm-0"] Chosen Available there in
  available back = available this ∧ chosen back = chosen this.
Proof.
  intros this.
  apply (Full_transfer_round_trip fruits true "contains" this
           ["fsm-3"; "fsm-0"] Available Chosen).
  - compute_done.
  - apply reachable_init.
  - discriminate.
  - compute_done.
  - compute_done.
Defined.

(** ** The two filter modes compared *)

Lemma split_go_substring (s : string) : ∀ sep acc token,
  token ∈ Js.split_go sep acc s →
  ∃ pre post, acc +:+ s = pre +:+ token +:+ post.
Proof.
  induction s as [|c s IH]; intros sep acc token Hin; simpl in Hin.
  - apply list_elem_of_singleton in Hin as ->. exists "", "". simpl.
    by rewrite !app_empty_r.
  - assert (Hrest : token ∈ Js.split_go true "" s →
                    ∃ pre post, acc +:+ String c s = pre +:+ token +:+ post).
    { intros (pre & post & H)%IH. simpl in H.
      exists (acc +:+ String c pre), post. rewrite H, !app_assoc_str. done. }
    destruct (Js.isWhiteSpace c).
    + destruct sep; [by apply Hrest|].
      apply elem_of_cons in Hin as [-> | Hin]; [|by apply Hrest].
      by exists "", (String c s).
    + apply IH in Hin as (pre & post & H). exists pre, post.
      rewrite <- H, app_assoc_str. done.
Qed.

Lemma substring_trans (s t u : string) :
  (∃ pre post, s = pre +:+ t +:+ post) → (∃ pre post, t = pre +:+ u +:+ post) →
  ∃ pre post, s = pre +:+ u +:+ post.
Proof.
  intros (p1 & q1 & ->) (p2 & q2 & ->). exists (p1 +:+ p2), (q2 +:+ q1).
  by rewrite !app_assoc_str.
Qed.

Lemma tokens_in_haystack (haystack term : string) :
  (∃ pre post, haystack = pre +:+ term +:+ post) →
  forallb (λ token, Js.includes haystack token)
    (List.filter Js.truthy (Js.split_ws term)) = true.
Proof.
  intros Hsub. apply forallb_includes. intros token Hin _.
  eapply substring_trans; [exact Hsub|].
  apply (split_go_substring term false "" token Hin).
Qed.

(** Whatever passes in "startsWith" mode passes in "contains" mode (and in
    any mode other than "startsWith"): for one label and one term, the
    first mode never shows an item that the second hides. *)
Theorem startsWith_implies_contains (strict loose : Widget) (label term : string) :
  filterMatchMode strict = "startsWith" → filterMatchMode loose ≠ "startsWith" →
  _passesFilter strict label term = true → _passesFilter loose label term = true.
Proof.
  intros Hs Hl. unfold _passesFilter. rewrite Hs.
  apply String.eqb_neq in Hl. rewrite Hl. simpl.
  destruct (Js.truthy term); simpl; [|done].
  intros [rest Hrest]%startsWith_spec. apply tokens_in_haystack.
  by exists "", rest.
Qed.

Lemma startsWith_implies_contains_witness :
  _passesFilter (Full.new fruits true "contains" false) "Green Apple" "green ap" = true.
Proof.
  apply (startsWith_implies_contains
           (Full.new fruits true "startsWith" false)
           (Full.new fruits true "contains" false) "Green Apple" "green ap").
  - reflexivity.
  - discriminate.
  - reflexivity.
Defined.

Lemma trimStart_suffix (s : string) : ∃ pre, s = pre +:+ Js.trimStart s.
Proof.
  induction s as [|c s [pre IH]]; simpl; [by exists ""|].
  destruct (Js.isWhiteSpace c); [|by exists ""].
  exists (String c pre). simpl. by rewrite <- IH.
Qed.

Lemma trimEnd_prefix (s : string) : ∃ post, s = Js.trimEnd s +:+ post.
Proof.
  induction s as [|c s [post IH]]; simpl; [by exists ""|].
  destruct (Js.trimEnd s) as [|d t] eqn:E.
  - destruct (Js.isWhiteSpace c).
    + by exists (String c s).
    + exists post. simpl in *. by rewrite <- IH.
  - exists post. simpl in *. by rewrite <- IH.
Qed.

Lemma trim_substring (s : string) : ∃ pre post, s = pre +:+ Js.trim s +:+ post.
Proof.
  destruct (trimStart_suffix s) as [pre Hpre].
  destruct (trimEnd_prefix (Js.trimStart s)) as [post Hpost].
  exists pre, post. unfold Js.trim. by rewrite <- Hpost.
Qed.

(** An item is always found by its own label: in "contains" mode (any
    mode other than "startsWith") every label passes the term made from
    that label, and in "startsWith" mode it does when the label does not
    begin with white space. *)
Theorem passesFilter_own_label (this : Widget) (label : string) :
  (filterMatchMode this ≠ "startsWith" →
   _passesFilter this label (filterTerm (Some label)) = true)
  ∧ (filterMatchMode this = "startsWith" → Js.trimStart label = label →
     _passesFilter this label (filterTerm (Some label)) = true).
Proof.
  simpl. rewrite toLowerCase_trim. unfold _passesFilter. split.
  - intros Hm%String.eqb_neq. rewrite Hm.
    destruct (Js.truthy _); simpl; [|done].
    apply tokens_in_haystack, trim_substring.
  - intros Hm Hstart. rewrite Hm. simpl.
    destruct (Js.truthy _); simpl; [|done].
    apply startsWith_spec. unfold Js.trim.
    rewrite <- toLowerCase_trimStart, Hstart.
    destruct (trimEnd_prefix (Js.toLowerCase label)) as [post Hpost]. eauto.
Qed.

Lemma passesFilter_own_label_witness :
  _passesFilter (Full.new fruits true "contains" false) " Green  Apple "
    (filterTerm (Some " Green  Apple ")) = true
  ∧ _passesFilter (Full.new fruits true "startsWith" false) "Green Apple "
      (filterTerm (Some "Green Apple ")) = true.
Proof.
  split.
  - apply (proj1 (passesFilter_own_label (Full.new fruits true "contains" false)
                    " Green  Apple ")).
    vm_compute. discriminate.
  - apply (proj2 (passesFilter_own_label (Full.new fruits true "startsWith" false)
                    "Green Apple ")); reflexivity.
Defined.

(** ** The number of rows of the panes *)

(** The [size] both pane selects get: an explicit [options.size] is taken
    as it is, even 0; otherwise the source select's own [size] when it has
    one; otherwise the number of options, but no less than 4 and no more
    than 12. *)
Theorem initialSize_bounds (optionsSize : option Z) (selectSize optionCount : Z) :
  (∀ size, optionsSize = Some size →
           initialSize optionsSize selectSize optionCount = size)
  ∧ (optionsSize = None → selectSize ≠ 0 →
     initialSize optionsSize selectSize optionCount = selectSize)
  ∧ (optionsSize = None → selectSize = 0 →
     4 ≤ initialSize optionsSize selectSize optionCount ≤ 12
     ∧ (4 ≤ optionCount ≤ 12 →
        initialSize optionsSize selectSize optionCount = optionCount)
     ∧ (optionCount ≤ 4 → initialSize optionsSize selectSize optionCount = 4)
     ∧ (12 ≤ optionCount → initialSize optionsSize selectSize optionCount = 12)).
Proof.
  unfold initialSize. split; [by intros size ->|]. split.
  - intros -> Hne. by apply Z.eqb_neq in Hne as ->.
  - intros -> ->. simpl. lia.
Qed.

Lemma initialSize_bounds_witness :
  initialSize (Some 0) 7 20 = 0
  ∧ initialSize None 7 20 = 7
  ∧ 4 ≤ initialSize None 0 20 ≤ 12.
Proof.
  split; [|split].
  - apply (initialSize_bounds (Some 0) 7 20). reflexivity.
  - apply (initialSize_bounds None 7 20); [reflexivity | lia].
  - apply (initialSize_bounds None 0 20); reflexivity.
Defined.

(** ** Class names of the buttons *)

Lemma classes_solid (s c : string) : c ∈ classes s → solid c = true ∧ c ≠ "".
Proof.
  destruct (glue_exists s) as (segs & last & Hlay & ->).
  unfold classes. rewrite tokens_glue by done.
  intros [Hin Ht]%list_elem_of_In%filter_In. split; [|by destruct c].
  destruct Hlay as [Hsegs Hlast]. apply in_app_or in Hin as [Hin | [<- | []]]; [|done].
  apply in_map_iff in Hin as ([p b] & <- & Hin%list_elem_of_In).
  rewrite Forall_forall in Hsegs. by apply Hsegs in Hin as [? _].
Qed.

Lemma join_glue (x : string) (rest : list string) :
  Forall (λ c, solid c = true ∧ c ≠ "") (x :: rest) →
  ∃ segs last, laid_out segs last ∧ Array_join " " (x :: rest) = glue segs last
               ∧ (map fst segs ++ [last])%list = x :: rest.
Proof.
  revert x. induction rest as [|y rest IH]; intros x H.
  - exists [], x. apply Forall_cons_1 in H as [[Hx _] _].
    repeat split; [constructor|done].
  - apply Forall_cons_1 in H as [[Hx _] H].
    destruct (IH y H) as (segs & last & [Hsegs Hlast] & Hj & Hm).
    exists ((x, " ") :: segs), last. split; [|split].
    + split; [|done]. constructor; [|done]. by repeat split.
    + change (Array_join " " (x :: y :: rest))
        with (x +:+ " " +:+ Array_join " " (y :: rest)).
      by rewrite Hj.
    + simpl. by rewrite Hm.
Qed.

Lemma List_filter_all {A} (P : A → bool) (l : list A) :
  Forall (λ x, P x = true) l → List.filter P l = l.
Proof. induction 1 as [|x l Hx _ IH]; simpl; [done|]. by rewrite Hx, IH. Qed.

Lemma classes_join (l : list string) :
  Forall (λ c, solid c = true ∧ c ≠ "") l → classes (Array_join " " l) = l.
Proof.
  destruct l as [|x rest]; [done|]. intros H.
  destruct (join_glue x rest H) as (segs & last & Hlay & -> & Hm).
  unfold classes. rewrite tokens_glue, Hm by done.
  apply List_filter_all. eapply Forall_impl; [exact H|].
  intros c [_ Hc]. by destruct c.
Qed.

Lemma Set_add_all_elem (l : list string) : ∀ set x,
  x ∈ fold_left Set_add l set ↔ x ∈ set ∨ x ∈ l.
Proof.
  induction l as [|y l IH]; intros set x; simpl.
  - rewrite elem_of_nil. tauto.
  - rewrite IH, elem_of_cons. unfold Set_add. case_decide.
    + split; [tauto|]. intros [?|[->|?]]; tauto.
    + rewrite elem_of_app, list_elem_of_singleton. tauto.
Qed.

Lemma Set_add_all_NoDup (l : list string) : ∀ set,
  NoDup set → NoDup (fold_left Set_add l set).
Proof.
  induction l as [|y l IH]; intros set H; simpl; [done|].
  apply IH. unfold Set_add. case_decide; [done|].
  apply NoDup_app. split; [done|]. split; [|apply NoDup_singleton].
  intros x Hx ->%list_elem_of_singleton. done.
Qed.

Lemma Set_add_all_prefix (l : list string) : ∀ set,
  set `prefix_of` fold_left Set_add l set.
Proof.
  induction l as [|y l IH]; intros set; simpl; [done|].
  etrans; [|apply IH]. unfold Set_add. case_decide; [done|].
  by apply prefix_app_r.
Qed.

(** The class name [_setButtonState] gives a button, for a theme with a
    [button] entry: its classes are separated by single spaces with none at
    the ends, none occurs twice, and they are the base classes, the
    action's classes and, for a disabled button only, the disabled classes.
    The classes of the enabled button are an initial part of those of the
    disabled one: disabling a button only appends classes. *)
Theorem buttonClassName_classes (theme : gmap string string) (key : string)
    (disabled : bool) (button : string) :
  theme !! "button" = Some button →
  ∃ name enabled,
    buttonClassName theme key disabled = Some name
    ∧ buttonClassName theme key false = Some enabled
    ∧ name = Array_join " " (classes name)
    ∧ NoDup (classes name)
    ∧ (∀ c, c ∈ classes name ↔
            c ∈ classes button
            ∨ c ∈ classes (default "" (theme !! key))
            ∨ (disabled = true
               ∧ c ∈ classes (default "" (theme !! "buttonDisabled"))))
    ∧ classes enabled `prefix_of` classes name.
Proof.
  intros Hbutton. unfold buttonClassName. rewrite Hbutton.
  set (base := (classes button ++ classes (default "" (theme !! key)))%list).
  set (dis := classes (default "" (theme !! "buttonDisabled"))).
  set (final := if disabled then (base ++ dis)%list else base).
  assert (Hsolid : ∀ l, (∀ c, c ∈ l → c ∈ base ∨ c ∈ dis) →
                        Forall (λ c, solid c = true ∧ c ≠ "") (Set_of l)).
  { intros l Hl. apply Forall_forall. intros c Hc.
    apply Set_add_all_elem in Hc as [Hc | Hc]; [by apply elem_of_nil in Hc|].
    destruct (Hl c Hc) as [[H | H]%elem_of_app | H];
      eapply classes_solid; exact H. }
  assert (Hfinal : classes (Array_join " " (Set_of final)) = Set_of final).
  { apply classes_join, Hsolid. intros c. unfold final.
    destruct disabled; [rewrite elem_of_app|]; tauto. }
  assert (Hbase : classes (Array_join " " (Set_of base)) = Set_of base).
  { apply classes_join, Hsolid. tauto. }
  eexists _, _. split; [reflexivity|]. split; [reflexivity|].
  rewrite Hfinal, Hbase. split; [done|]. split; [|split].
  - apply Set_add_all_NoDup, NoDup_nil_2.
  - intros c. unfold Set_of. rewrite Set_add_all_elem, elem_of_nil.
    unfold final, base. destruct disabled; rewrite !elem_of_app; fold dis;
      intuition congruence.
  - unfold final. destruct disabled; [|done].
    unfold Set_of. rewrite fold_left_app. apply Set_add_all_prefix.
Qed.

Lemma buttonClassName_classes_witness :
  ∃ name enabled,
    buttonClassName sampleTheme (actionKey AddAll) true = Some name
    ∧ buttonClassName sampleTheme (actionKey AddAll) false = Some enabled
    ∧ name = Array_join " " (classes name)
    ∧ NoDup (classes name)
    ∧ (∀ c, c ∈ classes name ↔
            c ∈ classes "btn btn-sm  d-inline-flex"
            ∨ c ∈ classes (default "" (sampleTheme !! actionKey AddAll))
            ∨ (true = true
               ∧ c ∈ classes (default "" (sampleTheme !! "buttonDisabled"))))
    ∧ classes enabled `prefix_of` classes name.
Proof.
  apply (buttonClassName_classes sampleTheme (actionKey AddAll) true
           "btn btn-sm  d-inline-flex").
  reflexivity.
Defined.

(** A run of [_setButtonState]'s class name on the sample theme. *)
Example buttonClassName_run :
  buttonClassName sampleTheme (actionKey AddAll) false
  = Some "btn btn-sm d-inline-flex btn-outline-primary"
  ∧ buttonClassName sampleTheme (actionKey AddAll) true
    = Some "btn btn-sm d-inline-flex btn-outline-primary btn-secondary"
  ∧ buttonClassName sampleTheme (actionKey_underscore AddAll) false
    = Some "btn btn-sm d-inline-flex".
Proof. by vm_compute. Qed.

(** ** The widget in the document *)

Lemma Dom_remove_absent (node : Dom.Node) (nodes : list Dom.Node) :
  node ∉ nodes → Dom.remove node nodes = nodes.
Proof.
  intros H. unfold Dom.remove. induction nodes as [|n nodes IH]; [done|].
  apply not_elem_of_cons in H as [Hn H].
  rewrite filter_cons_True by done. by rewrite IH.
Qed.

Lemma Dom_remove_middle (node : Dom.Node) (pre post : list Dom.Node) :
  node ∉ pre → node ∉ post →
  Dom.remove node (pre ++ node :: post) = pre ++ post.
Proof.
  intros Hpre Hpost. unfold Dom.remove.
  rewrite filter_app, filter_cons_False by (intros H; by apply H).
  fold (Dom.remove node pre) (Dom.remove node post).
  by rewrite !Dom_remove_absent.
Qed.

Lemma Dom_insert_at_middle (node reference : Dom.Node) (pre post : list Dom.Node) :
  reference ∉ pre →
  Dom.insert_at node reference (pre ++ reference :: post)
  = pre ++ node :: reference :: post.
Proof.
  intros H. induction pre as [|n pre IH]; simpl.
  - by rewrite decide_True.
  - apply not_elem_of_cons in H as [Hn H].
    rewrite decide_False by done. by rewrite IH.
Qed.

(** Inserting a node that is not in the tree. *)
Lemma Dom_insertBefore_new (node reference : Dom.Node) (pre post : list Dom.Node) :
  node ∉ pre ++ reference :: post → reference ∉ pre →
  Dom.insertBefore node reference (pre ++ reference :: post)
  = pre ++ node :: reference :: post.
Proof.
  intros Hnode Href. unfold Dom.insertBefore.
  by rewrite Dom_remove_absent, Dom_insert_at_middle.
Qed.

(** Moving a node that sits right behind the reference node. *)
Lemma Dom_insertBefore_swap (node reference : Dom.Node) (pre post : list Dom.Node) :
  node ≠ reference → node ∉ pre → node ∉ post → reference ∉ pre →
  Dom.insertBefore node reference (pre ++ reference :: node :: post)
  = pre ++ node :: reference :: post.
Proof.
  intros Hne Hpre Hpost Href. unfold Dom.insertBefore.
  change (pre ++ reference :: node :: post)
    with (pre ++ [reference] ++ node :: post).
  rewrite (assoc_L (++)), Dom_remove_middle; [|set_solver..].
  rewrite <- (assoc_L (++)). by apply Dom_insert_at_middle.
Qed.

Lemma Dom_split (page : Dom.Page) :
  Dom.wellFormed page → Dom.Select ∈ Dom.children page →
  ∃ pre post, Dom.children page = pre ++ Dom.Select :: post
              ∧ (Dom.Select ∉ pre) ∧ (Dom.Select ∉ post).
Proof.
  intros [Hnd _] (pre & post & H)%list_elem_of_split. exists pre, post.
  rewrite H in Hnd. apply NoDup_app in Hnd as (_ & Hpre & Hpost%NoDup_cons).
  split; [done|]. split; [|tauto]. intros Hin. apply (Hpre _ Hin). by left.
Qed.

(** What [_init] leaves on a well-formed page that holds the select. *)
Lemma Dom_init_shape (page : Dom.Page) (pre post : list Dom.Node) :
  Dom.wellFormed page → Dom.children page = pre ++ Dom.Select :: post →
  Dom._init page
  = ({| Dom.children := pre ++ Dom.Container (S (Dom.created page))
                            :: Dom.Comment (Dom.created page)
                            :: Dom.Select :: post;
        Dom.display := "none"; Dom.marked := true;
        Dom.created := S (S (Dom.created page)) |},
     Some {| Dom.previousDisplay := Dom.display page;
             Dom.placeholder := Dom.Comment (Dom.created page);
             Dom.container := Dom.Container (S (Dom.created page)) |}).
Proof.
  intros [Hnd Hfresh] Hch.
  destruct (Hfresh (Dom.created page)) as [Hc _]; [lia|].
  destruct (Hfresh (S (Dom.created page))) as [_ Hk]; [lia|].
  rewrite Hch in Hnd, Hc, Hk.
  assert (Hsel : Dom.Select ∉ pre).
  { apply NoDup_app in Hnd as (_ & H & _). intros Hin. apply (H _ Hin). by left. }
  unfold Dom._init. simpl. rewrite Hch.
  rewrite decide_True by set_solver.
  rewrite Dom_insertBefore_new by done.
  change (pre ++ Dom.Comment (Dom.created page) :: Dom.Select :: post)
    with (pre ++ Dom.Comment (Dom.created page) :: ([Dom.Select] ++ post)).
  rewrite Dom_insertBefore_new; [done| |set_solver].
  set_solver.
Qed.

(** What [destroy] leaves when the container, the placeholder and the
    select are still where [_init] put them, other nodes in between or
    not. *)
Lemma Dom_destroy_shape (this : Dom.Mounted) (page : Dom.Page)
    (pre mid post : list Dom.Node) :
  NoDup (Dom.children page) →
  Dom.placeholder this ≠ Dom.Select → Dom.container this ≠ Dom.Select →
  Dom.container this ≠ Dom.placeholder this →
  Dom.children page
  = pre ++ Dom.container this :: Dom.placeholder this :: mid ++ Dom.Select :: post →
  Dom.destroy this page
  = ({| Dom.children := pre ++ Dom.Select :: mid ++ post;
        Dom.display := Dom.previousDisplay this; Dom.marked := false;
        Dom.created := Dom.created page |}, true).
Proof.
  intros Hnd Hps Hcs Hcp Hch. rewrite Hch in Hnd.
  apply NoDup_app in Hnd as (Hpre & Hdis & Hnd).
  apply NoDup_cons in Hnd as [Hc Hnd]. apply NoDup_cons in Hnd as [Hp Hnd].
  apply NoDup_app in Hnd as (Hmid & Hdis' & Hnd). apply NoDup_cons in Hnd as [Hs Hpost].
  assert (Dom.container this ∉ pre) by (intros Hin; apply (Hdis _ Hin); set_solver).
  assert (Dom.placeholder this ∉ pre) by (intros Hin; apply (Hdis _ Hin); set_solver).
  assert (Dom.Select ∉ pre) by (intros Hin; apply (Hdis _ Hin); set_solver).
  assert (Dom.Select ∉ mid) by (intros Hin; apply (Hdis' _ Hin); set_solver).
  unfold Dom.destroy. simpl. rewrite Hch.
  rewrite Dom_remove_middle by set_solver.
  rewrite decide_True by set_solver.
  unfold Dom.insertBefore.
  replace (pre ++ Dom.placeholder this :: mid ++ Dom.Select :: post)
    with ((pre ++ Dom.placeholder this :: mid) ++ Dom.Select :: post)
    by (by rewrite <- (assoc_L (++))).
  rewrite Dom_remove_middle by set_solver.
  rewrite <- (assoc_L (++)). simpl.
  rewrite Dom_insert_at_middle by done.
  replace (pre ++ Dom.Select :: Dom.placeholder this :: mid ++ post)
    with ((pre ++ [Dom.Select]) ++ Dom.placeholder this :: mid ++ post)
    by (by rewrite <- (assoc_L (++))).
  rewrite Dom_remove_middle by set_solver.
  by rewrite <- (assoc_L (++)).
Qed.

(** The same when the select has come to sit before the container. *)
Lemma Dom_destroy_shape_before (this : Dom.Mounted) (page : Dom.Page)
    (pre mid post : list Dom.Node) :
  NoDup (Dom.children page) →
  Dom.placeholder this ≠ Dom.Select → Dom.container this ≠ Dom.Select →
  Dom.container this ≠ Dom.placeholder this →
  Dom.children page
  = pre ++ Dom.Select :: mid ++ Dom.container this :: Dom.placeholder this :: post →
  Dom.destroy this page
  = ({| Dom.children := pre ++ mid ++ Dom.Select :: post;
        Dom.display := Dom.previousDisplay this; Dom.marked := false;
        Dom.created := Dom.created page |}, true).
Proof.
  intros Hnd Hps Hcs Hcp Hch. rewrite Hch in Hnd.
  apply NoDup_app in Hnd as (Hpre & Hdis & Hnd).
  apply NoDup_cons in Hnd as [Hs Hnd].
  apply NoDup_app in Hnd as (Hmid & Hdis' & Hnd).
  apply NoDup_cons in Hnd as [Hc Hnd]. apply NoDup_cons in Hnd as [Hp Hpost].
  assert (Dom.container this ∉ pre) by (intros Hin; apply (Hdis _ Hin); set_solver).
  assert (Dom.placeholder this ∉ pre) by (intros Hin; apply (Hdis _ Hin); set_solver).
  assert (Dom.Select ∉ pre) by (intros Hin; apply (Hdis _ Hin); set_solver).
  assert (Dom.container this ∉ mid) by (intros Hin; apply (Hdis' _ Hin); set_solver).
  assert (Dom.placeholder this ∉ mid) by (intros Hin; apply (Hdis' _ Hin); set_solver).
  unfold Dom.destroy. simpl. rewrite Hch.
  replace (pre ++ Dom.Select :: mid ++ Dom.container this :: Dom.placeholder this :: post)
    with ((pre ++ Dom.Select :: mid) ++ Dom.container this :: Dom.placeholder this :: post)
    by (by rewrite <- (assoc_L (++))).
  rewrite Dom_remove_middle by set_solver.
  rewrite decide_True by set_solver.
  unfold Dom.insertBefore.
  rewrite <- (assoc_L (++)). simpl.
  rewrite Dom_remove_middle by set_solver.
  rewrite (assoc_L (++)), Dom_insert_at_middle by set_solver.
  replace ((pre ++ mid) ++ Dom.Select :: Dom.placeholder this :: post)
    with ((pre ++ mid ++ [Dom.Select]) ++ Dom.placeholder this :: post)
    by (by rewrite <- !(assoc_L (++))).
  rewrite Dom_remove_middle by set_solver.
  by rewrite <- !(assoc_L (++)).
Qed.

(** Building a widget and destroying it puts the document back: on a page
    that holds the select, [_init] returns, hides the select and puts the
    widget's container and a comment right before it; [destroy] then
    returns and leaves the children and the select's [display] as they
    were, without the attribute.  A second [destroy] throws and changes
    nothing more. *)
Theorem init_destroy_round_trip (page : Dom.Page) :
  Dom.wellFormed page → Dom.Select ∈ Dom.children page →
  ∃ this pre post,
    Dom.children page = pre ++ Dom.Select :: post
    ∧ (Dom._init page).2 = Some this
    ∧ Dom.children (Dom._init page).1
      = pre ++ Dom.container this :: Dom.placeholder this :: Dom.Select :: post
    ∧ Dom.display (Dom._init page).1 = "none"
    ∧ Dom.marked (Dom._init page).1 = true
    ∧ let restored := Dom.destroy this (Dom._init page).1 in
      restored.2 = true
      ∧ Dom.children restored.1 = Dom.children page
      ∧ Dom.display restored.1 = Dom.display page
      ∧ Dom.marked restored.1 = false
      ∧ Dom.destroy this restored.1 = (restored.1, false).
Proof.
  intros Hwf Hin. destruct (Dom_split page Hwf Hin) as (pre & post & Hch & Hpre & Hpost).
  rewrite (Dom_init_shape page pre post Hwf Hch). simpl.
  eexists _, pre, post. split; [done|]. split; [reflexivity|]. simpl.
  do 3 (split; [done|]).
  destruct Hwf as [Hnd Hfresh].
  destruct (Hfresh (Dom.created page)) as [Hc _]; [lia|].
  destruct (Hfresh (S (Dom.created page))) as [_ Hk]; [lia|].
  rewrite Hch in Hnd, Hc, Hk.
  erewrite (Dom_destroy_shape _ _ pre [] post); [| |done..|reflexivity]; simpl.
  - do 2 (split; [done|]). split; [done|]. split; [done|].
    unfold Dom.destroy. simpl.
    rewrite Dom_remove_absent by done.
    by rewrite decide_False.
  - apply NoDup_app in Hnd as (Hnpre & Hdis & Hnpost).
    apply NoDup_app. split; [done|]. split.
    + intros x Hx. specialize (Hdis x Hx). set_solver.
    + repeat (apply NoDup_cons; split; [set_solver|]). by apply NoDup_cons in Hnpost as [_ ?].
Qed.

Lemma init_destroy_round_trip_witness :
  ∃ this pre post,
    Dom.children Dom.samplePage = pre ++ Dom.Select :: post
    ∧ (Dom._init Dom.samplePage).2 = Some this
    ∧ Dom.children (Dom._init Dom.samplePage).1
      = pre ++ Dom.container this :: Dom.placeholder this :: Dom.Select :: post
    ∧ Dom.display (Dom._init Dom.samplePage).1 = "none"
    ∧ Dom.marked (Dom._init Dom.samplePage).1 = true
    ∧ let restored := Dom.destroy this (Dom._init Dom.samplePage).1 in
      restored.2 = true
      ∧ Dom.children restored.1 = Dom.children Dom.samplePage
      ∧ Dom.display restored.1 = Dom.display Dom.samplePage
      ∧ Dom.marked restored.1 = false
      ∧ Dom.destroy this restored.1 = (restored.1, false).
Proof.
  apply (init_destroy_round_trip Dom.samplePage).
  - split; [by vm_compute; repeat constructor; set_solver|].
    intros id _. vm_compute. set_solver.
  - vm_compute. set_solver.
Defined.

(** Two widgets on one select.  Both can be built, the second inside the
    first; destroying them in the order they were built puts the children
    back but leaves the select hidden, with [display] "none"; destroying
    the second one first restores the page. *)
Theorem nested_widgets_destroy_order (page : Dom.Page) :
  Dom.wellFormed page → Dom.Select ∈ Dom.children page →
  ∃ first second,
    (Dom._init page).2 = Some first
    ∧ (Dom._init (Dom._init page).1).2 = Some second
    ∧ let both := (Dom._init (Dom._init page).1).1 in
      (let final := (Dom.destroy second (Dom.destroy first both).1).1 in
       (Dom.destroy first both).2 = true
       ∧ (Dom.destroy second (Dom.destroy first both).1).2 = true
       ∧ Dom.children final = Dom.children page
       ∧ Dom.display final = "none")
      ∧ (let final := (Dom.destroy first (Dom.destroy second both).1).1 in
         (Dom.destroy second both).2 = true
         ∧ (Dom.destroy first (Dom.destroy second both).1).2 = true
         ∧ Dom.children final = Dom.children page
         ∧ Dom.display final = Dom.display page).
Proof.
  intros Hwf Hin. destruct (Dom_split page Hwf Hin) as (pre & post & Hch & Hpre & Hpost).
  rewrite (Dom_init_shape page pre post Hwf Hch). simpl.
  destruct Hwf as [Hnd Hfresh]. set (n := Dom.created page) in *.
  assert (Hf : ∀ k, (Dom.Comment (k + n) ∉ pre ++ Dom.Select :: post)
                    ∧ (Dom.Container (k + n) ∉ pre ++ Dom.Select :: post)).
  { intros k. rewrite <- Hch. apply Hfresh. lia. }
  pose proof (Hf 0%nat) as [Hc0 _]. pose proof (Hf 1%nat) as [_ Hk1].
  pose proof (Hf 2%nat) as [Hc2 _]. pose proof (Hf 3%nat) as [_ Hk3].
  simpl in Hc0, Hk1, Hc2, Hk3. rewrite Hch in Hnd.
  apply NoDup_app in Hnd as (Hnpre & Hdis & Hnpost).
  apply NoDup_cons in Hnpost as [_ Hnpost].
  assert (Hdis' : ∀ x, x ∈ pre → x ∉ post) by (intros x Hx; specialize (Hdis x Hx); set_solver).
  set (mid := pre ++ Dom.Container (S n) :: [Dom.Comment n]).
  erewrite (Dom_init_shape _ mid post); simpl.
  2:{ split; simpl.
      - apply NoDup_app. split; [done|]. split; [intros x Hx; specialize (Hdis' x Hx); set_solver|].
        repeat (apply NoDup_cons; split; [set_solver|]). done.
      - intros id Hid. split.
        + destruct (Hfresh id) as [H _]; [fold n; lia|]. rewrite Hch in H.
          assert (id ≠ n) by lia. set_solver.
        + destruct (Hfresh id) as [_ H]; [fold n; lia|]. rewrite Hch in H.
          assert (id ≠ S n) by lia. set_solver. }
  2:{ unfold mid. by rewrite <- (assoc_L (++)). }
  eexists _, _. split; [reflexivity|]. split; [reflexivity|]. simpl.
  assert (Hall : NoDup (pre ++ Dom.Container (S n) :: Dom.Comment n
                        :: Dom.Container (S (S (S n))) :: Dom.Comment (S (S n))
                        :: Dom.Select :: post)).
  { apply NoDup_app. split; [done|]. split; [intros x Hx; specialize (Hdis' x Hx); set_solver|].
    repeat (apply NoDup_cons; split; [set_solver by lia|]). done. }
  split.
  - erewrite (Dom_destroy_shape _ _ pre
                [Dom.Container (S (S (S n))); Dom.Comment (S (S n))] post);
      [|simpl; unfold mid; rewrite <- (assoc_L (++)); exact Hall|done..
       |simpl; unfold mid; by rewrite <- (assoc_L (++))].
    simpl. split; [done|].
    erewrite (Dom_destroy_shape_before _ _ pre [] post);
      [| |done..|simpl; reflexivity].
    + simpl. by rewrite Hch.
    + simpl. apply NoDup_app. split; [done|].
      split; [intros x Hx; specialize (Hdis' x Hx); set_solver|].
      repeat (apply NoDup_cons; split; [set_solver by lia|]). done.
  - erewrite (Dom_destroy_shape _ _ mid [] post);
      [|simpl; unfold mid; rewrite <- (assoc_L (++)); exact Hall|by (done || lia)..
       |simpl; reflexivity].
    simpl. split; [done|].
    erewrite (Dom_destroy_shape _ _ pre [] post);
      [| |done..|simpl; unfold mid; by rewrite <- (assoc_L (++))].
    + simpl. by rewrite Hch.
    + simpl. unfold mid. rewrite <- (assoc_L (++)). simpl.
      apply NoDup_app. split; [done|].
      split; [intros x Hx; specialize (Hdis' x Hx); set_solver|].
      repeat (apply NoDup_cons; split; [set_solver by lia|]). done.
Qed.

Lemma nested_widgets_destroy_order_witness :
  ∃ first second,
    (Dom._init Dom.samplePage).2 = Some first
    ∧ (Dom._init (Dom._init Dom.samplePage).1).2 = Some second
    ∧ let both := (Dom._init (Dom._init Dom.samplePage).1).1 in
      (let final := (Dom.destroy second (Dom.destroy first both).1).1 in
       (Dom.destroy first both).2 = true
       ∧ (Dom.destroy second (Dom.destroy first both).1).2 = true
       ∧ Dom.children final = Dom.children Dom.samplePage
       ∧ Dom.display final = "none")
      ∧ (let final := (Dom.destroy first (Dom.destroy second both).1).1 in
         (Dom.destroy second both).2 = true
         ∧ (Dom.destroy first (Dom.destroy second both).1).2 = true
         ∧ Dom.children final = Dom.children Dom.samplePage
         ∧ Dom.display final = Dom.display Dom.samplePage).
Proof.
  apply (nested_widgets_destroy_order Dom.samplePage).
  - split; [by vm_compute; repeat constructor; set_solver|].
    intros id _. vm_compute. set_solver.
  - vm_compute. set_solver.
Defined.

(** ** The default style sheet *)

Lemma injectDefaultCSS_done (docs : list nat) (s : Styles) :
  defaultCssInjected s = true →
  foldl (λ s doc, injectDefaultCSS doc s) s docs = s.
Proof.
  revert s. induction docs as [|doc docs IH]; intros s H; simpl; [done|].
  unfold injectDefaultCSS at 2. rewrite H. by apply IH.
Qed.

(** The default style sheet goes into one document only: of all the
    documents on whose selects widgets are built after the module is
    loaded, the first one gets one <style> element, whatever the number of
    widgets, and no other document gets any. *)
Theorem injectDefaultCSS_first_document_only (docs : list nat) :
  styled (foldl (λ s doc, injectDefaultCSS doc s) noStyles docs) = take 1 docs.
Proof.
  destruct docs as [|doc docs]; [done|]. simpl.
  by rewrite injectDefaultCSS_done.
Qed.

(** ** The timers of the filters *)

Lemma Debounce_step_tidy (s : Debounce.Step) (st : Debounce.State) :
  Debounce.tidy st → Debounce.tidy (Debounce.step s st).1.
Proof.
  intros (Hact & Hnd & Hlt & Hslots). destruct s as [type|id|]; simpl.
  - split; [|split; [|split]]; simpl.
    + intros id ty [Hin | Hin]%elem_of_app.
      * apply list_elem_of_filter in Hin as [Hne Hin]. simpl in Hne.
        destruct (Hact id ty Hin) as [-> Hpos].
        case_decide as Hty; [by subst|]. done.
      * apply list_elem_of_singleton in Hin. injection Hin as -> ->.
        rewrite decide_True by done. split; [done|].
        specialize (Hlt type). lia.
    + rewrite fmap_app. apply NoDup_app. split; [|split].
      * eapply sublist_NoDup; [exact Hnd|]. apply fmap_sublist, sublist_filter.
      * intros id Hin ->%list_elem_of_singleton.
        apply list_elem_of_fmap in Hin as ([i ty] & Hi & Hin). simpl in Hi. subst i.
        apply list_elem_of_filter in Hin as [_ Hin].
        destruct (Hact _ _ Hin) as [Hi _]. specialize (Hlt ty). lia.
      * apply NoDup_singleton.
    + intros ty. case_decide; [lia|]. specialize (Hlt ty). lia.
    + intros t1 t2. pose proof (Hlt t1). pose proof (Hlt t2).
      repeat case_decide; subst; try (by left); try lia. apply Hslots.
  - destruct (Debounce.callback id (Debounce.active st)); simpl; [|done].
    split; [|split; [|split]]; simpl; [| |done..].
    + intros i ty [_ Hin]%list_elem_of_filter. by apply Hact.
    + eapply sublist_NoDup; [exact Hnd|]. apply fmap_sublist, sublist_filter.
  - split; [|split; [|split]]; simpl; [done..| |done].
    intros ty. specialize (Hlt ty). lia.
Qed.

Lemma Debounce_run_tidy (steps : list Debounce.Step) : ∀ st,
  Debounce.tidy st → Debounce.tidy (Debounce.run steps st).1.
Proof.
  induction steps as [|s steps IH]; intros st H; simpl; [done|].
  pose proof (Debounce_step_tidy s st H) as Hs.
  destruct (Debounce.step s st) as [st1 r1]. specialize (IH st1 Hs).
  by destruct (Debounce.run steps st1).
Qed.

Lemma Debounce_initial_tidy : Debounce.tidy Debounce.initial.
Proof.
  split; [|split; [|split]]; simpl; [|constructor|lia|by right].
  intros id type Hin. by apply elem_of_nil in Hin.
Qed.

Lemma Debounce_waiting (type : PaneType) (st : Debounce.State) :
  Debounce.tidy st →
  Debounce.waiting type st = []
  ∨ Debounce.waiting type st = [Debounce._filterTimers st type].
Proof.
  intros (Hact & Hnd & _). unfold Debounce.waiting.
  assert (Hsub : (base.filter (λ p, p.2 = type) (Debounce.active st)).*1
                 `sublist_of` (Debounce.active st).*1)
    by apply fmap_sublist, sublist_filter.
  pose proof (sublist_NoDup _ _ Hnd Hsub) as Hnd'.
  assert (Hall : ∀ id, id ∈ (base.filter (λ p, p.2 = type) (Debounce.active st)).*1 →
                       id = Debounce._filterTimers st type).
  { intros id ([i ty] & Hi & [Hty Hin]%list_elem_of_filter)%list_elem_of_fmap.
    simpl in *. subst. by apply Hact. }
  destruct ((base.filter _ (Debounce.active st)).*1) as [|a [|b l]]; [by left| |].
  - right. f_equal. apply Hall. by left.
  - exfalso. apply NoDup_cons in Hnd' as [Hnot _]. apply Hnot.
    rewrite (Hall a), (Hall b) by set_solver. by left.
Qed.

Lemma Debounce_waiting_active (id : nat) (type : PaneType) (st : Debounce.State) :
  id ∈ Debounce.waiting type st ↔ (id, type) ∈ Debounce.active st.
Proof.
  unfold Debounce.waiting. rewrite list_elem_of_fmap. split.
  - intros ([i ty] & -> & [Hty Hin]%list_elem_of_filter). simpl in *. by subst.
  - intros Hin. exists (id, type). split; [done|]. by apply list_elem_of_filter.
Qed.

Lemma Debounce_callback_active (id : nat) (type : PaneType)
    (timeouts : list (nat * PaneType)) :
  NoDup timeouts.*1 →
  Debounce.callback id timeouts = Some type ↔ (id, type) ∈ timeouts.
Proof.
  induction timeouts as [|[i ty] l IH]; simpl; intros Hnd.
  - split; [done|]. intros H. by apply elem_of_nil in H.
  - apply NoDup_cons in Hnd as [Hi Hnd]. rewrite elem_of_cons. case_decide as Heq.
    + subst i. split; [intros [= ->]; by left|].
      intros [[= ->] | Hin]; [done|].
      exfalso. apply Hi. apply list_elem_of_fmap. by exists (id, type).
    + rewrite IH by done. split; [tauto|]. intros [[= -> ->] | ?]; done.
Qed.

Lemma Debounce_waiting_clear (id : nat) (type : PaneType) (st : Debounce.State) :
  Debounce.waiting type (Debounce.clearTimeout id st)
  = base.filter (λ i, i ≠ id) (Debounce.waiting type st).
Proof.
  unfold Debounce.waiting. simpl.
  induction (Debounce.active st) as [|[i ty] l IH]; [done|].
  rewrite (filter_cons (λ p, p.1 ≠ id)), (filter_cons (λ p, p.2 = type) (i, ty)).
  simpl. destruct (decide (i ≠ id)) as [Hi|Hi], (decide (ty = type)) as [Hty|Hty].
  - rewrite filter_cons_True by done. rewrite !fmap_cons. simpl.
    rewrite filter_cons_True by done. by rewrite IH.
  - rewrite filter_cons_False by done. done.
  - rewrite fmap_cons. simpl. rewrite filter_cons_False by done. done.
  - done.
Qed.

Lemma Debounce_waiting_input (type other : PaneType) (st : Debounce.State) :
  Debounce.tidy st →
  Debounce.waiting other (Debounce._debouncedRender type st)
  = if decide (other = type) then [Debounce.next st] else Debounce.waiting other st.
Proof.
  intros Htidy.
  assert (Hw : Debounce.waiting other (Debounce._debouncedRender type st)
               = base.filter (λ i, i ≠ Debounce._filterTimers st type)
                   (Debounce.waiting other st)
                 ++ (if decide (type = other) then [Debounce.next st] else [])).
  { rewrite <- Debounce_waiting_clear. unfold Debounce.waiting. simpl.
    rewrite filter_app, fmap_app. f_equal.
    case_decide; [by rewrite filter_cons_True|by rewrite filter_cons_False]. }
  rewrite Hw. destruct (decide (other = type)) as [->|Hne].
  - rewrite decide_True by done.
    destruct (Debounce_waiting type st Htidy) as [-> | ->]; [done|].
    by rewrite filter_cons_False by tauto.
  - rewrite decide_False, app_nil_r by done.
    destruct (Debounce_waiting other st Htidy) as [-> | Hone]; [done|].
    rewrite Hone. rewrite filter_cons_True; [done|].
    intros Heq. destruct Htidy as (Hact & _ & _ & Hslots).
    destruct (Hslots _ _ Heq) as [? | H0]; [done|].
    assert (Hin : Debounce._filterTimers st other ∈ Debounce.waiting other st)
      by (rewrite Hone; by left).
    apply Debounce_waiting_active, Hact in Hin as [_ Hpos]. lia.
Qed.

Lemma Debounce_step_count (s : Debounce.Step) (type : PaneType) (st : Debounce.State) :
  Debounce.tidy st →
  (Debounce.occurrences type (Debounce.step s st).2
   + length (Debounce.waiting type (Debounce.step s st).1)
   ≤ Debounce.occurrences (Debounce.Input type) [s]
     + length (Debounce.waiting type st))%nat.
Proof.
  intros Htidy. destruct s as [ty|id|]; simpl.
  - rewrite Debounce_waiting_input by done. unfold Debounce.occurrences.
    destruct (decide (type = ty)) as [->|Hne].
    + rewrite filter_cons_True by done. simpl. lia.
    + rewrite filter_cons_False by congruence. simpl. lia.
  - destruct (Debounce.callback id (Debounce.active st)) as [ty|] eqn:Hcb; simpl;
      [|unfold Debounce.occurrences; simpl; lia].
    rewrite Debounce_waiting_clear. unfold Debounce.occurrences.
    try rewrite (filter_cons_False _ (Debounce.Due id)) by done. simpl.
    destruct (decide (ty = type)) as [->|Hne].
    + rewrite filter_cons_True by done. simpl.
      assert (Hin : id ∈ Debounce.waiting type st).
      { apply Debounce_waiting_active.
        apply Debounce_callback_active; [|done]. apply Htidy. }
      destruct (Debounce_waiting type st Htidy) as [H | H]; rewrite H in Hin |- *.
      * by apply elem_of_nil in Hin.
      * apply list_elem_of_singleton in Hin as ->.
        rewrite filter_cons_False by tauto. simpl. lia.
    + rewrite filter_cons_False by done. simpl.
      pose proof (length_filter (λ i, i ≠ id) (Debounce.waiting type st)). lia.
  - unfold Debounce.occurrences, Debounce.waiting. simpl. lia.
Qed.

Lemma Debounce_run_count (type : PaneType) (steps : list Debounce.Step) : ∀ st,
  Debounce.tidy st →
  (Debounce.occurrences type (Debounce.run steps st).2
   + length (Debounce.waiting type (Debounce.run steps st).1)
   ≤ Debounce.occurrences (Debounce.Input type) steps
     + length (Debounce.waiting type st))%nat.
Proof.
  induction steps as [|s steps IH]; intros st Htidy; simpl.
  - unfold Debounce.occurrences. simpl. lia.
  - pose proof (Debounce_step_count s type st Htidy) as Hs.
    pose proof (Debounce_step_tidy s st Htidy) as Ht.
    destruct (Debounce.step s st) as [st1 r1]. simpl in *.
    specialize (IH st1 Ht). destruct (Debounce.run steps st1) as [st2 r2]. simpl in *.
    unfold Debounce.occurrences in *. rewrite filter_app, length_app.
    change (s :: steps) with ([s] ++ steps). rewrite filter_app, length_app. lia.
Qed.

(** Debouncing: whatever the inputs and timeouts, a pane has at most one
    render waiting, under the id in its slot of [_filterTimers]; and the
    timers have rendered a pane, or are yet to render it, at most as many
    times as its filter had input events. *)
Theorem debounce_one_timer_per_pane (steps : list Debounce.Step) (type : PaneType) :
  let after := (Debounce.run steps Debounce.initial).1 in
  let rendered := (Debounce.run steps Debounce.initial).2 in
  (Debounce.waiting type after = []
   ∨ Debounce.waiting type after = [Debounce._filterTimers after type])
  ∧ (Debounce.occurrences type rendered + length (Debounce.waiting type after)
     ≤ Debounce.occurrences (Debounce.Input type) steps)%nat.
Proof.
  split.
  - apply Debounce_waiting, Debounce_run_tidy, Debounce_initial_tidy.
  - pose proof (Debounce_run_count type steps _ Debounce_initial_tidy) as H.
    simpl in H. lia.
Qed.

Lemma Debounce_burst (type : PaneType) (burst : list Debounce.Step) : ∀ st,
  Debounce.tidy st →
  Forall (λ s, s = Debounce.Input type ∨ s = Debounce.Elsewhere) burst →
  (Debounce.run burst st).2 = []
  ∧ (∀ other, other ≠ type →
       Debounce.waiting other (Debounce.run burst st).1 = Debounce.waiting other st)
  ∧ (Debounce.waiting type st ≠ [] ∨ Debounce.Input type ∈ burst →
     Debounce.waiting type (Debounce.run burst st).1 ≠ []).
Proof.
  induction burst as [|s burst IH]; intros st Htidy Hall; simpl.
  - split; [done|]. split; [done|]. intros [H | H]; [done|]. by apply elem_of_nil in H.
  - apply Forall_cons_1 in Hall as [Hs Hall].
    pose proof (Debounce_step_tidy s st Htidy) as Ht.
    assert (Hst : (Debounce.step s st).2 = []
                  ∧ (∀ other, other ≠ type →
                       Debounce.waiting other (Debounce.step s st).1
                       = Debounce.waiting other st)
                  ∧ (Debounce.waiting type st ≠ [] ∨ s = Debounce.Input type →
                     Debounce.waiting type (Debounce.step s st).1 ≠ [])).
    { destruct Hs as [-> | ->]; simpl.
      - split; [done|]. split.
        + intros other Hne. by rewrite Debounce_waiting_input, decide_False.
        + intros _. by rewrite Debounce_waiting_input, decide_True.
      - split; [done|]. split; [done|]. intros [H | H]; done. }
    destruct (Debounce.step s st) as [st1 r1]. simpl in *.
    destruct Hst as (-> & Hother & Htype).
    destruct (IH st1 Ht Hall) as (Hr & Hother' & Htype').
    destruct (Debounce.run burst st1) as [st2 r2]. simpl in *.
    split; [done|]. split.
    + intros other Hne. by rewrite Hother', Hother.
    + intros [H | [H | H]%elem_of_cons]; apply Htype'; auto.
Qed.

(** A burst of input events on one pane's filter, with no timeout coming
    due in between, renders nothing and leaves one render of that pane
    waiting, whatever went on before.  The other pane's waiting render, if
    any, is not cancelled.  When the timeout comes due the pane is rendered
    once and nothing more is waiting for it. *)
Theorem debounce_burst (steps burst : list Debounce.Step) (type : PaneType) :
  Forall (λ s, s = Debounce.Input type ∨ s = Debounce.Elsewhere) burst →
  Debounce.Input type ∈ burst →
  let before := (Debounce.run steps Debounce.initial).1 in
  let after := (Debounce.run burst before).1 in
  let due := Debounce.step (Debounce.Due (Debounce._filterTimers after type)) after in
  (Debounce.run burst before).2 = []
  ∧ Debounce.waiting type after = [Debounce._filterTimers after type]
  ∧ (∀ other, other ≠ type →
       Debounce.waiting other after = Debounce.waiting other before)
  ∧ due.2 = [type]
  ∧ Debounce.waiting type due.1 = [].
Proof.
  intros Hall Hin before after due.
  assert (Hbefore : Debounce.tidy before)
    by apply Debounce_run_tidy, Debounce_initial_tidy.
  assert (Hafter : Debounce.tidy after) by by apply Debounce_run_tidy.
  destruct (Debounce_burst type burst before Hbefore Hall) as (Hr & Hother & Htype).
  assert (Hone : Debounce.waiting type after = [Debounce._filterTimers after type]).
  { destruct (Debounce_waiting type after Hafter) as [H | H]; [|done].
    exfalso. apply Htype; [by right|done]. }
  split; [done|]. split; [done|]. split; [done|].
  assert (Hcb : Debounce.callback (Debounce._filterTimers after type)
                  (Debounce.active after) = Some type).
  { apply Debounce_callback_active; [apply Hafter|].
    apply Debounce_waiting_active. rewrite Hone. by left. }
  unfold due. simpl. rewrite Hcb. simpl. split; [done|].
  rewrite Debounce_waiting_clear, Hone. by rewrite filter_cons_False by tauto.
Qed.

Lemma debounce_burst_witness :
  let before := (Debounce.run [Debounce.Input Chosen; Debounce.Input Available;
                               Debounce.Due 2] Debounce.initial).1 in
  let after := (Debounce.run [Debounce.Input Available; Debounce.Elsewhere;
                              Debounce.Input Available] before).1 in
  let due := Debounce.step (Debounce.Due (Debounce._filterTimers after Available)) after in
  (Debounce.run [Debounce.Input Available; Debounce.Elsewhere;
                 Debounce.Input Available] before).2 = []
  ∧ Debounce.waiting Available after = [Debounce._filterTimers after Available]
  ∧ (∀ other, other ≠ Available →
       Debounce.waiting other after = Debounce.waiting other before)
  ∧ due.2 = [Available]
  ∧ Debounce.waiting Available due.1 = [].
Proof.
  apply (debounce_burst
           [Debounce.Input Chosen; Debounce.Input Available; Debounce.Due 2]
           [Debounce.Input Available; Debounce.Elsewhere; Debounce.Input Available]
           Available).
  - repeat first [apply Forall_nil_2 | apply Forall_cons_2; [(by left) || (by right)|]].
  - by left.
Defined.

(** A run of the timers: typing in both filters, then three more input
    events on the first; each pane is rendered once. *)
Example debounce_run :
  Debounce.run [Debounce.Input Available; Debounce.Input Chosen;
                Debounce.Input Available; Debounce.Input Available;
                Debounce.Input Available; Debounce.Due 1; Debounce.Due 2;
                Debounce.Due 3; Debounce.Due 4; Debounce.Due 5]
               Debounce.initial
  = ((Debounce.run [Debounce.Input Available; Debounce.Input Chosen;
                Debounce.Input Available; Debounce.Input Available;
                Debounce.Input Available; Debounce.Due 1; Debounce.Due 2;
                Debounce.Due 3; Debounce.Due 4; Debounce.Due 5]
               Debounce.initial).1, [Chosen; Available]).
Proof. by vm_compute. Qed.

(** ** The guards of the later listing *)

Lemma engineView_partition (a b : Widget) (type : PaneType) :
  engineView a = engineView b → partition type a = partition type b.
Proof. intros (_ & Ha & Hc)%engineView_fields. by destruct type. Qed.

Lemma Full_transfer_keeps (keys : list string) (fromType toType type : PaneType)
    (this : Widget) (key : string) :
  fromType ≠ toType → key ∉ keys →
  key ∈ partition type (Full._transfer keys fromType toType this)
  ↔ key ∈ partition type this.
Proof.
  intros Hne Hkey.
  destruct (Full_transfer_elem_of keys fromType toType this key Hne) as [Hf Ht].
  destruct (decide (type = fromType)) as [-> | Hn]; [tauto|].
  assert (type = toType) as -> by (destruct type, fromType, toType; congruence).
  tauto.
Qed.

Lemma Full_handle_keeps (e : Event) (this : Widget) (key : string) (type : PaneType) :
  Full.movable this key = false →
  key ∈ partition type (Full.handle e this) ↔ key ∈ partition type this.
Proof.
  intros Hkey.
  assert (Hsel : ∀ fromType toType, fromType ≠ toType →
            key ∈ partition type (Full._moveSelected fromType toType this)
            ↔ key ∈ partition type this).
  { intros fromType toType Hne. unfold Full._moveSelected.
    destruct (0 <? _)%nat; [|done]. apply Full_transfer_keeps; [done|].
    intros [Hm _]%list_elem_of_filter. by rewrite Hkey in Hm. }
  assert (Hall : ∀ fromType toType, fromType ≠ toType →
            key ∈ partition type (Full._moveAll fromType toType this)
            ↔ key ∈ partition type this).
  { intros fromType toType Hne. unfold Full._moveAll.
    destruct (0 <? _)%nat; [|done]. apply Full_transfer_keeps; [done|].
    intros [Hm _]%list_elem_of_filter. by rewrite Hkey in Hm. }
  pose proof (handle_frame e this) as Hframe.
  destruct e as [ty text|ty|ty selected|[|]|[|]|[| | |]];
    try (by rewrite (engineView_partition _ _ type (proj1 Hframe)));
    simpl; try (by apply Hsel); by apply Hall.
Qed.

(** The guards of the later listing hold in every state, whatever the
    data attributes of the source: a partition never holds a key that is
    not registered, and the key of a disabled item never leaves the
    partition that construction put it in ("chosen" if the source option
    was selected, "available" if not). *)
Theorem Full_disabled_items_stay (select : list OptionElement)
    (sf : bool) (mode : string) (pso : bool) (this : Widget)
    (i : nat) (option : OptionElement) :
  reachable Full.handle (Full.new select sf mode pso) this →
  select !! i = Some option → el_disabled option = true →
  (keyOf i ∈ chosen this ↔ el_selected option = true)
  ∧ (keyOf i ∈ available this ↔ el_selected option = false)
  ∧ (∀ key, key ∈ available this ++ chosen this → is_Some (options this !! key)).
Proof.
  intros Hreach Hi Hdis.
  split; [|split; [|by apply (Full_reachable_registered select sf mode pso)]].
  - induction Hreach as [|e this Hreach IH].
    + destruct (built_partitions select sf mode pso (Full.new select sf mode pso))
        as (_ & -> & _); [tauto|].
      rewrite elem_of_builtKeys. split.
      * intros (j & o & Hj & Hb & Hk). apply (inj keyOf) in Hk. simpl in Hk.
        subst j. congruence.
      * intros Hb. by exists i, option.
    + rewrite <- IH. apply (Full_handle_keeps e this (keyOf i) Chosen).
      assert (Hreach' : reachable Full.handle (Full.new select sf mode pso) this
                        ∨ reachable Basic.handle (Basic.new select sf mode pso) this)
        by by left.
      destruct (reachable_engineInv _ _ _ _ _ Hreach') as (Ho & _).
      unfold Full.movable.
      rewrite Ho, (builtOptions_lookup select 0 ∅ i option Hi). simpl.
      by rewrite Hdis.
  - induction Hreach as [|e this Hreach IH].
    + destruct (built_partitions select sf mode pso (Full.new select sf mode pso))
        as (-> & _ & _); [tauto|].
      rewrite elem_of_builtKeys. split.
      * intros (j & o & Hj & Hb & Hk). apply (inj keyOf) in Hk. simpl in Hk.
        subst j. congruence.
      * intros Hb. by exists i, option.
    + rewrite <- IH. apply (Full_handle_keeps e this (keyOf i) Available).
      assert (Hreach' : reachable Full.handle (Full.new select sf mode pso) this
                        ∨ reachable Basic.handle (Basic.new select sf mode pso) this)
        by by left.
      destruct (reachable_engineInv _ _ _ _ _ Hreach') as (Ho & _).
      unfold Full.movable.
      rewrite Ho, (builtOptions_lookup select 0 ∅ i option Hi). simpl.
      by rewrite Hdis.
Qed.

Lemma Full_disabled_items_stay_witness :
  let this := Full.handle (Click AddAll) (Full.new fruits true "contains" false) in
  (keyOf 1 ∈ chosen this ↔ false = true)
  ∧ (keyOf 1 ∈ available this ↔ false = false)
  ∧ (∀ key, key ∈ available this ++ chosen this → is_Some (options this !! key)).
Proof.
  intros this.
  apply (Full_disabled_items_stay fruits true "contains" false this 1
           (sourceOption "Banana" true false)).
  - apply reachable_step, reachable_init.
  - reflexivity.
  - reflexivity.
Defined.

(** ** Moving in the earlier listing *)

(** What the two moves of the earlier listing do, in any state: [_moveAll]
    empties the first partition into the second, disabled items and
    unregistered keys included, and does nothing when the first partition
    is empty; [_moveSelected] moves every key that is selected in the pane
    of the first partition, whatever its item, and does nothing when no
    key is selected. *)
Theorem Basic_moves_spec (fromType toType : PaneType) (this : Widget) :
  fromType ≠ toType →
  let all := Basic._moveAll fromType toType this in
  let selected := Basic._moveSelected fromType toType this in
  (partition fromType this = [] → all = this)
  ∧ partition fromType all = []
  ∧ (∀ key, key ∈ partition toType all
            ↔ key ∈ partition toType this ∨ key ∈ partition fromType this)
  ∧ ((∀ key, ¬ visiblySelected fromType this key) → selected = this)
  ∧ (∀ key, key ∈ partition fromType selected
            ↔ key ∈ partition fromType this ∧ ¬ visiblySelected fromType this key)
  ∧ (∀ key, key ∈ partition toType selected
            ↔ key ∈ partition toType this ∨ visiblySelected fromType this key).
Proof.
  intros Hne all selected.
  assert (Hmove : ∀ keys key,
            (key ∈ partition fromType (Basic._transfer keys fromType toType this)
             ↔ key ∈ partition fromType this ∧ key ∉ keys)
            ∧ (key ∈ partition toType (Basic._transfer keys fromType toType this)
               ↔ key ∈ partition toType this ∨ key ∈ keys)).
  { intros keys key. rewrite !Basic_transfer_partitions.
    by apply Full_transfer_elem_of. }
  split; [|split; [|split; [|split; [|split]]]].
  - unfold all, Basic._moveAll. by intros ->.
  - unfold all, Basic._moveAll.
    destruct (0 <? _)%nat eqn:E; [|by apply length_pos_false in E].
    apply elem_of_nil_inv. intros key Hin. apply Hmove in Hin. tauto.
  - intros key. unfold all, Basic._moveAll.
    destruct (0 <? _)%nat eqn:E; [apply Hmove|].
    apply length_pos_false in E. rewrite E, elem_of_nil. tauto.
  - intros Hnone. unfold selected, Basic._moveSelected.
    destruct (_getSelectedKeys _) as [|key keys] eqn:E; [done|].
    destruct (Hnone key). apply elem_of_getSelectedKeys. rewrite E. by left.
  - intros key. unfold selected, Basic._moveSelected.
    destruct (0 <? _)%nat eqn:E.
    + destruct (Hmove (_getSelectedKeys (paneSelect fromType this)) key) as [-> _].
      by rewrite elem_of_getSelectedKeys.
    + apply length_pos_false in E. rewrite <- elem_of_getSelectedKeys, E, elem_of_nil.
      tauto.
  - intros key. unfold selected, Basic._moveSelected.
    destruct (0 <? _)%nat eqn:E.
    + destruct (Hmove (_getSelectedKeys (paneSelect fromType this)) key) as [_ ->].
      by rewrite elem_of_getSelectedKeys.
    + apply length_pos_false in E. rewrite <- elem_of_getSelectedKeys, E, elem_of_nil.
      tauto.
Qed.

Lemma Basic_moves_spec_witness :
  let this := Basic.new fruits true "contains" false in
  let all := Basic._moveAll Available Chosen this in
  let selected := Basic._moveSelected Available Chosen this in
  (partition Available this = [] → all = this)
  ∧ partition Available all = []
  ∧ (∀ key, key ∈ partition Chosen all
            ↔ key ∈ partition Chosen this ∨ key ∈ partition Available this)
  ∧ ((∀ key, ¬ visiblySelected Available this key) → selected = this)
  ∧ (∀ key, key ∈ partition Available selected
            ↔ key ∈ partition Available this ∧ ¬ visiblySelected Available this key)
  ∧ (∀ key, key ∈ partition Chosen selected
            ↔ key ∈ partition Chosen this ∨ visiblySelected Available this key).
Proof.
  intros this. apply (Basic_moves_spec Available Chosen this). discriminate.
Defined.
